(** * abTEM: projection kernels, slicing and ensemble arrays

    A shallow embedding of

      - [abtem/core/integrals/infinite.py]  ([superpose_deltas],
        [infinite_potential_projections]),
      - [abtem/slicing.py]  ([validate_slice_thickness], [_slice_limits],
        [unpack_item], [SliceIndexedAtoms], [SlicedAtoms]),
      - [abtem/core/array.py]  ([HasArray.get_items], [HasArray.squeeze],
        [HasArray.expand_dims], [stack]),
      - [abtem/waves.py]  ([_reduce_ensemble], [Waves.apply_ctf],
        [_ensure_parity], [_ensure_parity_of_gpts],
        [_antialias_cutoff_gpts]) and
        [abtem/waves/waves.py]  ([Waves.multislice]).

    Conventions of the embedding.

      - Floating-point numbers ([float32], [float64]) are the canonical
        rationals [Qc]: arithmetic is exact, rounding is not modelled.
      - Python integers are [Z]; NumPy [int32] values are [Z] with the
        wrap-around of the 32-bit signed range written out.
      - A raised exception is the [Raise] case of [result]; nothing in the
        modelled code catches one.  Where the code has an [assert], a call
        ends in one of the three cases of [outcome].
      - NumPy arrays that the code mutates in place live in a store and are
        passed by reference. *)

From Stdlib Require Import ZArith QArith Qcanon Qround Lia.
From stdpp Require Import base option list gmap.

Local Open Scope Z_scope.

(** ** Exceptions and results *)

Inductive exn : Set :=
| RuntimeError
| IndexError
| NotImplementedError
| ValueError
| KeyError
| ZeroDivisionError.

Inductive result (A : Type) : Type :=
| Ok (a : A)
| Raise (e : exn).
Arguments Ok {A} a.
Arguments Raise {A} e.

Definition rbind {A B} (r : result A) (k : A -> result B) : result B :=
  match r with
  | Ok a => k a
  | Raise e => Raise e
  end.

Definition is_Ok {A} (r : result A) : Prop := exists a, r = Ok a.

(** ** Numbers *)

Definition QcZ (z : Z) : Qc := Qc_of_Z z.

(** [numpy.floor] followed by a conversion to an integer. *)
Definition Qcfloor (q : Qc) : Z := Qfloor (this q).

(** [numpy.ceil]. *)
Definition Qcceiling (q : Qc) : Z := Qceiling (this q).

Definition Qcabs (q : Qc) : Qc := if decide (0 <= q)%Qc then q else (- q)%Qc.

Definition Qcleb (a b : Qc) : bool := bool_decide (a <= b)%Qc.
Definition Qcltb (a b : Qc) : bool := bool_decide (a < b)%Qc.

(** The rational [n / d]. *)
Definition q (n : Z) (d : positive) : Qc := Q2Qc (n # d).

Definition Qcsum (l : list Qc) : Qc := foldr Qcplus 0%Qc l.

(** Signed 32-bit wrap-around: the value an [int32] holds after an
    operation whose mathematical result is [z]. *)
Definition int32_wrap (z : Z) : Z := (z + 2 ^ 31) mod 2 ^ 32 - 2 ^ 31.

Definition in_int32 (z : Z) : Prop := - 2 ^ 31 <= z < 2 ^ 31.

(** [%] of NumPy integers by a Python integer: the sign follows the divisor,
    and a zero divisor gives zero (with a warning, not an exception). *)
Definition np_mod (a n : Z) : Z := if n =? 0 then 0 else a mod n.

(** ** Atomic structures

    An [ase.Atoms] object as far as the code reads it: the positions and
    atomic numbers of the atoms, and the cell matrix. *)

Record atom : Type := mk_atom {
  position : Qc * Qc * Qc;
  number : Z
}.

(** [positions[:, 2]] of one atom. *)
Definition pos_z (a : atom) : Qc := snd (position a).

Record Atoms : Type := mk_Atoms {
  atom_list : list atom;
  cell : (Qc * Qc * Qc) * (Qc * Qc * Qc) * (Qc * Qc * Qc)
}.

(** [np.diag(atoms.cell)] *)
Definition cell_diag (a : Atoms) : Qc * Qc * Qc :=
  let '((xx, _, _), (_, yy, _), (_, _, zz)) := cell a in (xx, yy, zz).

(** [atoms.cell[2, 2]] *)
Definition cell_depth (a : Atoms) : Qc := snd (cell_diag a).

(** A diagonal cell, as ASE builds it from three lengths. *)
Definition diag_cell (xx yy zz : Qc)
  : (Qc * Qc * Qc) * (Qc * Qc * Qc) * (Qc * Qc * Qc) :=
  ((xx, 0%Qc, 0%Qc), (0%Qc, yy, 0%Qc), (0%Qc, 0%Qc, zz)).

(** Python's [l[i]]: negative indices count from the end, an index outside
    [-len, len) raises [IndexError]. *)
Definition py_index {A} (l : list A) (i : Z) : result A :=
  let n := Z.of_nat (length l) in
  let k := if i <? 0 then i + n else i in
  if (0 <=? k) && (k <? n) then
    match l !! Z.to_nat k with
    | Some x => Ok x
    | None => Raise IndexError
    end
  else Raise IndexError.

(** ** Two-dimensional arrays *)

Module Grid.

(** A C-contiguous array of shape [(shape0, shape1)]. *)
Record ndarray (A : Type) : Type := mk {
  shape0 : Z;
  shape1 : Z;
  data : list A
}.
Arguments mk {A} shape0 shape1 data.
Arguments shape0 {A} n.
Arguments shape1 {A} n.
Arguments data {A} n.

Definition wf {A} (a : ndarray A) : Prop :=
  0 <= shape0 a /\ 0 <= shape1 a /\
  Z.of_nat (length (data a)) = shape0 a * shape1 a.

Definition same_shape {A B} (a : ndarray A) (b : ndarray B) : Prop :=
  shape0 a = shape0 b /\ shape1 a = shape1 b.

(** [xp.zeros(shape)] *)
Definition full {A} (s0 s1 : Z) (x : A) : ndarray A :=
  mk s0 s1 (replicate (Z.to_nat (s0 * s1)) x).

Definition zeros (s0 s1 : Z) : ndarray Qc := full s0 s1 0%Qc.

(** NumPy's treatment of one integer index on an axis of length [n]:
    negative indices count from the end, anything outside [-n, n) is an
    [IndexError]. *)
Definition normalize_index (n i : Z) : result Z :=
  if (0 <=? i) && (i <? n) then Ok i
  else if (- n <=? i) && (i <? 0) then Ok (i + n)
  else Raise IndexError.

Definition flat_index {A} (a : ndarray A) (i j : Z) : result nat :=
  rbind (normalize_index (shape0 a) i) (fun i' =>
  rbind (normalize_index (shape1 a) j) (fun j' =>
  Ok (Z.to_nat (i' * shape1 a + j')))).

(** [a[i, j]] *)
Definition get {A} (a : ndarray A) (i j : Z) : option A :=
  match flat_index a i j with
  | Ok k => data a !! k
  | Raise _ => None
  end.

Definition amap {A B} (f : A -> B) (a : ndarray A) : ndarray B :=
  mk (shape0 a) (shape1 a) (f <$> data a).

(** Element-wise binary operation on arrays of one shape. *)
Definition amap2 {A B C} (f : A -> B -> C) (a : ndarray A) (b : ndarray B)
  : ndarray C :=
  mk (shape0 a) (shape1 a) (zip_with f (data a) (data b)).

Definition total (a : ndarray Qc) : Qc := Qcsum (data a).

End Grid.

(** ** The store of arrays mutated in place *)

Definition loc := positive.
Abbreviation heap := (gmap loc (Grid.ndarray Qc)).

(** A computation that reads and writes the store and may raise.  The store
    is returned in both cases: what was written before an exception stays
    written. *)
Definition M (A : Type) : Type := heap -> result A * heap.

Definition ret {A} (a : A) : M A := fun h => (Ok a, h).
Definition raise {A} (e : exn) : M A := fun h => (Raise e, h).
Definition bind {A B} (m : M A) (k : A -> M B) : M B :=
  fun h => match m h with
           | (Ok a, h') => k a h'
           | (Raise e, h') => (Raise e, h')
           end.

#[global] Instance M_ret : MRet M := @ret.
#[global] Instance M_bind : MBind M := fun A B k m => bind m k.

(** Allocation of a new array. *)
Definition alloc (a : Grid.ndarray Qc) : M loc :=
  fun h => let l := fresh (dom h) in (Ok l, <[l := a]> h).

(** Reading the array behind a reference.  A reference always points to a
    live array in Python; the error case is there to make [deref] total. *)
Definition deref (l : loc) : M (Grid.ndarray Qc) :=
  fun h => match h !! l with
           | Some a => (Ok a, h)
           | None => (Raise RuntimeError, h)
           end.

Definition store (l : loc) (a : Grid.ndarray Qc) : M unit :=
  fun h => (Ok tt, <[l := a]> h).

(** ** [abtem/core/integrals/infinite.py] *)

Module Infinite.

Import Grid.

(** One entry of the flattened index/value arrays handed to
    [numpy.add.at]. *)
Record deposit : Type := mk_deposit {
  dep_i : Z;
  dep_j : Z;
  dep_v : Qc
}.

(** [rounded = xp.floor(positions).astype(xp.int32)]: the conversion is
    exact on the [int32] range. *)
Definition astype_int32 (z : Z) : Z := int32_wrap z.

Definition rows_of (positions : list (Qc * Qc)) : list Z :=
  (fun p => astype_int32 (Qcfloor (fst p))) <$> positions.
Definition cols_of (positions : list (Qc * Qc)) : list Z :=
  (fun p => astype_int32 (Qcfloor (snd p))) <$> positions.

(** [x = positions[:, 0] - rows] and [y = positions[:, 1] - cols] *)
Definition x_of (positions : list (Qc * Qc)) : list Qc :=
  zip_with (fun p r => (fst p - QcZ r)%Qc) positions (rows_of positions).
Definition y_of (positions : list (Qc * Qc)) : list Qc :=
  zip_with (fun p c => (snd p - QcZ c)%Qc) positions (cols_of positions).

(** [i = xp.array([rows % shape[0], (rows + 1) % shape[0]] * 2)] *)
Definition index_i (s0 : Z) (rows : list Z) : list (list Z) :=
  let l := [ (fun r => np_mod r s0) <$> rows;
             (fun r => np_mod (int32_wrap (r + 1)) s0) <$> rows ] in
  l ++ l.

(** [j = xp.array([cols % shape[1]] * 2 + [(cols + 1) % shape[1]] * 2)] *)
Definition index_j (s1 : Z) (cols : list Z) : list (list Z) :=
  let a := [ (fun c => np_mod c s1) <$> cols ] in
  let b := [ (fun c => np_mod (int32_wrap (c + 1)) s1) <$> cols ] in
  (a ++ a) ++ (b ++ b).

(** [v = xp.array([1 + xy - y - x, x - xy, y - xy, xy])] *)
Definition values (x y : list Qc) : list (list Qc) :=
  [ zip_with (fun x y => (1 + x * y - y - x)%Qc) x y;
    zip_with (fun x y => (x - x * y)%Qc) x y;
    zip_with (fun x y => (y - x * y)%Qc) x y;
    zip_with (fun x y => (x * y)%Qc) x y ].

(** [v = v * weights[None]]: the weights are broadcast along the first
    axis; a length that is neither that of the points nor one does not
    broadcast. *)
Definition apply_weights (n : nat) (v : list (list Qc))
    (weights : option (list Qc)) : result (list (list Qc)) :=
  match weights with
  | None => Ok v
  | Some w =>
      if decide (length w = n) then
        Ok ((fun row : list Qc => zip_with Qcmult row w) <$> v)
      else match w with
           | [w0] => Ok ((fun row : list Qc => (fun a => (a * w0)%Qc) <$> row) <$> v)
           | _ => Raise ValueError
           end
  end.

(** The index and value arrays in the order [numpy.add.at] visits them
    (C order: first axis outermost). *)
Definition zip_deposits (i j : list (list Z)) (v : list (list Qc))
  : list deposit :=
  zip_with (fun ij v => mk_deposit (fst ij) (snd ij) v)
           (zip (concat i) (concat j)) (concat v).

(** [numpy.add.at(array, (i, j), v)]: every index is checked first, then
    the additions are done one after the other, without buffering. *)
Definition add_one (a : ndarray Qc) (k : nat) (v : Qc) : ndarray Qc :=
  mk (shape0 a) (shape1 a) (alter (fun old => (old + v)%Qc) k (data a)).

Fixpoint check_indices (a : ndarray Qc) (ds : list deposit)
  : result (list (nat * Qc)) :=
  match ds with
  | [] => Ok []
  | d :: ds' =>
      rbind (flat_index a (dep_i d) (dep_j d)) (fun k =>
      rbind (check_indices a ds') (fun ks => Ok ((k, dep_v d) :: ks)))
  end.

Definition add_at (a : ndarray Qc) (ds : list deposit)
  : result (ndarray Qc) :=
  rbind (check_indices a ds) (fun ks =>
  Ok (foldl (fun acc kv => add_one acc (fst kv) (snd kv)) a ks)).

(** The deposits [superpose_deltas] computes for an array of shape
    [(s0, s1)]. *)
Definition deposits_of (s0 s1 : Z) (positions : list (Qc * Qc))
    (weights : option (list Qc)) : result (list deposit) :=
  let rows := rows_of positions in
  let cols := cols_of positions in
  let x := x_of positions in
  let y := y_of positions in
  let i := index_i s0 rows in
  let j := index_j s1 cols in
  rbind (apply_weights (length positions) (values x y) weights) (fun v =>
  Ok (zip_deposits i j v)).

(** [superpose_deltas(positions, array, slice_index=None, weights=None)] *)
Definition superpose_deltas (positions : list (Qc * Qc)) (array : loc)
    (slice_index : option (list Z)) (weights : option (list Qc)) : M loc :=
  a ← deref array;
  match slice_index with
  | None =>
      match rbind (deposits_of (shape0 a) (shape1 a) positions weights)
                  (add_at a) with
      | Ok a' => store array a';; ret array
      | Raise e => raise e
      end
  | Some _ => raise NotImplementedError
  end.

(** *** Notions used to state what [superpose_deltas] does *)

Definition in_bounds {A} (a : ndarray A) (i j : Z) : Prop :=
  0 <= i < shape0 a /\ 0 <= j < shape1 a.

Definition flat {A} (a : ndarray A) (i j : Z) : nat :=
  Z.to_nat (i * shape1 a + j).

Definition dep3 (i j : list Z) (v : list Qc) : list deposit :=
  zip_with (fun ij v => mk_deposit (fst ij) (snd ij) v) (zip i j) v.

Definition cell_of (d : deposit) : Z * Z := (dep_i d, dep_j d).

Definition row_of (p : Qc * Qc) : Z := astype_int32 (Qcfloor (fst p)).
Definition col_of (p : Qc * Qc) : Z := astype_int32 (Qcfloor (snd p)).
Definition frac_x (p : Qc * Qc) : Qc := (fst p - QcZ (row_of p))%Qc.
Definition frac_y (p : Qc * Qc) : Qc := (snd p - QcZ (col_of p))%Qc.

(** The deposit of one point into one of its four neighbour cells: [a]
    selects the next row, [b] the next column. *)
Definition bilinear_weight (a b : bool) (x y : Qc) : Qc :=
  match a, b with
  | false, false => 1 + x * y - y - x
  | true, false => x - x * y
  | false, true => y - x * y
  | true, true => x * y
  end%Qc.

Definition corner (a b : bool) (s0 s1 : Z) (p : Qc * Qc) : deposit :=
  let r := row_of p in
  let c := col_of p in
  mk_deposit (np_mod (if a then int32_wrap (r + 1) else r) s0)
             (np_mod (if b then int32_wrap (c + 1) else c) s1)
             (bilinear_weight a b (frac_x p) (frac_y p)).

(** The four deposits of one point, in the order of the first axis of the
    index arrays. *)
Definition corners (s0 s1 : Z) (p : Qc * Qc) : list deposit :=
  [ corner false false s0 s1 p; corner true false s0 s1 p;
    corner false true s0 s1 p; corner true true s0 s1 p ].

Definition neighbor_cells (s0 s1 : Z) (p : Qc * Qc) : list (Z * Z) :=
  cell_of <$> corners s0 s1 p.

Definition add_all (a : ndarray Qc) (ks : list (nat * Qc)) : ndarray Qc :=
  foldl (fun acc kv => add_one acc (fst kv) (snd kv)) a ks.

(** What is added to the element at flat position [k]. *)
Definition added_at (k : nat) (ks : list (nat * Qc)) : Qc :=
  Qcsum (snd <$> filter (fun kv => fst kv = k) ks).

Definition flat_deposits (a : ndarray Qc) (ds : list deposit)
  : list (nat * Qc) :=
  (fun d => (flat a (dep_i d) (dep_j d), dep_v d)) <$> ds.

Definition half : Qc := Q2Qc (1 # 2).

(** *** Fourier-domain arrays *)

Record complex : Type := mk_complex { re : Qc; im : Qc }.

Definition Cadd (a b : complex) : complex :=
  mk_complex (re a + re b)%Qc (im a + im b)%Qc.
Definition Cmul (a b : complex) : complex :=
  mk_complex (re a * re b - im a * im b)%Qc (re a * im b + im a * re b)%Qc.
Definition C0 : complex := mk_complex 0%Qc 0%Qc.

(** [a + b], [a * b] and [a.real] on arrays. *)
Definition cadd (a b : ndarray complex) : ndarray complex := amap2 Cadd a b.
Definition cmul (a b : ndarray complex) : ndarray complex := amap2 Cmul a b.
Definition radd (a b : ndarray Qc) : ndarray Qc := amap2 Qcplus a b.
Definition real (a : ndarray complex) : ndarray Qc := amap re a.

(** [numpy.unique]: the sorted distinct values. *)
Fixpoint insert_unique (z : Z) (l : list Z) : list Z :=
  match l with
  | [] => [z]
  | x :: l' =>
      if z <? x then z :: l
      else if z =? x then l
      else x :: insert_unique z l'
  end.

Definition np_unique (l : list Z) : list Z := foldr insert_unique [] l.

(** [a[mask]] for a boolean mask over the first axis. *)
Definition mask_select {A} (mask : list bool) (l : list A) : list A :=
  snd <$> filter (fun bx => fst bx = true) (zip mask l).

(** [(atoms.positions[:, :2] / sampling).astype(xp.float32)] *)
Definition scaled_positions (atoms : list atom) (sampling : Qc * Qc)
  : list (Qc * Qc) :=
  (fun a => let '(x, y, _) := position a in
            ((x / fst sampling)%Qc, (y / snd sampling)%Qc)) <$> atoms.

(** The atoms of one species, and the density map [superpose_deltas] makes
    of points on an array of zeros. *)
Definition species (atoms : list atom) (z : Z) : list atom :=
  filter (fun a => number a = z) atoms.

Definition density (s0 s1 : Z) (ps : list (Qc * Qc)) : ndarray Qc :=
  match rbind (deposits_of s0 s1 ps None) (add_at (zeros s0 s1)) with
  | Ok a => a
  | Raise _ => zeros s0 s1
  end.

Definition shaped {A} (s0 s1 : Z) (a : ndarray A) : Prop :=
  wf a /\ shape0 a = s0 /\ shape1 a = s1.

Section Projections.

(** [abtem.core.fft.fft2] and [ifft2] are not part of the sources at hand:
    they are parameters of the development.  [fft2] is applied to the real
    density maps, [ifft2] to the Fourier-domain accumulator. *)
Variable fft2 : ndarray Qc -> ndarray complex.
Variable ifft2 : ndarray complex -> ndarray complex.

(** Modelled from the spec: [abtem.core.fft.fft2_convolve], which is not part
    of the sources at hand.  "Convolve in the Fourier domain with the species'
    precomputed projected scattering-factor kernel": transform, multiply by
    the kernel, transform back. *)
Definition fft2_convolve (x : ndarray Qc) (kernel : ndarray complex)
  : ndarray complex :=
  ifft2 (cmul (fft2 x) kernel).

Variable scattering_factors : gmap Z (ndarray complex).

(** [scattering_factors[number]] *)
Definition lookup_factor (n : Z) : M (ndarray complex) :=
  match scattering_factors !! n with
  | Some k => mret k
  | None => raise KeyError
  end.

(** The body of [for i, number in enumerate(unique)], on the species that
    are left; [array] is the Fourier-domain accumulator. *)
Fixpoint species_loop (atoms : list atom) (positions : list (Qc * Qc))
    (s0 s1 : Z) (slice_index : option (list Z))
    (i : nat) (unique : list Z) (array : ndarray complex)
  : M (ndarray complex) :=
  match unique with
  | [] => mret array
  | n :: rest =>
      temp ← alloc (zeros s0 s1);
      let mask := (fun a => bool_decide (number a = n)) <$> atoms in
      (if decide (0 < i)%nat then store temp (zeros s0 s1) else mret tt);;
      if negb (existsb id mask)
      then species_loop atoms positions s0 s1 slice_index (S i) rest array
      else
        let masked_slice_index := mask_select mask <$> slice_index in
        temp ← superpose_deltas (mask_select mask positions) temp
                                masked_slice_index None;
        t ← deref temp;
        k ← lookup_factor n;
        species_loop atoms positions s0 s1 slice_index (S i) rest
                     (cadd array (cmul (fft2 t) k))
  end.

(** [infinite_potential_projections(atoms, shape, sampling,
    scattering_factors, slice_index=None)], for a [shape] of three axes.
    The result is the list of its two-dimensional slices. *)
Definition infinite_potential_projections (atoms : list atom)
    (shape : Z * Z * Z) (sampling : Qc * Qc)
    (slice_index : option (list Z)) : M (list (ndarray Qc)) :=
  let '(n, s0, s1) := shape in
  if decide (scattering_factors = ∅) then raise IndexError
  else if decide (length atoms = 0%nat)
  then mret (replicate (Z.to_nat n) (zeros s0 s1))
  else
    let positions := scaled_positions atoms sampling in
    let unique := np_unique (number <$> atoms) in
    array ←
      (if decide (1 < length unique)%nat then
         array ← species_loop atoms positions s0 s1 slice_index 0 unique
                              (full s0 s1 C0);
         mret (real (ifft2 array))
       else
         array ← alloc (zeros s0 s1);
         superpose_deltas positions array slice_index None;;
         a ← deref array;
         match unique with
         | [] => raise IndexError
         | u :: _ =>
             k ← lookup_factor u;
             mret (real (fft2_convolve a k))
         end);
    mret [array].

(** The Fourier-domain term of one species: the transform of its density
    map times its kernel. *)
Definition species_term (atoms : list atom) (sampling : Qc * Qc)
    (s0 s1 : Z) (z : Z) : ndarray complex :=
  cmul (fft2 (density s0 s1 (scaled_positions (species atoms z) sampling)))
       (default (full s0 s1 C0) (scattering_factors !! z)).

(** The single-species path on the atoms of species [z]. *)
Definition single_species (atoms : list atom) (sampling : Qc * Qc)
    (s0 s1 : Z) (z : Z) : ndarray Qc :=
  real (ifft2 (species_term atoms sampling s0 s1 z)).

Definition factors_ok (atoms : list atom) (s0 s1 : Z) : Prop :=
  forall z, z ∈ number <$> atoms ->
    exists k, scattering_factors !! z = Some k /\ shaped s0 s1 k.

End Projections.

(** *** A concrete instance: the discrete Fourier transform of a 2 x 2 array

    On two points per axis the roots of unity are 1 and -1, so the
    transform is exact over the rationals. *)

Definition Cscale (s : Qc) (x : complex) : complex :=
  mk_complex (s * re x)%Qc (s * im x)%Qc.
Definition Csub (a b : complex) : complex :=
  mk_complex (re a - re b)%Qc (im a - im b)%Qc.

Definition dft_2x2 (s : Qc) (a : ndarray complex) : ndarray complex :=
  match data a with
  | [x00; x01; x10; x11] =>
      mk (shape0 a) (shape1 a)
         [ Cscale s (Cadd (Cadd x00 x01) (Cadd x10 x11));
           Cscale s (Cadd (Csub x00 x01) (Csub x10 x11));
           Cscale s (Csub (Cadd x00 x01) (Cadd x10 x11));
           Cscale s (Csub (Csub x00 x01) (Csub x10 x11)) ]
  | _ => a
  end.

Definition fft2_2x2 (a : ndarray Qc) : ndarray complex :=
  dft_2x2 1%Qc (amap (fun x => mk_complex x 0%Qc) a).
Definition ifft2_2x2 (a : ndarray complex) : ndarray complex :=
  dft_2x2 (Q2Qc (1 # 4)) a.

Definition example_atoms : list atom :=
  [ mk_atom (q 1 2, q 1 2, q 0 1) 6;
    mk_atom (q 1 1, q 5 4, q 1 1) 14;
    mk_atom (q 3 2, q 0 1, q 1 2) 6 ].

Definition example_factors : gmap Z (ndarray complex) :=
  {[ 6 := mk 2 2 ((fun x => mk_complex x 0%Qc) <$> [q 1 1; q 1 2; q 1 2; q 1 4]);
     14 := mk 2 2 ((fun x => mk_complex x 0%Qc) <$> [q 2 1; q 1 1; q 1 1; q 1 3]) ]}.

Definition example_heap : heap := {[ 1%positive := zeros 3 3 ]}.
Definition example_point : Qc * Qc := (q 5 2, q 1 4).
Definition example_node : Qc * Qc := (q 2 1, q 4 1).

(** *** Facts about [superpose_deltas] *)

Lemma Qcfloor_QcZ z : Qcfloor (QcZ z) = z.
Proof. unfold Qcfloor, QcZ, Qc_of_Z. simpl. apply Qfloor_Z. Qed.

Lemma int32_wrap_id z : in_int32 z -> int32_wrap z = z.
Proof. unfold in_int32, int32_wrap. intros H. rewrite Z.mod_small; lia. Qed.

Lemma int32_wrap_range z : in_int32 (int32_wrap z).
Proof.
  unfold in_int32, int32_wrap.
  pose proof (Z.mod_pos_bound (z + 2 ^ 31) (2 ^ 32) ltac:(lia)). lia.
Qed.

Lemma np_mod_bound a n : 0 < n -> 0 <= np_mod a n < n.
Proof.
  intros Hn. unfold np_mod. destruct (Z.eqb_spec n 0); [lia|].
  apply Z.mod_pos_bound; lia.
Qed.

Lemma np_mod_small a n : 0 <= a < n -> np_mod a n = a.
Proof.
  intros H. unfold np_mod. destruct (Z.eqb_spec n 0); [lia|].
  apply Z.mod_small; lia.
Qed.

Lemma normalize_index_in n i : 0 <= i < n -> normalize_index n i = Ok i.
Proof.
  intros [H1 H2]. unfold normalize_index.
  destruct (Z.leb_spec 0 i); [|lia]. destruct (Z.ltb_spec i n); [|lia]. done.
Qed.

Lemma flat_index_in {A} (a : ndarray A) i j :
  in_bounds a i j -> flat_index a i j = Ok (flat a i j).
Proof.
  intros [Hi Hj]. unfold flat_index.
  rewrite !normalize_index_in by done. done.
Qed.

Lemma flat_lt {A} (a : ndarray A) i j :
  wf a -> in_bounds a i j -> (flat a i j < length (data a))%nat.
Proof.
  intros (H0 & H1 & Hlen) [Hi Hj]. unfold flat.
  apply Nat2Z.inj_lt. rewrite Hlen, Z2Nat.id by nia. nia.
Qed.

Lemma flat_inj {A} (a : ndarray A) i j i' j' :
  in_bounds a i j -> in_bounds a i' j' ->
  flat a i j = flat a i' j' -> i = i' /\ j = j'.
Proof.
  intros [Hi Hj] [Hi' Hj']. unfold flat. intros H.
  apply Z2Nat.inj in H; [|nia|nia].
  assert (i = i') as -> by (destruct (Z.lt_trichotomy i i') as [?|[?|?]]; [nia|done|nia]).
  lia.
Qed.

Lemma get_in {A} (a : ndarray A) i j :
  in_bounds a i j -> get a i j = data a !! flat a i j.
Proof. intros H. unfold get. by rewrite flat_index_in. Qed.

Lemma zip_deposits_4 i0 i1 i2 i3 j0 j1 j2 j3 v0 v1 v2 v3 :
  length i0 = length j0 -> length i0 = length v0 ->
  length i1 = length j1 -> length i1 = length v1 ->
  length i2 = length j2 -> length i2 = length v2 ->
  zip_deposits [i0; i1; i2; i3] [j0; j1; j2; j3] [v0; v1; v2; v3] =
  dep3 i0 j0 v0 ++ dep3 i1 j1 v1 ++ dep3 i2 j2 v2 ++ dep3 i3 j3 v3.
Proof.
  intros. unfold zip_deposits, dep3. cbn [concat]. rewrite !app_nil_r.
  repeat (rewrite zip_with_app; [|first [done | rewrite length_zip_with; lia]]).
  done.
Qed.

Lemma cells_dep3 i j v :
  length i = length j -> length i = length v ->
  cell_of <$> dep3 i j v = zip i j.
Proof.
  revert j v. induction i as [|a i IH]; intros [|b j] [|c v]; simpl; try done.
  intros ? ?. f_equal. apply IH; lia.
Qed.

Lemma values_dep3 i j v :
  length i = length j -> length i = length v ->
  dep_v <$> dep3 i j v = v.
Proof.
  revert j v. induction i as [|a i IH]; intros [|b j] [|c v]; simpl; try done.
  intros ? ?. f_equal. apply IH; lia.
Qed.

Lemma rows_of_length ps : length (rows_of ps) = length ps.
Proof. unfold rows_of. by rewrite length_fmap. Qed.
Lemma cols_of_length ps : length (cols_of ps) = length ps.
Proof. unfold cols_of. by rewrite length_fmap. Qed.
Lemma x_of_fmap ps : x_of ps = frac_x <$> ps.
Proof. unfold x_of, rows_of. induction ps; simpl; [done|]. by f_equal. Qed.
Lemma y_of_fmap ps : y_of ps = frac_y <$> ps.
Proof. unfold y_of, cols_of. induction ps; simpl; [done|]. by f_equal. Qed.

Lemma zip_fmap_rows_cols (g h : Z -> Z) ps :
  zip (g <$> rows_of ps) (h <$> cols_of ps) =
  (fun p => (g (row_of p), h (col_of p))) <$> ps.
Proof. unfold rows_of, cols_of. induction ps; simpl; [done|]. by f_equal. Qed.

Lemma dep3_fmap (g h : Z -> Z) (f : Qc -> Qc -> Qc) ps :
  dep3 (g <$> rows_of ps) (h <$> cols_of ps)
       (zip_with f (frac_x <$> ps) (frac_y <$> ps)) =
  (fun p => mk_deposit (g (row_of p)) (h (col_of p)) (f (frac_x p) (frac_y p)))
    <$> ps.
Proof. unfold dep3, rows_of, cols_of. induction ps; simpl; [done|]. by f_equal. Qed.

Lemma deposits_of_None s0 s1 ps :
  deposits_of s0 s1 ps None =
  Ok ((corner false false s0 s1 <$> ps) ++ (corner true false s0 s1 <$> ps) ++
      (corner false true s0 s1 <$> ps) ++ (corner true true s0 s1 <$> ps)).
Proof.
  unfold deposits_of, apply_weights, index_i, index_j, values. simpl.
  rewrite zip_deposits_4;
    rewrite ?length_fmap, ?length_zip_with, ?x_of_fmap, ?y_of_fmap,
            ?length_fmap, ?rows_of_length, ?cols_of_length; try lia.
  by rewrite !dep3_fmap.
Qed.

Lemma Qcsum_app l1 l2 : Qcsum (l1 ++ l2) = (Qcsum l1 + Qcsum l2)%Qc.
Proof. unfold Qcsum. induction l1; simpl; [by rewrite Qcplus_0_l|]. rewrite IHl1. ring. Qed.

Lemma Qcsum_cons x l : Qcsum (x :: l) = (x + Qcsum l)%Qc.
Proof. done. Qed.

Lemma Qcsum_alter (v : Qc) k l :
  (k < length l)%nat ->
  Qcsum (alter (fun old => (old + v)%Qc) k l) = (Qcsum l + v)%Qc.
Proof.
  unfold Qcsum.
  revert k. induction l as [|x l IH]; intros [|k] Hk; simpl in *; try lia.
  - ring.
  - specialize (IH k ltac:(lia)). unfold alter in IH. rewrite IH. ring.
Qed.

Lemma add_all_shape a ks :
  shape0 (add_all a ks) = shape0 a /\ shape1 (add_all a ks) = shape1 a /\
  length (data (add_all a ks)) = length (data a).
Proof.
  revert a. induction ks as [|kv ks IH]; intros a; [done|].
  unfold add_all in *. simpl. destruct (IH (add_one a kv.1 kv.2)) as (-> & -> & ->).
  simpl. by rewrite length_alter.
Qed.

Lemma add_all_lookup a ks k :
  data (add_all a ks) !! k =
  (fun old => (old + added_at k ks)%Qc) <$> data a !! k.
Proof.
  revert a. induction ks as [|[k' v] ks IH]; intros a.
  - unfold added_at. simpl. destruct (data a !! k); simpl; [|done]. by rewrite Qcplus_0_r.
  - unfold add_all in *. cbn [foldl]. rewrite IH. unfold added_at.
    rewrite filter_cons. cbn [fst snd add_one data].
    destruct (decide (k' = k)) as [->|Hne].
    + rewrite list_lookup_alter_eq, fmap_cons, Qcsum_cons. cbn [snd].
      destruct (data a !! k); simpl; [|done].
      f_equal. apply eq_sym, Qcplus_assoc.
    + by rewrite list_lookup_alter_ne.
Qed.

Lemma add_all_total a ks :
  Forall (fun kv => (fst kv < length (data a))%nat) ks ->
  total (add_all a ks) = (total a + Qcsum (snd <$> ks))%Qc.
Proof.
  revert a. induction ks as [|[k v] ks IH]; intros a Hks.
  - unfold total. simpl. ring.
  - inversion Hks as [|? ? Hk Hks']; subst. unfold add_all in *.
    cbn [foldl fst snd] in *. rewrite IH.
    + unfold total. cbn [add_one data].
      rewrite Qcsum_alter, fmap_cons, Qcsum_cons by done.
      apply eq_sym, Qcplus_assoc.
    + cbn [add_one data]. by rewrite length_alter.
Qed.

Lemma check_indices_in a ds :
  Forall (fun d => in_bounds a (dep_i d) (dep_j d)) ds ->
  check_indices a ds =
  Ok ((fun d => (flat a (dep_i d) (dep_j d), dep_v d)) <$> ds).
Proof.
  induction 1 as [|d ds Hd _ IH]; simpl; [done|].
  by rewrite flat_index_in, IH.
Qed.

Lemma add_at_in a ds :
  Forall (fun d => in_bounds a (dep_i d) (dep_j d)) ds ->
  add_at a ds =
  Ok (add_all a ((fun d => (flat a (dep_i d) (dep_j d), dep_v d)) <$> ds)).
Proof. intros H. unfold add_at. by rewrite check_indices_in. Qed.

Lemma flat_index_Raise {A} (a : ndarray A) i j e :
  flat_index a i j = Raise e -> e = IndexError.
Proof.
  unfold flat_index, normalize_index.
  repeat (case_match; simpl; try congruence).
Qed.

Lemma check_indices_Raise a ds e :
  check_indices a ds = Raise e -> e = IndexError.
Proof.
  induction ds as [|d ds IH]; simpl; [done|].
  destruct (flat_index a (dep_i d) (dep_j d)) eqn:F; simpl.
  - destruct (check_indices a ds); simpl; [done|].
    intros [= <-]. by apply IH.
  - intros [= <-]. by apply flat_index_Raise in F.
Qed.

(** Any failure of [add_at] is an [IndexError], raised by the check. *)
Lemma add_at_Raise a ds e : add_at a ds = Raise e -> e = IndexError.
Proof.
  unfold add_at. destruct (check_indices a ds) as [ks|e'] eqn:E; simpl; [done|].
  intros [= <-]. by apply check_indices_Raise in E.
Qed.

Lemma apply_weights_rows n v0 v1 v2 v3 w v' :
  apply_weights n [v0; v1; v2; v3] w = Ok v' ->
  length v0 = n -> length v1 = n -> length v2 = n -> length v3 = n ->
  exists u0 u1 u2 u3,
    v' = [u0; u1; u2; u3] /\
    length u0 = n /\ length u1 = n /\ length u2 = n /\ length u3 = n.
Proof.
  intros Hw H0 H1 H2 H3. destruct w as [w|]; simpl in Hw.
  - destruct (decide (length w = n)) as [Hn|Hn].
    + injection Hw as <-. do 4 eexists. split; [done|].
      rewrite !length_zip_with. lia.
    + destruct w as [|w0 [|? ?]]; try done. injection Hw as <-.
      do 4 eexists. split; [done|]. by rewrite !length_fmap.
  - injection Hw as <-. by do 4 eexists.
Qed.

(** The cells written by [superpose_deltas], whatever the weights. *)
Lemma deposits_of_cells s0 s1 ps w ds :
  deposits_of s0 s1 ps w = Ok ds ->
  cell_of <$> ds =
  ((fun p => cell_of (corner false false s0 s1 p)) <$> ps) ++
  ((fun p => cell_of (corner true false s0 s1 p)) <$> ps) ++
  ((fun p => cell_of (corner false true s0 s1 p)) <$> ps) ++
  ((fun p => cell_of (corner true true s0 s1 p)) <$> ps).
Proof.
  unfold deposits_of, values.
  destruct (apply_weights _ _ w) as [v'|] eqn:Hw; simpl; [|done].
  intros [= <-].
  apply apply_weights_rows in Hw as (u0 & u1 & u2 & u3 & -> & L0 & L1 & L2 & L3);
    rewrite ?length_zip_with, ?x_of_fmap, ?y_of_fmap, ?length_fmap; try lia.
  unfold index_i, index_j. cbn [app].
  rewrite zip_deposits_4;
    rewrite ?length_fmap, ?rows_of_length, ?cols_of_length; try lia.
  rewrite !fmap_app.
  rewrite !cells_dep3;
    rewrite ?length_fmap, ?rows_of_length, ?cols_of_length; try lia.
  by rewrite !zip_fmap_rows_cols.
Qed.

Lemma deposits_of_neighbor s0 s1 ps w ds d :
  deposits_of s0 s1 ps w = Ok ds -> d ∈ ds ->
  exists p, p ∈ ps /\ cell_of d ∈ neighbor_cells s0 s1 p.
Proof.
  intros Hds Hd. apply deposits_of_cells in Hds.
  assert (cell_of d ∈ cell_of <$> ds) as Hc by (by apply list_elem_of_fmap_2).
  rewrite Hds in Hc. unfold neighbor_cells, corners.
  rewrite !elem_of_app, !list_elem_of_fmap in Hc.
  destruct Hc as [(p & -> & Hp)|[(p & -> & Hp)|[(p & -> & Hp)|(p & -> & Hp)]]];
    exists p; (split; [done|]); rewrite !fmap_cons; set_solver.
Qed.

Lemma neighbor_cells_in_bounds {A} (a : ndarray A) p c :
  0 < shape0 a -> 0 < shape1 a ->
  c ∈ neighbor_cells (shape0 a) (shape1 a) p -> in_bounds a (fst c) (snd c).
Proof.
  intros H0 H1. unfold neighbor_cells, corners, corner, cell_of.
  rewrite !fmap_cons, fmap_nil, !elem_of_cons, elem_of_nil.
  intros [->|[->|[->|[->|[]]]]]; split; simpl; by apply np_mod_bound.
Qed.

Lemma deposits_of_in_bounds (a : ndarray Qc) ps w ds :
  0 < shape0 a -> 0 < shape1 a ->
  deposits_of (shape0 a) (shape1 a) ps w = Ok ds ->
  Forall (fun d => in_bounds a (dep_i d) (dep_j d)) ds.
Proof.
  intros H0 H1 Hds. apply Forall_forall. intros d Hd.
  destruct (deposits_of_neighbor _ _ _ _ _ _ Hds Hd) as (p & _ & Hc).
  by apply (neighbor_cells_in_bounds a p (cell_of d)).
Qed.

(** The run of [superpose_deltas] on an array with a positive extent on both
    axes: no exception, the result is the reference it was given, and the
    store holds the array with every deposit added. *)
Lemma superpose_deltas_run ps l w h a ds :
  h !! l = Some a -> 0 < shape0 a -> 0 < shape1 a ->
  deposits_of (shape0 a) (shape1 a) ps w = Ok ds ->
  superpose_deltas ps l None w h =
  (Ok l, <[l := add_all a (flat_deposits a ds)]> h).
Proof.
  intros Hl H0 H1 Hds.
  unfold superpose_deltas, mbind, M_bind, bind, deref. rewrite Hl, Hds.
  cbn [rbind]. rewrite add_at_in by by eapply deposits_of_in_bounds.
  done.
Qed.

Lemma bilinear_weight_sum x y :
  (bilinear_weight false false x y + bilinear_weight true false x y +
   bilinear_weight false true x y + bilinear_weight true true x y = 1)%Qc.
Proof. unfold bilinear_weight. ring. Qed.

Lemma Qcsum_corners s0 s1 ps :
  (Qcsum (dep_v <$> (corner false false s0 s1 <$> ps)) +
   Qcsum (dep_v <$> (corner true false s0 s1 <$> ps)) +
   Qcsum (dep_v <$> (corner false true s0 s1 <$> ps)) +
   Qcsum (dep_v <$> (corner true true s0 s1 <$> ps)))%Qc =
  QcZ (Z.of_nat (length ps)).
Proof.
  induction ps as [|p ps IH].
  - cbn. apply Qc_is_canon. reflexivity.
  - rewrite !fmap_cons, !Qcsum_cons. cbn [length corner dep_v].
    rewrite Nat2Z.inj_succ.
    replace (QcZ (Z.succ (Z.of_nat (length ps))))
      with (1 + QcZ (Z.of_nat (length ps)))%Qc.
    + rewrite <- IH, <- (bilinear_weight_sum (frac_x p) (frac_y p)). ring.
    + apply Qc_is_canon. unfold QcZ, Qc_of_Z. simpl.
      rewrite Qred_correct. unfold Qeq, Qplus. simpl. lia.
Qed.

Lemma Qcminus_0_eq (a b : Qc) : (a - b)%Qc = 0%Qc -> a = b.
Proof.
  intros H. replace a with ((a - b) + b)%Qc by ring. rewrite H. ring.
Qed.

Lemma x_of_one p : x_of [p] = [frac_x p].
Proof. done. Qed.
Lemma y_of_one p : y_of [p] = [frac_y p].
Proof. done. Qed.

Lemma get_add_all a ks i j :
  in_bounds a i j ->
  get (add_all a ks) i j =
  (fun old => (old + added_at (flat a i j) ks)%Qc) <$> get a i j.
Proof.
  intros Hb. destruct (add_all_shape a ks) as (E0 & E1 & _).
  rewrite !get_in; [|done|by unfold in_bounds; rewrite E0, E1].
  unfold flat. rewrite E1. apply add_all_lookup.
Qed.

Lemma added_at_zero k ks :
  Forall (fun kv => fst kv = k -> snd kv = 0%Qc) ks -> added_at k ks = 0%Qc.
Proof.
  unfold added_at. induction 1 as [|[k' v] ks Hk _ IH]; [done|].
  rewrite filter_cons. cbn [fst snd] in *. destruct (decide (k' = k)) as [E|E].
  - rewrite fmap_cons, Qcsum_cons, IH. cbn [snd]. rewrite (Hk E). ring.
  - done.
Qed.

Lemma added_at_cons k k' v ks :
  added_at k ((k', v) :: ks) =
  ((if decide (k' = k) then v else 0) + added_at k ks)%Qc.
Proof.
  unfold added_at. rewrite filter_cons. cbn [fst].
  destruct (decide (k' = k)); [done|]. by rewrite Qcplus_0_l.
Qed.


Lemma add_all_frame ps w (a : ndarray Qc) ds :
  0 < shape0 a -> 0 < shape1 a ->
  deposits_of (shape0 a) (shape1 a) ps w = Ok ds ->
  forall i j, in_bounds a i j ->
    (forall p, p ∈ ps -> (i, j) ∉ neighbor_cells (shape0 a) (shape1 a) p) ->
    get (add_all a (flat_deposits a ds)) i j = get a i j.
Proof.
  intros H0 H1 Hds i j Hb Hout. rewrite get_add_all by done.
  rewrite added_at_zero.
  - destruct (get a i j); simpl; [|done]. by rewrite Qcplus_0_r.
  - unfold flat_deposits. apply Forall_fmap, Forall_forall. intros d Hd E.
    cbn [fst snd] in *. exfalso.
    destruct (deposits_of_neighbor _ _ _ _ _ _ Hds Hd) as (p & Hp & Hc).
    apply flat_inj in E as [E1 E2]; [|by eapply (neighbor_cells_in_bounds a p (cell_of d))|done].
    apply (Hout p Hp). unfold cell_of in Hc. by rewrite <- E1, <- E2.
Qed.


Lemma this_Qcminus (a b : Qc) : (this (a - b)%Qc == this a - this b)%Q.
Proof. unfold Qcminus, Qcplus, Qcopp. simpl. rewrite !Qred_correct. reflexivity. Qed.

Lemma Qcfloor_minus_half z : Qcfloor (QcZ z - half) = z - 1.
Proof.
  unfold Qcfloor. rewrite this_Qcminus. unfold half, QcZ, Qc_of_Z. simpl.
  unfold Qminus, Qplus, Qopp, inject_Z, Qfloor. simpl.
  change (Z.pos (1 * 2)) with 2. symmetry. apply Z.div_unique with (r := 1); lia.
Qed.

Lemma frac_x_minus_half z c :
  0 < z <= 2 ^ 31 -> frac_x ((QcZ z - half)%Qc, c) = half.
Proof.
  intros Hz. unfold frac_x, row_of, astype_int32. cbn [fst].
  rewrite Qcfloor_minus_half, int32_wrap_id by (unfold in_int32; lia).
  apply Qc_is_canon. rewrite !this_Qcminus. unfold half, QcZ, Qc_of_Z. simpl.
  unfold Qeq, Qminus, Qplus, Qopp, inject_Z. simpl. lia.
Qed.


Lemma example_wf : wf (zeros 3 3).
Proof. unfold wf. simpl. lia. Qed.




(** *** Facts about [infinite_potential_projections] *)

Lemma elem_of_insert_unique z x l : x ∈ insert_unique z l <-> x = z \/ x ∈ l.
Proof.
  induction l as [|y l IH]; simpl.
  - set_solver.
  - destruct (Z.ltb_spec z y); [set_solver|].
    destruct (Z.eqb_spec z y) as [->|]; [set_solver|].
    rewrite !elem_of_cons, IH. tauto.
Qed.

Lemma elem_of_np_unique x l : x ∈ np_unique l <-> x ∈ l.
Proof.
  unfold np_unique. induction l as [|y l IH]; simpl; [done|].
  rewrite elem_of_insert_unique, IH. set_solver.
Qed.

Lemma np_unique_const n l :
  l <> [] -> Forall (fun x => x = n) l -> np_unique l = [n].
Proof.
  unfold np_unique. induction l as [|y l IH]; [done|].
  intros _ Hl. inversion Hl as [|? ? -> Hl']; subst. simpl.
  destruct l as [|y' l']; [done|].
  rewrite IH by done. simpl. rewrite Z.ltb_irrefl, Z.eqb_refl. done.
Qed.

Lemma mask_select_fmap {A B} (f : A -> bool) (g : A -> B) (l : list A) :
  mask_select (f <$> l) (g <$> l) = g <$> filter (fun a => f a = true) l.
Proof.
  unfold mask_select. induction l as [|a l IH]; [done|].
  cbn [fmap list_fmap zip_with]. rewrite !filter_cons. cbn [fst].
  destruct (decide (f a = true)); [|done].
  cbn [fmap list_fmap snd]. by f_equal.
Qed.

Lemma existsb_mask (n : Z) (atoms : list atom) :
  n ∈ number <$> atoms ->
  existsb id ((fun a => bool_decide (number a = n)) <$> atoms) = true.
Proof.
  intros (a & -> & Ha)%list_elem_of_fmap.
  apply existsb_exists. exists true. split; [|done].
  apply list_elem_of_In, list_elem_of_fmap. exists a.
  by rewrite bool_decide_eq_true_2.
Qed.

Lemma species_mask atoms sampling n :
  mask_select ((fun a => bool_decide (number a = n)) <$> atoms)
              (scaled_positions atoms sampling) =
  scaled_positions (species atoms n) sampling.
Proof.
  unfold scaled_positions, species. rewrite mask_select_fmap.
  f_equal. apply list_filter_iff. intros a.
  by rewrite bool_decide_eq_true.
Qed.

Lemma zeros_wf s0 s1 : 0 <= s0 -> 0 <= s1 -> wf (zeros s0 s1).
Proof.
  intros H0 H1. unfold wf, zeros, full. simpl.
  rewrite length_replicate. rewrite Z2Nat.id by nia. lia.
Qed.

Lemma density_run s0 s1 ps (l : loc) (h : heap) :
  0 < s0 -> 0 < s1 -> h !! l = Some (zeros s0 s1) ->
  superpose_deltas ps l None None h = (Ok l, <[l := density s0 s1 ps]> h).
Proof.
  intros H0 H1 Hl.
  pose proof (deposits_of_None s0 s1 ps) as Hds.
  erewrite superpose_deltas_run by eauto. unfold density.
  rewrite Hds. cbn [rbind].
  rewrite add_at_in; [done|].
  by eapply (deposits_of_in_bounds (zeros s0 s1)).
Qed.

Lemma density_wf s0 s1 ps :
  0 <= s0 -> 0 <= s1 ->
  wf (density s0 s1 ps) /\ shape0 (density s0 s1 ps) = s0 /\
  shape1 (density s0 s1 ps) = s1.
Proof.
  intros H0 H1. unfold density.
  destruct (deposits_of s0 s1 ps None) as [ds|]; cbn [rbind];
    [|by split; [apply zeros_wf|]].
  unfold add_at. destruct (check_indices _ ds) as [ks|]; cbn [rbind];
    [|by split; [apply zeros_wf|]].
  fold (add_all (zeros s0 s1) ks).
  destruct (add_all_shape (zeros s0 s1) ks) as (E0 & E1 & E2).
  pose proof (zeros_wf s0 s1 H0 H1) as (? & ? & ?).
  unfold wf. rewrite E0, E1, E2. done.
Qed.

Lemma Cadd_0_l x : Cadd C0 x = x.
Proof. destruct x. unfold Cadd, C0. simpl. by rewrite !Qcplus_0_l. Qed.

Lemma cadd_zeros_l (T : ndarray complex) :
  wf T -> cadd (full (shape0 T) (shape1 T) C0) T = T.
Proof.
  intros (H0 & H1 & Hlen). destruct T as [s0 s1 d]. simpl in *.
  unfold cadd, amap2, full. simpl. f_equal.
  rewrite <- Hlen, Nat2Z.id. clear. induction d as [|x d IH]; [done|].
  simpl. by rewrite Cadd_0_l, IH.
Qed.

Lemma real_cadd a b : real (cadd a b) = radd (real a) (real b).
Proof.
  unfold real, cadd, radd, amap, amap2. simpl. f_equal.
  generalize (data b). induction (data a) as [|x d IH]; intros [|y d']; try done.
  simpl. by rewrite IH.
Qed.

Lemma amap2_shaped {A B C} (f : A -> B -> C) s0 s1 a b :
  shaped s0 s1 a -> shaped s0 s1 b -> shaped s0 s1 (amap2 f a b).
Proof.
  intros ((? & ? & La) & E0 & E1) ((? & ? & Lb) & F0 & F1).
  unfold shaped, wf, amap2. simpl. rewrite length_zip_with.
  repeat split; try done. lia.
Qed.

Section Projections_facts.

Context (fft2 : ndarray Qc -> ndarray complex)
        (ifft2 : ndarray complex -> ndarray complex)
        (scattering_factors : gmap Z (ndarray complex))
        (s0 s1 : Z).

(** What the development assumes of the transforms: the forward transform
    keeps the shape, the inverse transform is additive on arrays of one
    shape. *)
Hypothesis fft2_shaped :
  forall a : ndarray Qc, shaped s0 s1 a -> shaped s0 s1 (fft2 a).
Hypothesis ifft2_cadd :
  forall a b : ndarray complex,
    shaped s0 s1 a -> shaped s0 s1 b ->
    ifft2 (cadd a b) = cadd (ifft2 a) (ifft2 b).

Lemma species_term_shaped atoms sampling z :
  0 < s0 -> 0 < s1 -> factors_ok scattering_factors atoms s0 s1 ->
  z ∈ number <$> atoms ->
  shaped s0 s1 (species_term fft2 scattering_factors atoms sampling s0 s1 z).
Proof.
  intros H0 H1 Hf Hz. destruct (Hf z Hz) as (k & Hk & Hs).
  unfold species_term. rewrite Hk. cbn [default].
  apply amap2_shaped; [|done]. apply fft2_shaped.
  apply density_wf; lia.
Qed.

Lemma species_loop_run atoms sampling unique :
  0 < s0 -> 0 < s1 -> factors_ok scattering_factors atoms s0 s1 ->
  Forall (fun z => z ∈ number <$> atoms) unique ->
  forall i acc (h : heap),
  exists h',
    species_loop fft2 scattering_factors atoms
                 (scaled_positions atoms sampling) s0 s1 None i unique acc h =
    (Ok (foldl cadd acc
           (species_term fft2 scattering_factors atoms sampling s0 s1
              <$> unique)), h').
Proof.
  intros H0 H1 Hf. induction 1 as [|z unique Hz _ IH]; intros i acc h.
  - by eexists.
  - cbn [species_loop fmap list_fmap foldl].
    unfold mbind at 1, M_bind at 1, bind at 1, alloc at 1.
    set (l := fresh (dom h)).
    assert (h !! l = None) as Hfresh.
    { apply not_elem_of_dom. apply is_fresh. }
    set (h1 := <[l := zeros s0 s1]> h).
    assert (exists h2, (if decide (0 < i)%nat then store l (zeros s0 s1)
                        else mret tt) h1 = (Ok tt, h2) /\
                       h2 !! l = Some (zeros s0 s1)) as (h2 & E2 & Hl2).
    { destruct (decide (0 < i)%nat).
      - eexists. split; [done|]. apply lookup_insert_eq.
      - exists h1. split; [done|]. apply lookup_insert_eq. }
    unfold mbind at 1, M_bind at 1, bind at 1. rewrite E2.
    rewrite existsb_mask by done. cbn [negb].
    unfold mbind at 1, M_bind at 1, bind at 1. cbn [fmap option_fmap option_map].
    rewrite species_mask, (density_run _ _ _ _ _ H0 H1 Hl2).
    unfold mbind at 1, M_bind at 1, bind at 1, deref at 1.
    rewrite lookup_insert_eq.
    unfold mbind at 1, M_bind at 1, bind at 1, lookup_factor at 1.
    destruct (Hf z Hz) as (k & Hk & Hs). rewrite Hk.
    cbn [mret M_ret ret].
    destruct (IH (S i) (cadd acc
      (cmul (fft2 (density s0 s1 (scaled_positions (species atoms z) sampling))) k))
      (<[l:=density s0 s1 (scaled_positions (species atoms z) sampling)]> h2))
      as (h' & ->).
    exists h'. unfold species_term at 2. by rewrite Hk.
Qed.

Lemma real_ifft2_foldl T1 Ts :
  shaped s0 s1 T1 -> Forall (shaped s0 s1) Ts ->
  real (ifft2 (foldl cadd T1 Ts)) =
  foldl radd (real (ifft2 T1)) ((fun T => real (ifft2 T)) <$> Ts).
Proof.
  intros H1 HTs. revert T1 H1.
  induction HTs as [|T Ts HT _ IH]; intros T1 H1; [done|].
  cbn [foldl fmap list_fmap].
  rewrite IH by by apply amap2_shaped.
  by rewrite ifft2_cadd, real_cadd.
Qed.

Lemma factors_nonempty atoms :
  atoms <> [] -> factors_ok scattering_factors atoms s0 s1 ->
  scattering_factors <> ∅.
Proof.
  destruct atoms as [|a atoms]; [done|]. intros _ Hf.
  destruct (Hf (number a)) as (k & Hk & _); [set_solver|].
  intros ->. by rewrite lookup_empty in Hk.
Qed.

(** The single-species path. *)
Lemma single_species_run atoms n sampling z (h : heap) :
  0 < s0 -> 0 < s1 -> factors_ok scattering_factors atoms s0 s1 ->
  z ∈ number <$> atoms ->
  fst (infinite_potential_projections fft2 ifft2 scattering_factors
         (species atoms z) (n, s0, s1) sampling None h) =
  Ok [single_species fft2 ifft2 scattering_factors atoms sampling s0 s1 z].
Proof.
  intros H0 H1 Hf Hz. destruct (Hf z Hz) as (k & Hk & Hs).
  assert (species atoms z <> []) as Hne.
  { apply list_elem_of_fmap in Hz as (a & -> & Ha).
    intros E. assert (a ∈ species atoms (number a)) as Hin
      by (by apply list_elem_of_filter).
    rewrite E in Hin. by apply elem_of_nil in Hin. }
  assert (np_unique (number <$> species atoms z) = [z]) as Hu.
  { apply np_unique_const.
    - intros E. by apply fmap_nil_inv in E.
    - apply Forall_fmap, Forall_forall. intros a Ha.
      by apply list_elem_of_filter in Ha as [? _]. }
  unfold infinite_potential_projections.
  rewrite decide_False.
  2:{ intros E. rewrite E in Hk. by rewrite lookup_empty in Hk. }
  rewrite decide_False by (by destruct (species atoms z)).
  rewrite Hu. cbn [length]. rewrite decide_False by lia.
  unfold mbind at 1, M_bind at 1, bind at 1.
  unfold mbind at 1, M_bind at 1, bind at 1, alloc at 1.
  unfold mbind at 1, M_bind at 1, bind at 1.
  rewrite (density_run s0 s1 _ _ _ H0 H1 (lookup_insert_eq _ _ _)).
  unfold mbind at 1, M_bind at 1, bind at 1, deref at 1.
  rewrite lookup_insert_eq.
  unfold mbind at 1, M_bind at 1, bind at 1, lookup_factor at 1.
  rewrite Hk. cbn.
  unfold single_species, species_term, fft2_convolve. by rewrite Hk.
Qed.

(** C3 (multi-species projection equivalence).  For atoms of more than one
    atomic number, [infinite_potential_projections] returns the real part of
    one inverse transform of the Fourier-domain accumulator, which is the sum
    over the species of the transform of the species' density map times the
    species' kernel; the single-species path on the atoms of one species
    returns that species' density map convolved with its kernel; and the
    multi-species result is the sum over the species of the single-species
    results.  The transforms are parameters: the forward transform keeps the
    shape and the inverse transform is additive. *)
Theorem multi_species_projection_equivalence
    (atoms : list atom) (n : Z) (sampling : Qc * Qc) (h : heap) :
  (1 < length (np_unique (number <$> atoms)))%nat ->
  0 < s0 -> 0 < s1 -> factors_ok scattering_factors atoms s0 s1 ->
  let unique := np_unique (number <$> atoms) in
  let projections :=
    infinite_potential_projections fft2 ifft2 scattering_factors in
  let term := species_term fft2 scattering_factors atoms sampling s0 s1 in
  let single :=
    single_species fft2 ifft2 scattering_factors atoms sampling s0 s1 in
  fst (projections atoms (n, s0, s1) sampling None h) =
    Ok [real (ifft2 (foldl cadd (full s0 s1 C0) (term <$> unique)))] /\
  (forall z, z ∈ unique ->
     forall h0 : heap,
       fst (projections (species atoms z) (n, s0, s1) sampling None h0) =
       Ok [single z]) /\
  exists z1 zs,
    unique = z1 :: zs /\
    fst (projections atoms (n, s0, s1) sampling None h) =
      Ok [foldl radd (single z1) (single <$> zs)].
Proof.
  intros Hlen H0 H1 Hf unique projections term single.
  subst term single.
  assert (Forall (fun z => z ∈ number <$> atoms) unique) as Hu.
  { apply Forall_forall. intros z Hz. by apply elem_of_np_unique. }
  assert (atoms <> []) as Hne by (intros ->; cbn in Hlen; lia).
  assert (fst (projections atoms (n, s0, s1) sampling None h) =
    Ok [real (ifft2 (foldl cadd (full s0 s1 C0)
          (species_term fft2 scattering_factors atoms sampling s0 s1
             <$> unique)))])
    as Hmulti.
  { unfold projections, infinite_potential_projections.
    rewrite decide_False by by eapply factors_nonempty.
    rewrite decide_False by (by destruct atoms).
    fold unique. rewrite decide_True by done.
    destruct (species_loop_run atoms sampling unique H0 H1 Hf Hu
                0%nat (full s0 s1 C0) h) as (h' & E).
    unfold mbind at 1, M_bind at 1, bind at 1.
    unfold mbind at 1, M_bind at 1, bind at 1. by rewrite E. }
  split; [done|]. split.
  - intros z Hz h0. apply single_species_run; try done.
    by eapply Forall_forall in Hu.
  - fold unique in Hlen. clearbody unique projections.
    destruct unique as [|z1 zs] eqn:Eu; [cbn in Hlen; lia|].
    exists z1, zs. split; [done|]. rewrite Hmulti. do 2 f_equal.
    inversion Hu as [|? ? Hz1 Hzs]; subst.
    cbn [fmap list_fmap foldl].
    pose proof (species_term_shaped atoms sampling z1 H0 H1 Hf Hz1)
      as Hs1.
    destruct Hs1 as (Hwf & E0 & E1).
    set (T1 := species_term fft2 scattering_factors atoms sampling s0 s1 z1) in *.
    replace (full s0 s1 C0) with (full (shape0 T1) (shape1 T1) C0)
      by (by rewrite E0, E1).
    rewrite cadd_zeros_l by done.
    rewrite real_ifft2_foldl; [|done|].
    + by rewrite <- list_fmap_compose.
    + apply Forall_fmap. eapply Forall_impl; [exact Hzs|].
      intros z Hz. by apply species_term_shaped.
Qed.

End Projections_facts.

Lemma shaped_2x2 {A} (a : ndarray A) :
  shaped 2 2 a ->
  exists x00 x01 x10 x11, a = mk 2 2 [x00; x01; x10; x11].
Proof.
  intros ((_ & _ & Hlen) & E0 & E1). destruct a as [s0 s1 d].
  simpl in *. subst. destruct d as [|x00 [|x01 [|x10 [|x11 [|? ?]]]]];
    simpl in Hlen; try lia.
  by exists x00, x01, x10, x11.
Qed.

Lemma fft2_2x2_shaped (a : ndarray Qc) : shaped 2 2 a -> shaped 2 2 (fft2_2x2 a).
Proof.
  intros (x00 & x01 & x10 & x11 & ->)%shaped_2x2.
  unfold fft2_2x2, dft_2x2, shaped, wf. simpl. lia.
Qed.

Lemma ifft2_2x2_cadd (a b : ndarray complex) :
  shaped 2 2 a -> shaped 2 2 b ->
  ifft2_2x2 (cadd a b) = cadd (ifft2_2x2 a) (ifft2_2x2 b).
Proof.
  intros (a00 & a01 & a10 & a11 & ->)%shaped_2x2
         (b00 & b01 & b10 & b11 & ->)%shaped_2x2.
  unfold ifft2_2x2, dft_2x2, cadd, amap2. cbn [data shape0 shape1 zip_with].
  f_equal. unfold Cscale, Cadd, Csub. cbn [re im].
  repeat (f_equal; try ring).
Qed.

Lemma multi_species_projection_witness :
  exists z1 zs,
    np_unique (number <$> example_atoms) = z1 :: zs /\
    fst (infinite_potential_projections fft2_2x2 ifft2_2x2 example_factors
           example_atoms (1, 2, 2) (1%Qc, 1%Qc) None ∅) =
    Ok [foldl radd
          (single_species fft2_2x2 ifft2_2x2 example_factors example_atoms
                          (1%Qc, 1%Qc) 2 2 z1)
          (single_species fft2_2x2 ifft2_2x2 example_factors example_atoms
                          (1%Qc, 1%Qc) 2 2 <$> zs)].
Proof.
  refine (proj2 (proj2 (multi_species_projection_equivalence
            fft2_2x2 ifft2_2x2 example_factors 2 2
            fft2_2x2_shaped ifft2_2x2_cadd
            example_atoms 1 (1%Qc, 1%Qc) ∅ _ _ _ _))).
  - vm_compute. lia.
  - lia.
  - lia.
  - intros z Hz. vm_compute in Hz.
    apply elem_of_cons in Hz as [->|Hz]; [|apply elem_of_cons in Hz as [->|Hz]];
      [| |apply elem_of_cons in Hz as [->|Hz]; [|by apply elem_of_nil in Hz]].
    all: eexists; split; [reflexivity|]; unfold shaped, wf; simpl; lia.
Defined.

End Infinite.

(** ** [abtem/slicing.py] *)

Module Slicing.

(** The [slice_thickness] argument: one number or a sequence of numbers. *)
Inductive thickness_arg : Type :=
| Scalar (t : Qc)
| Sequence (ts : list Qc).

(** [numpy.isclose(a, b)] with the default tolerances [rtol = 1e-5] and
    [atol = 1e-8]: [|a - b| <= atol + rtol * |b|]. *)
Definition rtol : Qc := Q2Qc (1 # 100000).
Definition atol : Qc := Q2Qc (1 # 100000000).
Definition isclose (a b : Qc) : bool :=
  Qcleb (Qcabs (a - b)) (atol + rtol * Qcabs b).

(** [validate_slice_thickness(slice_thickness, thickness=None,
    num_slices=None)].  A zero step divides by zero: the division raises for
    Python floats, and for NumPy floats the quotient is infinite or undefined
    and its conversion by [int] raises; the model raises
    [ZeroDivisionError] for both. *)
Definition validate_slice_thickness (slice_thickness : thickness_arg)
    (thickness : option Qc) (num_slices : option Z) : result (list Qc) :=
  rbind
    (match slice_thickness with
     | Scalar t =>
         match thickness, num_slices with
         | Some th, _ =>
             if decide (t = 0%Qc) then Raise ZeroDivisionError
             else
               let n := Qcceiling (th / t) in
               Ok (replicate (Z.to_nat n) (th / QcZ n)%Qc)
         | None, Some ns => Ok (replicate (Z.to_nat ns) t)
         | None, None => Raise RuntimeError
         end
     | Sequence ts => Ok ts
     end)
    (fun slice_thickness =>
       if match thickness with
          | Some th => negb (isclose (Qcsum slice_thickness) th)
          | None => false
          end
       then Raise RuntimeError
       else if match num_slices with
               | Some ns =>
                   negb (Z.of_nat (length slice_thickness) =? ns)
               | None => false
               end
       then Raise RuntimeError
       else Ok slice_thickness).

(** [numpy.cumsum] *)
Fixpoint cumsum_from (acc : Qc) (l : list Qc) : list Qc :=
  match l with
  | [] => []
  | x :: l' => (acc + x)%Qc :: cumsum_from (acc + x)%Qc l'
  end.

Definition cumsum (l : list Qc) : list Qc := cumsum_from 0%Qc l.

(** [_slice_limits(slice_thickness)] *)
Definition _slice_limits (slice_thickness : list Qc) : list (Qc * Qc) :=
  let cumulative_thickness := cumsum (0%Qc :: slice_thickness) in
  (fun i => (nth i cumulative_thickness 0%Qc,
             nth (i + 1) cumulative_thickness 0%Qc))
    <$> seq 0 (length cumulative_thickness - 1).

(** The [item] of [__getitem__]: an integer, a slice without step, or
    anything else. *)
Inductive item : Type :=
| ItemInt (i : Z)
| ItemSlice (start stop : option Z)
| ItemOther.

(** [unpack_item(item, num_items)] *)
Definition unpack_item (it : item) (num_items : Z) : result (Z * Z) :=
  rbind
    (match it with
     | ItemInt i => Ok (i, i + 1)
     | ItemSlice start stop => Ok (default 0 start, default num_items stop)
     | ItemOther => Raise RuntimeError
     end)
    (fun fl =>
       let first_index := fst fl in
       let last_index := Z.min (snd fl) num_items in
       if first_index >=? last_index then Raise IndexError
       else Ok (first_index, last_index)).

(** Modelled from the spec: [abtem.atoms.is_cell_orthogonal], which is not
    part of the sources at hand.  "Orthogonal only -- non-orthogonal cells are
    rejected": the cell matrix is diagonal. *)
Definition is_cell_orthogonal (atoms : Atoms) : bool :=
  let '((_, xy, xz), (yx, _, yz), (zx, zy, _)) := cell atoms in
  forallb (fun c => bool_decide (c = 0%Qc)) [xy; xz; yx; yz; zx; zy].

(** The [slice_thickness] argument of the constructors, which may also be a
    string. *)
Inductive thickness_spec : Type :=
| Given (t : thickness_arg)
| Named.

(** The state [AbstractSlicedAtoms.__init__] sets up. *)
Record AbstractSlicedAtoms : Type := mk_sliced {
  _atoms : Atoms;
  _slice_thickness : list Qc
}.

Definition AbstractSlicedAtoms_init (atoms : Atoms)
    (slice_thickness : thickness_spec) : result AbstractSlicedAtoms :=
  if negb (is_cell_orthogonal atoms) then Raise RuntimeError
  else match slice_thickness with
       | Named => Raise NotImplementedError
       | Given st =>
           rbind (validate_slice_thickness st (Some (cell_depth atoms)) None)
                 (fun st' => Ok (mk_sliced atoms st'))
       end.

Definition num_slices (s : AbstractSlicedAtoms) : Z :=
  Z.of_nat (length (_slice_thickness s)).

Definition slice_limits (s : AbstractSlicedAtoms) : list (Qc * Qc) :=
  _slice_limits (_slice_thickness s).

(** *** [SliceIndexedAtoms] *)

(** [numpy.searchsorted(a, v, side)] on a sorted array: the number of
    elements that are [<= v] (side ['right']) or [< v] (side ['left']). *)
Definition searchsorted_right (a : list Qc) (v : Qc) : nat :=
  length (filter (fun x => (x <= v)%Qc) a).
Definition searchsorted_left (a : list Qc) (v : Qc) : nat :=
  length (filter (fun x => (x < v)%Qc) a).

Fixpoint nondecreasing (l : list Qc) : bool :=
  match l with
  | x :: (y :: _) as l' => Qcleb x y && nondecreasing l'
  | _ => true
  end.

Fixpoint nonincreasing (l : list Qc) : bool :=
  match l with
  | x :: (y :: _) as l' => Qcleb y x && nonincreasing l'
  | _ => true
  end.

(** [numpy.digitize(x, bins)] with [right=False]: [bins] must be monotonic;
    for increasing bins the label [i] of a value [v] satisfies
    [bins[i-1] <= v < bins[i]]. *)
Definition digitize (x : list Qc) (bins : list Qc) : result (list nat) :=
  if nondecreasing bins then Ok (searchsorted_right bins <$> x)
  else if nonincreasing bins then
    Ok ((fun v => (length bins - searchsorted_left (reverse bins) v)%nat)
          <$> x)
  else Raise ValueError.

(** Modelled from the spec: [abtem.core.utils.label_to_index], which is not
    part of the sources at hand.  "Atoms are assigned once to a depth bin by
    their position": for every label from 0 to [max_label], the indices of
    the entries that carry the label. *)
Definition indices_with_label (labels : list nat) (k : nat) : list nat :=
  fst <$> filter (fun il => snd il = k) (imap (fun i l => (i, l)) labels).

Definition label_to_index (labels : list nat) (max_label : Z)
  : list (list nat) :=
  indices_with_label labels <$> seq 0 (Z.to_nat (max_label + 1)).

Record SliceIndexedAtoms : Type := mk_indexed {
  indexed_base : AbstractSlicedAtoms;
  _slice_index : list (list nat)
}.

(** [SliceIndexedAtoms.__init__] *)
Definition SliceIndexedAtoms_init (atoms : Atoms)
    (slice_thickness : thickness_spec) : result SliceIndexedAtoms :=
  rbind (AbstractSlicedAtoms_init atoms slice_thickness) (fun self =>
  rbind (digitize (pos_z <$> atom_list (_atoms self))
                  (cumsum (_slice_thickness self))) (fun labels =>
  Ok (mk_indexed self (label_to_index labels (num_slices self - 1))))).

(** *** [SlicedAtoms] *)

Record SlicedAtoms : Type := mk_windowed {
  windowed_base : AbstractSlicedAtoms;
  _xy_padding : Qc;
  _z_padding : Qc
}.

(** [SlicedAtoms.__init__] *)
Definition SlicedAtoms_init (atoms : Atoms) (slice_thickness : thickness_spec)
    (xy_padding z_padding : Qc) : result SlicedAtoms :=
  rbind (AbstractSlicedAtoms_init atoms slice_thickness) (fun self =>
  Ok (mk_windowed self xy_padding z_padding)).

(** [SlicedAtoms.get_atoms_in_slices(first_slice, last_slice=None,
    atomic_number=None)] *)
Definition get_atoms_in_slices (self : SlicedAtoms) (first_slice : Z)
    (last_slice : option Z) (atomic_number : option Z) : result Atoms :=
  let last_slice := default first_slice last_slice in
  let base := windowed_base self in
  rbind (py_index (slice_limits base) first_slice) (fun la =>
  rbind (py_index (slice_limits base) last_slice) (fun lb =>
  let a := fst la in
  let b := fst lb in
  let in_slice (x : atom) : bool :=
    Qcleb (a - _z_padding self) (pos_z x) &&
    Qcltb (pos_z x) (b + _z_padding self) in
  let in_slice (x : atom) : bool :=
    match atomic_number with
    | Some n => bool_decide (number x = n) && in_slice x
    | None => in_slice x
    end in
  let '(xx, yy, _) := cell_diag (_atoms base) in
  Ok (mk_Atoms (filter (fun x => in_slice x = true) (atom_list (_atoms base)))
               (diag_cell xx yy (b - a))))).

(** [SlicedAtoms.__getitem__(item)] *)
Definition getitem (self : SlicedAtoms) (it : item) : result Atoms :=
  rbind (unpack_item it (num_slices (windowed_base self))) (fun fl =>
  get_atoms_in_slices self (fst fl) (Some (snd fl)) None).

(** *** Notions and examples used in the statements *)

(** The cumulative depth at the start of slice [k]. *)
Definition depth_before (slice_thickness : list Qc) (k : nat) : Qc :=
  Qcsum (take k slice_thickness).

(** A cell of depth 2 cut into two slices, with one atom on its top face and
    one below its bottom face. *)
Definition example_structure : Atoms :=
  mk_Atoms [ mk_atom (q 0 1, q 0 1, q 1 4) 6;
             mk_atom (q 1 1, q 1 1, q 3 2) 14;
             mk_atom (q 2 1, q 2 1, q 2 1) 6;
             mk_atom (q 3 1, q 3 1, q (-1) 1) 6;
             mk_atom (q 4 1, q 4 1, q 1 1) 6 ]
           (diag_cell (q 5 1) (q 5 1) (q 2 1)).

Definition example_indexed : SliceIndexedAtoms :=
  match SliceIndexedAtoms_init example_structure (Given (Scalar 1%Qc)) with
  | Ok s => s
  | Raise _ => mk_indexed (mk_sliced example_structure []) []
  end.

Definition example_windowed : SlicedAtoms :=
  match SlicedAtoms_init example_structure (Given (Scalar 1%Qc)) 0%Qc 0%Qc with
  | Ok s => s
  | Raise _ => mk_windowed (mk_sliced example_structure []) 0%Qc 0%Qc
  end.

(** *** Facts *)

Lemma QcZ_0 : QcZ 0 = 0%Qc.
Proof. apply Qc_is_canon. reflexivity. Qed.

Lemma QcZ_succ n : QcZ (Z.succ n) = (1 + QcZ n)%Qc.
Proof.
  apply Qc_is_canon. unfold QcZ, Qc_of_Z. simpl.
  rewrite Qred_correct. unfold Qeq, Qplus. simpl. lia.
Qed.

Lemma QcZ_eq_0 n : QcZ n = 0%Qc -> n = 0.
Proof.
  intros H. apply (f_equal this) in H. unfold QcZ, Qc_of_Z in H. simpl in H.
  by injection H.
Qed.

Lemma Qcceiling_pos (x : Qc) : (0 < x)%Qc -> 0 < Qcceiling x.
Proof.
  unfold Qcceiling, Qclt. intros H. simpl in H.
  pose proof (Qle_ceiling (this x)) as Hc.
  pose proof (Qlt_le_trans _ _ _ H Hc) as H0.
  unfold Qlt, inject_Z in H0. simpl in H0. lia.
Qed.

Lemma Qcdiv_pos (a b : Qc) : (0 < a)%Qc -> (0 < b)%Qc -> (0 < a / b)%Qc.
Proof.
  intros Ha Hb. destruct (Qclt_le_dec 0 (a / b)) as [|Hle]; [done|]. exfalso.
  assert (a / b * b <= 0 * b)%Qc as H
    by (apply Qcmult_le_compat_r; [done|by apply Qclt_le_weak]).
  assert (a / b * b = a)%Qc as E.
  { rewrite Qcmult_comm. apply Qcmult_div_r. intros ->.
    by apply (Qclt_not_eq 0 0)%Qc. }
  rewrite E, Qcmult_0_l in H. by apply Qcle_not_lt in H.
Qed.

Lemma Qcsum_replicate n (x : Qc) :
  Qcsum (replicate n x) = (QcZ (Z.of_nat n) * x)%Qc.
Proof.
  induction n as [|n IH].
  - change (Z.of_nat 0) with 0. rewrite QcZ_0, Qcmult_0_l. done.
  - rewrite Nat2Z.inj_succ, QcZ_succ. cbn [replicate].
    change (Qcsum (x :: replicate n x)) with (x + Qcsum (replicate n x))%Qc.
    rewrite IH. ring.
Qed.

Lemma Qcabs_nonneg x : (0 <= Qcabs x)%Qc.
Proof.
  unfold Qcabs. destruct (decide (0 <= x)%Qc) as [|H]; [done|].
  apply Qcnot_le_lt, Qclt_le_weak, Qcopp_le_compat in H.
  by replace (- 0)%Qc with 0%Qc in H by ring.
Qed.

Lemma Qcabs_0 : Qcabs 0 = 0%Qc.
Proof. unfold Qcabs. by destruct (decide (0 <= 0)%Qc). Qed.

Lemma tolerance_nonneg b : (0 <= atol + rtol * Qcabs b)%Qc.
Proof.
  apply Qcplus_nonneg_nonneg; [done|].
  rewrite <- (Qcmult_0_l (Qcabs b)).
  apply Qcmult_le_compat_r; [done|apply Qcabs_nonneg].
Qed.

Lemma isclose_refl a : isclose a a = true.
Proof.
  unfold isclose, Qcleb. apply bool_decide_eq_true_2.
  replace (a - a)%Qc with 0%Qc by ring. rewrite Qcabs_0.
  apply tolerance_nonneg.
Qed.

(** C4 (slice-thickness invariant).  For a positive scalar step and a
    positive total thickness, [validate_slice_thickness] returns
    [ceil(thickness / step)] equal thicknesses whose sum is the total
    thickness; whenever it returns with a total thickness given (scalar step
    or explicit sequence), the sum of what it returns is close to the total
    in the sense of [numpy.isclose]; and an explicit sequence whose sum is
    not close to the total makes it raise [RuntimeError]. *)
Theorem validate_slice_thickness_sum :
  (forall step thickness : Qc,
      (0 < step)%Qc -> (0 < thickness)%Qc ->
      exists l,
        validate_slice_thickness (Scalar step) (Some thickness) None = Ok l /\
        Qcsum l = thickness /\
        Z.of_nat (length l) = Qcceiling (thickness / step)) /\
  (forall (slice_thickness : thickness_arg) (thickness : Qc)
          (num_slices : option Z) (l : list Qc),
      validate_slice_thickness slice_thickness (Some thickness) num_slices
        = Ok l ->
      isclose (Qcsum l) thickness = true) /\
  (forall (ts : list Qc) (thickness : Qc) (num_slices : option Z),
      isclose (Qcsum ts) thickness = false ->
      validate_slice_thickness (Sequence ts) (Some thickness) num_slices
        = Raise RuntimeError).
Proof.
  split; [|split].
  - intros step th Hs Ht.
    pose proof (Qcceiling_pos _ (Qcdiv_pos _ _ Ht Hs)) as Hn.
    set (n := Qcceiling (th / step)) in *.
    assert (Qcsum (replicate (Z.to_nat n) (th / QcZ n)%Qc) = th) as Hsum.
    { rewrite Qcsum_replicate, Z2Nat.id by lia.
      apply Qcmult_div_r. intros E. apply QcZ_eq_0 in E. lia. }
    exists (replicate (Z.to_nat n) (th / QcZ n)%Qc).
    unfold validate_slice_thickness.
    rewrite decide_False by (intros ->; by apply (Qclt_not_eq 0 0)%Qc).
    fold n. cbn [rbind]. rewrite Hsum, isclose_refl. cbn [negb].
    split; [done|]. split; [done|]. rewrite length_replicate. lia.
  - intros st th ns l. unfold validate_slice_thickness.
    destruct (match st with Scalar _ => _ | Sequence _ => _ end) as [l'|e];
      cbn [rbind]; [|done].
    destruct (isclose (Qcsum l') th) eqn:E; cbn [negb]; [|done].
    destruct ns as [ns|]; [|by intros [= <-]].
    destruct (negb _); [done|by intros [= <-]].
  - intros ts th ns H. unfold validate_slice_thickness. cbn [rbind].
    by rewrite H.
Qed.

Lemma validate_slice_thickness_sum_witness :
  (exists l,
     validate_slice_thickness (Scalar (Q2Qc (3 # 10))) (Some 1%Qc) None = Ok l /\
     Qcsum l = 1%Qc /\
     Z.of_nat (length l) = Qcceiling (1 / Q2Qc (3 # 10))) /\
  isclose (Qcsum [Q2Qc (1 # 2); Q2Qc (1 # 2)]) 1%Qc = true /\
  validate_slice_thickness (Sequence [Q2Qc (1 # 2); Q2Qc (1 # 2)])
    (Some (Q2Qc (11 # 10))) None = Raise RuntimeError.
Proof.
  destruct validate_slice_thickness_sum as (H1 & H2 & H3).
  split; [|split].
  - apply (H1 (Q2Qc (3 # 10)) 1%Qc); reflexivity.
  - apply (H2 (Sequence [Q2Qc (1 # 2); Q2Qc (1 # 2)]) 1%Qc (Some 2)
              [Q2Qc (1 # 2); Q2Qc (1 # 2)]).
    reflexivity.
  - apply (H3 [Q2Qc (1 # 2); Q2Qc (1 # 2)] (Q2Qc (11 # 10)) None).
    reflexivity.
Defined.

Lemma py_index_in {A} (l : list A) (i : Z) x :
  0 <= i -> l !! Z.to_nat i = Some x -> py_index l i = Ok x.
Proof.
  intros Hi Hx. unfold py_index.
  pose proof (lookup_lt_Some _ _ _ Hx) as Hlt.
  destruct (Z.ltb_spec i 0); [lia|].
  destruct (Z.leb_spec 0 i); [|lia].
  destruct (Z.ltb_spec i (Z.of_nat (length l))); [|lia].
  cbn. by rewrite Hx.
Qed.

Lemma py_index_length {A} (l : list A) :
  py_index l (Z.of_nat (length l)) = Raise IndexError.
Proof.
  unfold py_index. destruct (Z.ltb_spec (Z.of_nat (length l)) 0); [lia|].
  destruct (Z.leb_spec 0 (Z.of_nat (length l))); [|lia].
  destruct (Z.ltb_spec (Z.of_nat (length l)) (Z.of_nat (length l))); [lia|].
  done.
Qed.

Lemma cumsum_from_length acc l : length (cumsum_from acc l) = length l.
Proof. revert acc. induction l; intros; simpl; [done|]. by rewrite IHl. Qed.

Lemma cumsum_from_nth acc l i :
  (i < length l)%nat ->
  nth i (cumsum_from acc l) 0%Qc = (acc + Qcsum (take (S i) l))%Qc.
Proof.
  revert acc i. induction l as [|x l IH]; intros acc i Hi; simpl in *; [lia|].
  destruct i as [|i].
  - rewrite take_0. unfold Qcsum. simpl. ring.
  - rewrite IH by lia. unfold Qcsum. simpl. ring.
Qed.

Lemma slice_limits_length st : length (_slice_limits st) = length st.
Proof.
  unfold _slice_limits, cumsum. rewrite length_fmap, length_seq.
  rewrite cumsum_from_length. simpl. lia.
Qed.

Lemma slice_limits_lookup st k :
  (k < length st)%nat ->
  _slice_limits st !! k = Some (depth_before st k, depth_before st (S k)).
Proof.
  intros Hk. unfold _slice_limits, cumsum.
  rewrite list_lookup_fmap, lookup_seq_lt
    by (rewrite cumsum_from_length; simpl; lia).
  cbn [fmap option_fmap option_map Nat.add]. f_equal.
  rewrite !cumsum_from_nth by (simpl; lia).
  unfold depth_before. rewrite Nat.add_1_r.
  change (take (S k) (0%Qc :: st)) with (0%Qc :: take k st).
  change (take (S (S k)) (0%Qc :: st)) with (0%Qc :: take (S k) st).
  unfold Qcsum. simpl. f_equal; ring.
Qed.

(** Where the window of [SlicedAtoms] is what the slices say: queries that
    stop before the last slice. *)
Lemma get_atoms_in_slices_inner self first_slice last_slice :
  0 <= first_slice -> 0 <= last_slice ->
  first_slice < num_slices (windowed_base self) ->
  last_slice < num_slices (windowed_base self) ->
  let st := _slice_thickness (windowed_base self) in
  let bin_start := depth_before st (Z.to_nat first_slice) in
  let bin_end := depth_before st (Z.to_nat last_slice) in
  exists atoms,
    get_atoms_in_slices self first_slice (Some last_slice) None = Ok atoms /\
    atom_list atoms =
      filter (fun x => (bin_start - _z_padding self <= pos_z x)%Qc /\
                       (pos_z x < bin_end + _z_padding self)%Qc)
             (atom_list (_atoms (windowed_base self))) /\
    cell_depth atoms = (bin_end - bin_start)%Qc.
Proof.
  intros Hf Hl Hfn Hln st bin_start bin_end. unfold num_slices in *.
  assert (Z.to_nat first_slice < length st)%nat as Hf' by (subst st; lia).
  assert (Z.to_nat last_slice < length st)%nat as Hl' by (subst st; lia).
  unfold get_atoms_in_slices, slice_limits. cbn [default from_option id].
  fold st.
  rewrite (py_index_in _ first_slice _ Hf (slice_limits_lookup st _ Hf')).
  cbn [rbind].
  rewrite (py_index_in _ last_slice _ Hl (slice_limits_lookup st _ Hl')).
  cbn [rbind fst].
  destruct (cell_diag (_atoms (windowed_base self))) as [[xx yy] zz].
  eexists. split; [done|]. cbn [atom_list]. split.
  - apply list_filter_iff. intros x. unfold Qcleb, Qcltb.
    rewrite andb_true_iff, !bool_decide_eq_true. done.
  - done.
Qed.

(** C6 (windowed slice selection), where the code departs from it.  The
    upper limit of the window is read from [slice_limits[last_slice][0]], the
    start of slice [last_slice], and [slice_limits] has one entry per slice:
    every query that ends with the last slice, [last_slice = num_slices],
    raises [IndexError] instead of returning the atoms of the window, and so
    do [self[num_slices - 1]] and [self[:]].  Queries that stop earlier
    return the window the claim describes
    ([get_atoms_in_slices_inner]). *)
Theorem get_atoms_in_slices_last_slice
    (self : SlicedAtoms) (first_slice : Z) (atomic_number : option Z) :
  0 <= first_slice < num_slices (windowed_base self) ->
  get_atoms_in_slices self first_slice
    (Some (num_slices (windowed_base self))) atomic_number
  = Raise IndexError /\
  getitem self (ItemInt (num_slices (windowed_base self) - 1))
  = Raise IndexError /\
  getitem self (ItemSlice None None) = Raise IndexError.
Proof.
  intros [Hf Hfn].
  assert (forall first, 0 <= first < num_slices (windowed_base self) ->
     forall an, get_atoms_in_slices self first
       (Some (num_slices (windowed_base self))) an = Raise IndexError) as H.
  { intros first [H0 Hn] an. unfold num_slices in *.
    unfold get_atoms_in_slices, slice_limits. cbn [default from_option id].
    rewrite (py_index_in _ first _ H0
               (slice_limits_lookup (_slice_thickness (windowed_base self))
                  (Z.to_nat first) ltac:(lia))).
    cbn [rbind].
    rewrite <- (slice_limits_length (_slice_thickness (windowed_base self))).
    by rewrite py_index_length. }
  split; [by apply H|]. split.
  - unfold getitem, unpack_item. cbn [rbind fst snd].
    replace (num_slices (windowed_base self) - 1 + 1)
      with (num_slices (windowed_base self)) by lia.
    rewrite Z.min_id.
    destruct (Z.geb_spec (num_slices (windowed_base self) - 1)
                         (num_slices (windowed_base self))); [lia|].
    cbn [rbind fst snd]. apply H. lia.
  - unfold getitem, unpack_item. cbn [rbind fst snd default from_option id].
    rewrite Z.min_id.
    destruct (Z.geb_spec 0 (num_slices (windowed_base self))); [lia|].
    cbn [rbind fst snd]. apply H. lia.
Qed.

Lemma Qcsum_nonneg l : Forall (fun t => (0 <= t)%Qc) l -> (0 <= Qcsum l)%Qc.
Proof.
  induction 1 as [|x l Hx _ IH]; [done|].
  change (Qcsum (x :: l)) with (x + Qcsum l)%Qc.
  by apply Qcplus_nonneg_nonneg.
Qed.

Lemma Qcle_plus_nonneg (a b : Qc) : (0 <= b)%Qc -> (a <= a + b)%Qc.
Proof.
  intros H. rewrite <- (Qcplus_0_r a) at 1. by apply Qcplus_le_mono_l.
Qed.

Lemma nondecreasing_cons2 x y l :
  nondecreasing (x :: y :: l) = Qcleb x y && nondecreasing (y :: l).
Proof. done. Qed.

Lemma nondecreasing_cons_cumsum acc l :
  Forall (fun t => (0 <= t)%Qc) l ->
  nondecreasing (acc :: cumsum_from acc l) = true.
Proof.
  intros H. revert acc. induction H as [|x l Hx _ IH]; intros acc; [done|].
  cbn [cumsum_from]. rewrite nondecreasing_cons2, IH, andb_true_r.
  unfold Qcleb. apply bool_decide_eq_true_2. by apply Qcle_plus_nonneg.
Qed.

Lemma cumsum_from_nondecreasing acc l :
  Forall (fun t => (0 <= t)%Qc) l -> nondecreasing (cumsum_from acc l) = true.
Proof.
  destruct 1 as [|x l Hx Hl]; [done|].
  cbn [cumsum_from]. by apply nondecreasing_cons_cumsum.
Qed.

Lemma cumsum_from_bound acc l x :
  Forall (fun t => (0 <= t)%Qc) l ->
  x ∈ cumsum_from acc l -> (x <= acc + Qcsum l)%Qc.
Proof.
  intros H. revert acc. induction H as [|y l Hy Hl IH]; intros acc.
  - by intros ?%elem_of_nil.
  - cbn [cumsum_from]. change (Qcsum (y :: l)) with (y + Qcsum l)%Qc.
    rewrite Qcplus_assoc. intros [->|Hx]%elem_of_cons.
    + apply Qcle_plus_nonneg. by apply Qcsum_nonneg.
    + by apply IH.
Qed.

Lemma cumsum_from_last acc l :
  l <> [] -> (acc + Qcsum l)%Qc ∈ cumsum_from acc l.
Proof.
  revert acc. induction l as [|y l IH]; intros acc Hne; [done|].
  cbn [cumsum_from]. change (Qcsum (y :: l)) with (y + Qcsum l)%Qc.
  rewrite Qcplus_assoc. destruct l as [|z l].
  - cbn. rewrite Qcplus_0_r. apply elem_of_cons; by left.
  - apply elem_of_cons; right. by apply IH.
Qed.

Lemma filter_length_lt {A} (P : A -> Prop) `{forall x, Decision (P x)}
    (l : list A) x :
  x ∈ l -> ~ P x -> (length (filter P l) < length l)%nat.
Proof.
  induction 1 as [x l|x y l Hx IH]; intros Hn.
  - rewrite filter_cons_False by done.
    pose proof (length_filter P l). simpl. lia.
  - specialize (IH Hn). rewrite filter_cons.
    destruct (decide (P y)); simpl; lia.
Qed.

Lemma filter_length_all {A} (P : A -> Prop) `{forall x, Decision (P x)}
    (l : list A) :
  Forall P l -> length (filter P l) = length l.
Proof.
  induction 1 as [|x l Hx _ IH]; [done|].
  rewrite filter_cons_True by done. simpl. by rewrite IH.
Qed.

(** With nonnegative thicknesses, the label of a depth is below the number of
    slices exactly when the depth is below the total thickness. *)
Lemma searchsorted_right_cumsum st z :
  st <> [] -> Forall (fun t => (0 <= t)%Qc) st ->
  (searchsorted_right (cumsum st) z < length st)%nat <-> (z < Qcsum st)%Qc.
Proof.
  intros Hne Hst. unfold searchsorted_right, cumsum.
  rewrite <- (cumsum_from_length 0%Qc st). split.
  - intros Hlt. apply Qcnot_le_lt. intros Hle.
    rewrite filter_length_all in Hlt; [lia|].
    apply Forall_forall. intros x Hx.
    apply (cumsum_from_bound _ _ _ Hst) in Hx. rewrite Qcplus_0_l in Hx.
    by etrans.
  - intros Hlt. apply (filter_length_lt _ _ (0 + Qcsum st)%Qc).
    + by apply cumsum_from_last.
    + rewrite Qcplus_0_l. by apply Qclt_not_le.
Qed.

Lemma elem_of_indices_with_label labels k i :
  i ∈ indices_with_label labels k <-> labels !! i = Some k.
Proof.
  unfold indices_with_label. rewrite list_elem_of_fmap. split.
  - intros ([i' l] & -> & Hin). apply list_elem_of_filter in Hin as [Hl Hin].
    cbn [fst snd] in *. subst.
    apply list_elem_of_lookup in Hin as [j Hj].
    rewrite list_lookup_imap in Hj.
    destruct (labels !! j) eqn:E; cbn in Hj; [|done]. by simplify_eq.
  - intros Hi. exists (i, k). split; [done|].
    apply list_elem_of_filter. split; [done|].
    apply list_elem_of_lookup. exists i. rewrite list_lookup_imap, Hi. done.
Qed.

Lemma NoDup_indices_with_label labels k : NoDup (indices_with_label labels k).
Proof.
  unfold indices_with_label.
  apply NoDup_fmap_2_strong.
  - intros [i l] [i' l'] [_ Hin]%list_elem_of_filter [_ Hin']%list_elem_of_filter E.
    cbn [fst] in E. subst i'.
    apply list_elem_of_lookup in Hin as [j Hj], Hin' as [j' Hj'].
    rewrite list_lookup_imap in Hj, Hj'.
    destruct (labels !! j) eqn:E1; cbn in Hj; [|done].
    destruct (labels !! j') eqn:E2; cbn in Hj'; [|done].
    simplify_eq. congruence.
  - apply NoDup_filter. apply NoDup_alt. intros j j' [i l] Hj Hj'.
    rewrite list_lookup_imap in Hj, Hj'.
    destruct (labels !! j) eqn:E1; cbn in Hj; [|done].
    destruct (labels !! j') eqn:E2; cbn in Hj'; [|done].
    by simplify_eq.
Qed.

Lemma label_to_index_lookup labels max_label k l :
  label_to_index labels max_label !! k = Some l ->
  Z.of_nat k <= max_label /\ l = indices_with_label labels k.
Proof.
  unfold label_to_index. rewrite list_lookup_fmap.
  destruct (seq 0 (Z.to_nat (max_label + 1)) !! k) as [k'|] eqn:E; [|done].
  apply lookup_seq in E as [-> Hk]. cbn. intros [= <-]. split; [lia|done].
Qed.

Lemma label_to_index_lookup_lt labels max_label k :
  Z.of_nat k <= max_label ->
  label_to_index labels max_label !! k = Some (indices_with_label labels k).
Proof.
  intros Hk. unfold label_to_index.
  rewrite list_lookup_fmap, lookup_seq_lt by lia. done.
Qed.

Lemma AbstractSlicedAtoms_init_atoms atoms st self :
  AbstractSlicedAtoms_init atoms st = Ok self ->
  _atoms self = atoms /\ is_cell_orthogonal atoms = true.
Proof.
  unfold AbstractSlicedAtoms_init.
  destruct (is_cell_orthogonal atoms); cbn [negb]; [|done].
  destruct st as [st|]; [|done].
  destruct (validate_slice_thickness _ _ _); cbn [rbind]; [|done].
  by intros [= <-].
Qed.

(** C7 (atom partition of the slice-indexed variant), as amended.  When
    [SliceIndexedAtoms] is constructed (so the cell is orthogonal) with at
    least one slice and nonnegative thicknesses, there is one index list per
    slice, no list repeats an index, no index is in two lists, and the
    indices in the lists are exactly those of the atoms whose [z] is below
    the sum of the slice thicknesses: every such atom is in exactly one list,
    an atom at or above that depth is in none. *)
Theorem slice_index_partition
    (atoms : Atoms) (slice_thickness : thickness_spec)
    (s : SliceIndexedAtoms) :
  SliceIndexedAtoms_init atoms slice_thickness = Ok s ->
  let st := _slice_thickness (indexed_base s) in
  st <> [] -> Forall (fun t => (0 <= t)%Qc) st ->
  is_cell_orthogonal atoms = true /\
  length (_slice_index s) = length st /\
  (forall k l, _slice_index s !! k = Some l -> NoDup l) /\
  (forall k k' l l' i,
      _slice_index s !! k = Some l -> _slice_index s !! k' = Some l' ->
      i ∈ l -> i ∈ l' -> k = k') /\
  (forall i,
      (exists k l, _slice_index s !! k = Some l /\ i ∈ l) <->
      (exists a, atom_list atoms !! i = Some a /\ (pos_z a < Qcsum st)%Qc)).
Proof.
  unfold SliceIndexedAtoms_init.
  destruct (AbstractSlicedAtoms_init atoms slice_thickness) as [self|] eqn:Hinit;
    cbn [rbind]; [|done].
  apply AbstractSlicedAtoms_init_atoms in Hinit as [Hatoms Horth].
  destruct (digitize _ _) as [labels|] eqn:Hdig; cbn [rbind]; [|done].
  intros [= <-]. cbn [indexed_base _slice_index]. intros Hne Hst.
  set (st := _slice_thickness self) in *.
  unfold digitize in Hdig.
  unfold cumsum in Hdig at 1.
  rewrite cumsum_from_nondecreasing in Hdig by done.
  injection Hdig as <-. rewrite Hatoms.
  set (labels := searchsorted_right (cumsum st) <$> (pos_z <$> atom_list atoms)).
  assert (num_slices self - 1 = Z.of_nat (length st) - 1) as Hn by done.
  rewrite Hn. split; [done|]. split; [|split; [|split]].
  - unfold label_to_index. rewrite length_fmap, length_seq. lia.
  - intros k l [_ ->]%label_to_index_lookup. apply NoDup_indices_with_label.
  - intros k k' l l' i [_ ->]%label_to_index_lookup
           [_ ->]%label_to_index_lookup.
    rewrite !elem_of_indices_with_label. congruence.
  - intros i. split.
    + intros (k & l & [Hk ->]%label_to_index_lookup & Hi).
      apply elem_of_indices_with_label in Hi. unfold labels in Hi.
      rewrite !list_lookup_fmap in Hi.
      destruct (atom_list atoms !! i) as [a|]; [|done]. cbn in Hi.
      exists a. split; [done|]. apply searchsorted_right_cumsum; [done..|].
      injection Hi as ->. lia.
    + intros (a & Ha & Hz).
      apply searchsorted_right_cumsum in Hz; [|done..].
      exists (searchsorted_right (cumsum st) (pos_z a)), 
             (indices_with_label labels
                (searchsorted_right (cumsum st) (pos_z a))).
      split; [apply label_to_index_lookup_lt; lia|].
      apply elem_of_indices_with_label. unfold labels.
      by rewrite !list_lookup_fmap, Ha.
Qed.

(** C7 fails as stated: in a cell of depth 2 cut into two slices, the atom
    of index 2, at [z = 2], is in no index list. *)
Lemma slice_index_partition_counterexample :
  is_cell_orthogonal example_structure = true /\
  SliceIndexedAtoms_init example_structure (Given (Scalar 1%Qc))
    = Ok example_indexed /\
  length (atom_list example_structure) = 5%nat /\
  _slice_index example_indexed = [[0; 3]; [1; 4]]%nat /\
  2%nat ∉ concat (_slice_index example_indexed).
Proof.
  split; [reflexivity|]. split; [reflexivity|]. split; [reflexivity|].
  split; [reflexivity|]. vm_compute. set_solver.
Qed.

Lemma slice_index_partition_witness :
  let st := _slice_thickness (indexed_base example_indexed) in
  is_cell_orthogonal example_structure = true /\
  length (_slice_index example_indexed) = length st /\
  (forall k l, _slice_index example_indexed !! k = Some l -> NoDup l) /\
  (forall k k' l l' i,
      _slice_index example_indexed !! k = Some l ->
      _slice_index example_indexed !! k' = Some l' ->
      i ∈ l -> i ∈ l' -> k = k') /\
  (forall i,
      (exists k l, _slice_index example_indexed !! k = Some l /\ i ∈ l) <->
      (exists a, atom_list example_structure !! i = Some a /\
                 (pos_z a < Qcsum st)%Qc)).
Proof.
  apply (slice_index_partition example_structure (Given (Scalar 1%Qc))
           example_indexed).
  - reflexivity.
  - vm_compute. discriminate.
  - vm_compute. repeat constructor; discriminate.
Defined.

Lemma get_atoms_in_slices_last_slice_witness :
  SlicedAtoms_init example_structure (Given (Scalar 1%Qc)) 0%Qc 0%Qc
    = Ok example_windowed /\
  num_slices (windowed_base example_windowed) = 2 /\
  (exists a, a ∈ atom_list example_structure /\
             (1 <= pos_z a)%Qc /\ (pos_z a < 2)%Qc) /\
  get_atoms_in_slices example_windowed 1
    (Some (num_slices (windowed_base example_windowed))) None
  = Raise IndexError /\
  getitem example_windowed
    (ItemInt (num_slices (windowed_base example_windowed) - 1))
  = Raise IndexError /\
  getitem example_windowed (ItemSlice None None) = Raise IndexError.
Proof.
  split; [reflexivity|]. split; [reflexivity|]. split.
  - exists (mk_atom (q 1 1, q 1 1, q 3 2) 14).
    split; [|split; [vm_compute; discriminate|reflexivity]].
    unfold example_structure. cbn [atom_list]. set_solver.
  - apply (get_atoms_in_slices_last_slice example_windowed 1 None).
    vm_compute. split; [discriminate|reflexivity].
Defined.

Lemma get_atoms_in_slices_inner_example :
  exists atoms,
    get_atoms_in_slices example_windowed 0 (Some 1) None = Ok atoms /\
    pos_z <$> atom_list atoms = [q 1 4] /\
    cell_depth atoms = (1 - 0)%Qc.
Proof.
  eexists. split; [reflexivity|]. split; [reflexivity|].
  apply Qc_is_canon. reflexivity.
Qed.

End Slicing.

(** ** [abtem/core/array.py] and [_reduce_ensemble] of [abtem/waves.py] *)

Module ArrayObject.

(** *** Arrays of any rank

    The shape and the value at each index; an index is the list of its
    components, one per axis. *)
Record ndarray : Type := mk_nd {
  shape : list nat;
  item : list nat -> Qc
}.

(** One entry of an index tuple. *)
Inductive index_item : Type :=
| ItInt (i : Z)
| ItSlice (start stop step : option Z)
| ItEllipsis
| ItNone.

(** [range(start, stop, step)] for a nonzero step. *)
Definition py_range (start stop step : Z) : list Z :=
  let count :=
    if 0 <? step then (stop - start + step - 1) / step
    else (start - stop - step - 1) / (- step) in
  (fun k => start + Z.of_nat k * step) <$> seq 0 (Z.to_nat count).

(** [slice(start, stop, step).indices(len)], as the list of the indices the
    slice selects on an axis of length [len]. *)
Definition slice_indices (len : Z) (start stop step : option Z)
  : result (list Z) :=
  let step := default 1 step in
  if step =? 0 then Raise ValueError
  else
    let lower := if step <? 0 then -1 else 0 in
    let upper := if step <? 0 then len - 1 else len in
    let clamp v := if v <? 0 then Z.max (v + len) lower else Z.min v upper in
    let start := match start with
                 | None => if step <? 0 then upper else lower
                 | Some v => clamp v
                 end in
    let stop := match stop with
                | None => if step <? 0 then lower else upper
                | Some v => clamp v
                end in
    Ok (py_range start stop step).

(** What one index entry does to its axis: an integer fixes the component, a
    slice picks components. *)
Inductive selector : Type :=
| Fixed (i : nat)
| Pick (sel : list nat).

Definition select_axis (n : nat) (it : index_item) : result selector :=
  match it with
  | ItInt i =>
      rbind (Grid.normalize_index (Z.of_nat n) i) (fun k =>
      Ok (Fixed (Z.to_nat k)))
  | ItSlice start stop step =>
      rbind (slice_indices (Z.of_nat n) start stop step) (fun l =>
      Ok (Pick (Z.to_nat <$> l)))
  | ItEllipsis | ItNone => Raise NotImplementedError
  end.

Fixpoint selectors (shape : list nat) (items : list index_item)
    {struct items} : result (list selector) :=
  match items, shape with
  | [], _ => Ok []
  | it :: items', n :: shape' =>
      rbind (select_axis n it) (fun s =>
      rbind (selectors shape' items') (fun ss => Ok (s :: ss)))
  | _ :: _, [] => Raise IndexError
  end.

Fixpoint out_shape (sels : list selector) (shape : list nat)
    {struct sels} : list nat :=
  match sels, shape with
  | [], _ => shape
  | Fixed _ :: ss, _ :: sh => out_shape ss sh
  | Pick l :: ss, _ :: sh => length l :: out_shape ss sh
  | _ :: _, [] => []
  end.

(** The index in the indexed array of the element found at index [out] of
    the result. *)
Fixpoint source_index (sels : list selector) (out : list nat) : list nat :=
  match sels with
  | [] => out
  | Fixed i :: ss => i :: source_index ss out
  | Pick l :: ss =>
      match out with
      | j :: out' => nth j l 0%nat :: source_index ss out'
      | [] => []
      end
  end.

(** [array[items]] for a tuple of integers and slices (basic indexing). *)
Definition getitem (a : ndarray) (items : list index_item) : result ndarray :=
  rbind (selectors (shape a) items) (fun sels =>
  Ok (mk_nd (out_shape sels (shape a))
            (fun out => item a (source_index sels out)))).

(** [[element for i, element in enumerate(l) if i not in positions]] *)
Definition remove_positions {A} (positions : list nat) (l : list A) : list A :=
  snd <$> filter (fun ie => fst ie ∉ positions) (imap pair l).

(** The index before the axes [positions], all of length one, were removed:
    a zero is put back at each of them. *)
Fixpoint unsqueeze_index (positions : list nat) (k rank : nat)
    (out : list nat) : list nat :=
  match rank with
  | O => []
  | S rank' =>
      if decide (k ∈ positions) then
        0%nat :: unsqueeze_index positions (S k) rank' out
      else
        match out with
        | j :: out' => j :: unsqueeze_index positions (S k) rank' out'
        | [] => []
        end
  end.

(** [numpy.squeeze(array, axis=positions)]: an axis whose length is not one
    cannot be removed. *)
Definition np_squeeze (a : ndarray) (positions : list nat) : result ndarray :=
  if forallb (fun p => bool_decide (shape a !! p = Some 1%nat)) positions then
    Ok (mk_nd (remove_positions positions (shape a))
              (fun out => item a (unsqueeze_index positions 0
                                    (length (shape a)) out)))
  else Raise ValueError.

(** *** Axis metadata *)

Inductive axis_kind : Type :=
| RealSpaceAxis
| ReciprocalSpaceAxis
| OrdinalAxis (values : list Qc)
| UnknownAxis.

Record AxisMetadata : Type := mk_axis {
  kind : axis_kind;
  _squeeze : bool
}.

(** Modelled from the spec: [OrdinalAxis.__getitem__] of [abtem.core.axes],
    which is not part of the sources at hand.  "Slicing on an Ordinal axis
    sub-selects its labels." *)
Definition ordinal_getitem (values : list Qc) (squeeze_flag : bool)
    (it : index_item) : result AxisMetadata :=
  match it with
  | ItSlice start stop step =>
      rbind (slice_indices (Z.of_nat (length values)) start stop step)
            (fun l =>
      Ok (mk_axis (OrdinalAxis ((fun k => nth (Z.to_nat k) values 0%Qc) <$> l))
                  squeeze_flag))
  | ItInt i =>
      rbind (py_index values i) (fun v =>
      Ok (mk_axis (OrdinalAxis [v]) squeeze_flag))
  | ItEllipsis | ItNone => Raise NotImplementedError
  end.

(** *** [HasArray]

    The array, the number of base axes of the class, and the metadata of the
    ensemble axes.  The other constructor arguments are copied as they are
    by every operation below and are left out. *)
Record HasArray : Type := mk_obj {
  _array : ndarray;
  _base_dims : nat;
  ensemble_axes_metadata : list AxisMetadata
}.

(** [l[:-k]] and [l[-k:]] of Python, where [-0] is [0]. *)
Definition py_drop_last {A} (l : list A) (k : nat) : list A :=
  if decide (k = 0%nat) then [] else take (length l - k) l.
Definition py_take_last {A} (l : list A) (k : nat) : list A :=
  if decide (k = 0%nat) then l else drop (length l - k) l.

(** [base_shape] and [ensemble_shape] *)
Definition base_shape (self : HasArray) : list nat :=
  py_take_last (shape (_array self)) (_base_dims self).
Definition ensemble_shape (self : HasArray) : list nat :=
  py_drop_last (shape (_array self)) (_base_dims self).

(** Modelled from the spec: [HasAxes._is_base_axis] of [abtem.core.axes],
    which is not part of the sources at hand.  "Base axes are never exposed
    for ensemble-level indexing": one of the axes is a base axis, that is,
    comes after the ensemble axes. *)
Definition _is_base_axis (self : HasArray) (axes : list nat) : bool :=
  existsb (fun a => (length (ensemble_shape self) <=? a)%nat &&
                    (a <? length (shape (_array self)))%nat) axes.

(** The [items] argument of [get_items]. *)
Inductive items_arg : Type :=
| Single (it : index_item)
| Tuple (its : list index_item)
| OtherItems.

(** The loop that collects [axis_to_remove]. *)
Fixpoint axis_to_remove_from (i : nat) (items : list index_item)
  : result (list nat) :=
  match items with
  | [] => Ok []
  | ItInt _ :: items' =>
      rbind (axis_to_remove_from (S i) items') (fun l => Ok (i :: l))
  | ItSlice _ _ _ :: items' => axis_to_remove_from (S i) items'
  | (ItEllipsis | ItNone) :: _ => Raise NotImplementedError
  end.

(** The loop over [zip(self.ensemble_axes_metadata, items)]; the result is
    the new metadata and [last_indexed]. *)
Fixpoint new_axes_metadata_from (i : nat) (axis_to_remove : list nat)
    (metadata : list AxisMetadata) (items : list index_item)
    {struct items} : result (list AxisMetadata * nat) :=
  match metadata, items with
  | m :: metadata', it :: items' =>
      rbind (if decide (i ∈ axis_to_remove) then Ok []
             else match kind m with
                  | OrdinalAxis values =>
                      rbind (ordinal_getitem values (_squeeze m) it)
                            (fun m' => Ok [m'])
                  | _ => Ok [m]
                  end) (fun new =>
      rbind (new_axes_metadata_from (S i) axis_to_remove metadata' items')
            (fun rest => Ok (new ++ fst rest, S (snd rest))))
  | _, _ => Ok ([], 0%nat)
  end.

(** [HasArray.get_items(items, keep_dims=False)] *)
Definition get_items (self : HasArray) (items : items_arg) (keep_dims : bool)
  : result HasArray :=
  rbind (match items with
         | Single (ItInt i) => Ok [ItInt i]
         | Single (ItSlice a b c) => Ok [ItSlice a b c]
         | Tuple its => Ok its
         | _ => Raise NotImplementedError
         end) (fun items =>
  let items :=
    if keep_dims then
      (fun it => match it with
                 | ItInt i => ItSlice (Some i) (Some (i + 1)) None
                 | _ => it
                 end) <$> items
    else items in
  if (length (ensemble_shape self) <? length items)%nat
  then Raise RuntimeError
  else
    rbind (axis_to_remove_from 0 items) (fun axis_to_remove =>
    if _is_base_axis self axis_to_remove then Raise RuntimeError
    else
      rbind (new_axes_metadata_from 0 axis_to_remove
               (ensemble_axes_metadata self) items) (fun nl =>
      let new_axes_metadata :=
        fst nl ++ drop (snd nl) (ensemble_axes_metadata self) in
      rbind (getitem (_array self) items) (fun array =>
      Ok (mk_obj array (_base_dims self) new_axes_metadata))))).

(** [HasArray.__getitem__(items)] *)
Definition __getitem__ (self : HasArray) (items : items_arg)
  : result HasArray :=
  get_items self items false.

Section Squeeze.

(** [abtem.core.utils.normalize_axes] is not part of the sources at hand: it
    is a parameter of the development. *)
Variable normalize_axes : list Z -> list nat -> list Z.

(** The tuple [squeezed] of [HasArray.squeeze]. *)
Definition squeezed_axes (self : HasArray) (axis : option (list Z))
  : list nat :=
  let full_shape := shape (_array self) in
  let axis :=
    match axis with
    | None => Z.of_nat <$> seq 0 (length full_shape)
    | Some axis => normalize_axes axis full_shape
    end in
  let shape := py_drop_last full_shape (length (base_shape self)) in
  fst <$> filter (fun ia => snd ia = true)
            (imap (fun i n => (i, bool_decide (n = 1%nat) &&
                                  bool_decide (Z.of_nat i ∈ axis))) shape).

(** [HasArray.squeeze(axis=None)] *)
Definition squeeze (self : HasArray) (axis : option (list Z))
  : result HasArray :=
  if (length (shape (_array self)) <? length (base_shape self))%nat
  then Ok self
  else
    let squeezed := squeezed_axes self axis in
    rbind (np_squeeze (_array self) squeezed) (fun array =>
    Ok (mk_obj array (_base_dims self)
               (remove_positions squeezed (ensemble_axes_metadata self)))).

(** [_reduce_ensemble(ensemble)] of [abtem/waves.py] on one array object;
    [reduce_ensemble] is the method of that name when the class of the
    object has one. *)
Definition _reduce_ensemble
    (reduce_ensemble : option (HasArray -> result HasArray))
    (ensemble : HasArray) : result HasArray :=
  let squeeze_axes :=
    fst <$> filter (fun im => _squeeze (snd im) = true)
              (imap pair (ensemble_axes_metadata ensemble)) in
  rbind (squeeze ensemble (Some (Z.of_nat <$> squeeze_axes))) (fun output =>
  match reduce_ensemble with
  | Some reduce => reduce output
  | None => Ok output
  end).

(** [_reduce_ensemble] on a list or tuple of array objects. *)
Fixpoint _reduce_ensemble_list
    (reduce_ensemble : option (HasArray -> result HasArray))
    (ensembles : list HasArray) : result (list HasArray) :=
  match ensembles with
  | [] => Ok []
  | e :: es =>
      rbind (_reduce_ensemble reduce_ensemble e) (fun r =>
      rbind (_reduce_ensemble_list reduce_ensemble es) (fun rs =>
      Ok (r :: rs)))
  end.

(** Whether axis [i] is among the axes asked for. *)
Definition requested (self : HasArray) (axis : option (list Z)) (i : nat)
  : Prop :=
  match axis with
  | None => True
  | Some axis => Z.of_nat i ∈ normalize_axes axis (shape (_array self))
  end.

End Squeeze.

(** The axes [_reduce_ensemble] asks [squeeze] for: those whose metadata is
    squeeze-eligible. *)
Definition eligible_axes (self : HasArray) : list nat :=
  fst <$> filter (fun im => _squeeze (snd im) = true)
            (imap pair (ensemble_axes_metadata self)).

(** *** Notions and examples used in the statements *)

(** An index entry that basic indexing accepts on an axis of length [n]: an
    integer inside [-n, n), or a slice whose step is not zero. *)
Definition valid_item (n : nat) (it : index_item) : Prop :=
  match it with
  | ItInt i => - Z.of_nat n <= i < Z.of_nat n
  | ItSlice _ _ step => step <> Some 0
  | ItEllipsis | ItNone => False
  end.

Fixpoint valid_items (sh : list nat) (items : list index_item)
    {struct items} : Prop :=
  match items, sh with
  | [], _ => True
  | it :: items', n :: sh' => valid_item n it /\ valid_items sh' items'
  | _ :: _, [] => False
  end.

(** What [keep_dims] does to the index entries. *)
Definition keep_dims_item (it : index_item) : index_item :=
  match it with
  | ItInt i => ItSlice (Some i) (Some (i + 1)) None
  | _ => it
  end.

(** An instance of [normalize_axes]: negative axes count from the end. *)
Definition normalize_axes_example (axis : list Z) (sh : list nat) : list Z :=
  (fun d => if d <? 0 then d + Z.of_nat (length sh) else d) <$> axis.

(** An array of shape [(1, 3, 1, 2, 2)] with two base axes; the value at an
    index is the number its components spell. *)
Definition example_item (idx : list nat) : Qc :=
  q (Z.of_nat (foldl (fun acc i => acc * 10 + i)%nat 0%nat idx)) 1.

Definition example_object : HasArray :=
  mk_obj (mk_nd [1; 3; 1; 2; 2]%nat example_item) 2
         [ mk_axis UnknownAxis false;
           mk_axis (OrdinalAxis [q 1 1; q 2 1; q 3 1]) false;
           mk_axis RealSpaceAxis true ].

(** The example indexed by [[0, 1:]]. *)
Definition example_indexed_object : HasArray :=
  match get_items example_object
          (Tuple [ItInt 0; ItSlice (Some 1) None None]) false with
  | Ok r => r
  | Raise _ => example_object
  end.

(** *** Facts *)

Lemma elem_of_imap_filter {A} (f : nat -> A -> bool) (l : list A) i :
  i ∈ fst <$> filter (fun ia => snd ia = true)
                (imap (fun i n => (i, f i n)) l) <->
  exists n, l !! i = Some n /\ f i n = true.
Proof.
  rewrite list_elem_of_fmap. split.
  - intros ([i' b] & -> & [Hb Hin]%list_elem_of_filter). cbn [fst snd] in *.
    apply list_elem_of_lookup in Hin as [j Hj]. rewrite list_lookup_imap in Hj.
    destruct (l !! j) as [n|] eqn:E; cbn in Hj; [|done].
    injection Hj as <- <-. by exists n.
  - intros (n & Hn & Hf). exists (i, true). split; [done|].
    apply list_elem_of_filter. split; [done|].
    apply list_elem_of_lookup. exists i. rewrite list_lookup_imap, Hn. cbn.
    by rewrite Hf.
Qed.

(** The shape is the ensemble shape followed by the base shape. *)
Lemma shape_split (self : HasArray) :
  shape (_array self) = ensemble_shape self ++ base_shape self.
Proof.
  unfold ensemble_shape, base_shape, py_drop_last, py_take_last.
  destruct (decide (_base_dims self = 0%nat)); [done|].
  by rewrite take_drop.
Qed.

(** The ensemble part [squeeze] computes is the ensemble shape. *)
Lemma drop_last_base_shape (self : HasArray) :
  py_drop_last (shape (_array self)) (length (base_shape self)) =
  ensemble_shape self.
Proof.
  unfold ensemble_shape, base_shape, py_drop_last, py_take_last.
  destruct (decide (_base_dims self = 0%nat)) as [E|E].
  - destruct (decide (length (shape (_array self)) = 0%nat)); [done|].
    by rewrite Nat.sub_diag.
  - rewrite length_drop.
    destruct (decide (_ = 0%nat)) as [E'|E'].
    + rewrite take_ge; [|lia].
      destruct (shape (_array self)); [done|simpl in E'; lia].
    + f_equal. lia.
Qed.

Lemma elem_of_remove_positions {A} (positions : list nat) (l : list A) x :
  x ∈ remove_positions positions l <->
  exists i, l !! i = Some x /\ i ∉ positions.
Proof.
  unfold remove_positions. rewrite list_elem_of_fmap. split.
  - intros ([i y] & -> & [Hn Hin]%list_elem_of_filter). cbn [fst snd] in *.
    apply list_elem_of_lookup in Hin as [j Hj]. rewrite list_lookup_imap in Hj.
    destruct (l !! j) as [z|] eqn:E; cbn in Hj; [|done].
    injection Hj as <- <-. by exists j.
  - intros (i & Hi & Hn). exists (i, x). split; [done|].
    apply list_elem_of_filter. split; [done|].
    apply list_elem_of_lookup. exists i. by rewrite list_lookup_imap, Hi.
Qed.

(** Positions beyond a prefix do not touch what follows it. *)
Lemma remove_positions_app {A} (positions : list nat) (l k : list A) :
  Forall (fun p => (p < length l)%nat) positions ->
  remove_positions positions (l ++ k) = remove_positions positions l ++ k.
Proof.
  intros Hp. unfold remove_positions.
  rewrite imap_app, filter_app, fmap_app. f_equal.
  induction k as [|y k IH] using rev_ind; [done|].
  rewrite imap_app, filter_app, fmap_app, IH. f_equal.
  cbn [imap]. rewrite filter_cons_True; [done|].
  cbn [fst]. intros Hin. rewrite Forall_forall in Hp.
  specialize (Hp _ Hin). cbn in Hp. lia.
Qed.

(** The ensemble and base shapes of an object whose array has the base shape
    of [self] after some ensemble axes. *)
Lemma shapes_of_result (self r : HasArray) (ens : list nat) :
  shape (_array r) = ens ++ base_shape self ->
  _base_dims r = _base_dims self ->
  (ensemble_shape self = [] -> ens = []) ->
  ensemble_shape r = ens /\ base_shape r = base_shape self.
Proof.
  intros Hs Hb He. unfold ensemble_shape, base_shape in *.
  rewrite Hb, Hs. clear Hb Hs. unfold py_drop_last, py_take_last in *.
  destruct (decide (_base_dims self = 0%nat)) as [E|E].
  - by rewrite (He eq_refl).
  - set (sh := shape (_array self)) in *. set (bd := _base_dims self) in *.
    destruct (decide (length sh < bd)%nat) as [Hlt|Hge].
    + rewrite He; [|by replace (length sh - bd)%nat with 0%nat by lia].
      cbn [app]. replace (length sh - bd)%nat with 0%nat by lia.
      rewrite drop_0. replace (length sh - bd)%nat with 0%nat by lia.
      by rewrite take_0, drop_0.
    + assert (length (drop (length sh - bd) sh) = bd) as Hl
        by (rewrite length_drop; lia).
      rewrite length_app, Hl.
      replace (length ens + bd - bd)%nat with (length ens) by lia.
      by rewrite take_app_length, drop_app_length.
Qed.

Lemma base_shape_length (self : HasArray) :
  (length (base_shape self) <= length (shape (_array self)))%nat.
Proof.
  unfold base_shape, py_take_last. destruct (decide _); [done|].
  rewrite length_drop. lia.
Qed.

Section Squeeze_facts.

Context (normalize_axes : list Z -> list nat -> list Z).

Lemma elem_of_squeezed_axes self axis i :
  i ∈ squeezed_axes normalize_axes self axis <->
  ensemble_shape self !! i = Some 1%nat /\ requested normalize_axes self axis i.
Proof.
  unfold squeezed_axes. rewrite elem_of_imap_filter, drop_last_base_shape.
  split.
  - intros (n & Hn & [->%bool_decide_eq_true Hax%bool_decide_eq_true]%andb_true_iff).
    split; [done|]. by destruct axis.
  - intros [Hn Hr]. exists 1%nat. split; [done|].
    rewrite bool_decide_eq_true_2 by done. cbn [andb].
    apply bool_decide_eq_true_2. destruct axis as [axis|]; [done|].
    apply list_elem_of_fmap. exists i. split; [done|].
    apply elem_of_seq. apply lookup_lt_Some in Hn.
    rewrite shape_split, length_app. lia.
Qed.

Lemma squeezed_axes_lt self axis :
  Forall (fun p => (p < length (ensemble_shape self))%nat)
         (squeezed_axes normalize_axes self axis).
Proof.
  apply Forall_forall. intros i [Hi _]%elem_of_squeezed_axes.
  by apply lookup_lt_Some in Hi.
Qed.

Lemma squeeze_spec self axis :
  let sq := squeezed_axes normalize_axes self axis in
  exists r,
    squeeze normalize_axes self axis = Ok r /\
    _base_dims r = _base_dims self /\
    ensemble_shape r = remove_positions sq (ensemble_shape self) /\
    base_shape r = base_shape self /\
    ensemble_axes_metadata r =
      remove_positions sq (ensemble_axes_metadata self) /\
    forall out,
      item (_array r) out =
      item (_array self)
           (unsqueeze_index sq 0 (length (shape (_array self))) out).
Proof.
  intros sq. unfold squeeze.
  destruct (Nat.ltb_spec (length (shape (_array self)))
                         (length (base_shape self))) as [Hlt|_].
  { pose proof (base_shape_length self). lia. }
  fold sq. unfold np_squeeze.
  assert (forallb (fun p => bool_decide (shape (_array self) !! p = Some 1%nat))
                  sq = true) as ->.
  { apply forallb_forall. intros p Hp%list_elem_of_In.
    apply elem_of_squeezed_axes in Hp as [Hp _].
    apply bool_decide_eq_true_2. rewrite shape_split.
    by apply lookup_app_l_Some. }
  cbn [rbind]. eexists. split; [done|]. cbn [_base_dims ensemble_axes_metadata _array item].
  split; [done|].
  assert (ensemble_shape
            {| _array := {| shape := remove_positions sq (shape (_array self));
                            item := fun out => item (_array self)
                              (unsqueeze_index sq 0
                                 (length (shape (_array self))) out) |};
               _base_dims := _base_dims self;
               ensemble_axes_metadata :=
                 remove_positions sq (ensemble_axes_metadata self) |}
          = remove_positions sq (ensemble_shape self) /\
          base_shape
            {| _array := {| shape := remove_positions sq (shape (_array self));
                            item := fun out => item (_array self)
                              (unsqueeze_index sq 0
                                 (length (shape (_array self))) out) |};
               _base_dims := _base_dims self;
               ensemble_axes_metadata :=
                 remove_positions sq (ensemble_axes_metadata self) |}
          = base_shape self) as [-> ->].
  { apply shapes_of_result; cbn [_array shape _base_dims]; [|done|].
    - rewrite (shape_split self) at 1.
      apply remove_positions_app, squeezed_axes_lt.
    - by intros ->. }
  done.
Qed.

(** What the development assumes of [normalize_axes]: axes that are not
    negative are left as they are. *)
Hypothesis normalize_axes_nonneg :
  forall (axis : list nat) (sh : list nat),
    normalize_axes (Z.of_nat <$> axis) sh = Z.of_nat <$> axis.

Lemma elem_of_eligible_axes self i :
  i ∈ eligible_axes self <->
  exists m, ensemble_axes_metadata self !! i = Some m /\ _squeeze m = true.
Proof.
  unfold eligible_axes. rewrite list_elem_of_fmap. split.
  - intros ([i' m] & -> & [Hm Hin]%list_elem_of_filter). cbn [fst snd] in *.
    apply list_elem_of_lookup in Hin as [j Hj]. rewrite list_lookup_imap in Hj.
    destruct (ensemble_axes_metadata self !! j) as [m'|] eqn:E; cbn in Hj;
      [|done].
    injection Hj as <- <-. by exists m'.
  - intros (m & Hm & Hs). exists (i, m). split; [done|].
    apply list_elem_of_filter. split; [done|].
    apply list_elem_of_lookup. exists i. by rewrite list_lookup_imap, Hm.
Qed.


End Squeeze_facts.

Lemma normalize_axes_example_nonneg (axis : list nat) (sh : list nat) :
  normalize_axes_example (Z.of_nat <$> axis) sh = Z.of_nat <$> axis.
Proof.
  unfold normalize_axes_example. rewrite <- list_fmap_compose.
  apply list_fmap_ext. intros _ a _. cbn.
  destruct (Z.ltb_spec (Z.of_nat a) 0); [lia|done].
Qed.



Lemma selectors_length sh items sels :
  selectors sh items = Ok sels -> length sels = length items.
Proof.
  revert sh sels. induction items as [|it items IH]; intros sh sels.
  - destruct sh; by intros [= <-].
  - destruct sh as [|n sh]; [done|]. cbn [selectors].
    destruct (select_axis n it); cbn [rbind]; [|done].
    destruct (selectors sh items) eqn:E; cbn [rbind]; [|done].
    intros [= <-]. cbn. f_equal. by eapply IH.
Qed.

Lemma out_shape_app sels ens base :
  (length sels <= length ens)%nat ->
  out_shape sels (ens ++ base) = out_shape sels ens ++ base.
Proof.
  revert ens. induction sels as [|[i|l] sels IH]; intros [|n ens] H;
    cbn in *; try done; try lia.
  - apply IH. lia.
  - f_equal. apply IH. lia.
Qed.

Lemma out_shape_nil sels ens : ens = [] -> out_shape sels ens = [].
Proof. intros ->. by destruct sels as [|[|]]. Qed.

(** Indexing the ensemble axes leaves the base components of an index where
    they are. *)
Lemma source_index_app sels ens e :
  (length sels <= length ens)%nat ->
  length e = length (out_shape sels ens) ->
  exists e', length e' = length ens /\
             forall b, source_index sels (e ++ b) = e' ++ b.
Proof.
  revert ens e. induction sels as [|[i|l] sels IH]; intros ens e Hs He.
  - exists e. split; [by destruct ens|done].
  - destruct ens as [|n ens]; cbn in Hs; [lia|]. cbn in He.
    destruct (IH ens e ltac:(lia) He) as (e' & Hl & Hb).
    exists (i :: e'). split; [cbn; lia|]. intros b. cbn. by rewrite Hb.
  - destruct ens as [|n ens]; cbn in Hs; [lia|]. cbn in He.
    destruct e as [|j e]; [done|]. cbn in He.
    destruct (IH ens e ltac:(lia) ltac:(lia)) as (e' & Hl & Hb).
    exists (nth j l 0%nat :: e'). split; [cbn; lia|]. intros b. cbn.
    by rewrite Hb.
Qed.

Lemma slice_indices_Ok len start stop step :
  step <> Some 0 -> exists l, slice_indices len start stop step = Ok l.
Proof.
  intros Hs. unfold slice_indices.
  destruct (Z.eqb_spec (default 1 step) 0) as [E|E]; [|by eexists].
  destruct step as [s|]; cbn in E; [|lia]. by subst.
Qed.

Lemma select_axis_Ok n it :
  valid_item n it -> exists s, select_axis n it = Ok s.
Proof.
  destruct it as [i|a b c| |]; cbn; try done.
  - intros [H1 H2]. unfold Grid.normalize_index.
    destruct (Z.leb_spec 0 i), (Z.ltb_spec i (Z.of_nat n)); cbn;
      try (by eexists).
    + lia.
    + destruct (Z.leb_spec (- Z.of_nat n) i), (Z.ltb_spec i 0); cbn;
        try (by eexists); lia.
    + lia.
  - intros Hs. destruct (slice_indices_Ok (Z.of_nat n) a b c Hs) as [l ->].
    by eexists.
Qed.

Lemma selectors_Ok sh items :
  valid_items sh items -> exists sels, selectors sh items = Ok sels.
Proof.
  revert sh. induction items as [|it items IH]; intros sh H.
  - exists []. by destruct sh.
  - destruct sh as [|n sh]; [done|]. destruct H as [Hit Hits]. cbn.
    destruct (select_axis_Ok n it Hit) as [s ->].
    destruct (IH sh Hits) as [ss ->]. by eexists.
Qed.

Lemma valid_items_app sh base items :
  valid_items sh items -> valid_items (sh ++ base) items.
Proof.
  revert sh. induction items as [|it items IH]; intros [|n sh]; cbn; try done.
  intros [? ?]. split; [done|]. by apply IH.
Qed.

Lemma valid_items_keep_dims sh items :
  valid_items sh items -> valid_items sh (keep_dims_item <$> items).
Proof.
  revert sh. induction items as [|it items IH]; intros [|n sh]; cbn; try done.
  intros [Hit Hits]. split; [|by apply IH].
  destruct it; cbn in *; done.
Qed.

Lemma axis_to_remove_from_Ok sh items k :
  valid_items sh items ->
  exists l,
    axis_to_remove_from k items = Ok l /\
    Forall (fun a => (a < k + length items)%nat) l /\
    forall j z, items !! j = Some (ItInt z) -> (k + j)%nat ∈ l.
Proof.
  revert sh k. induction items as [|it items IH]; intros sh k H.
  - exists []. by repeat split.
  - destruct sh as [|n sh]; [done|]. destruct H as [Hit Hits].
    destruct (IH sh (S k) Hits) as (l & Hl & Hlt & Hin).
    destruct it as [i|a b c| |]; cbn in Hit; try done; cbn; rewrite Hl; cbn.
    + exists (k :: l). split; [done|]. split.
      * constructor; [lia|]. eapply Forall_impl; [done|]. cbn. lia.
      * intros [|j] z Hj; cbn in Hj.
        -- rewrite Nat.add_0_r. by left.
        -- right. replace (k + S j)%nat with (S k + j)%nat by lia. eauto.
    + exists l. split; [done|]. split.
      * eapply Forall_impl; [done|]. cbn. lia.
      * intros [|j] z Hj; cbn in Hj; [done|].
        replace (k + S j)%nat with (S k + j)%nat by lia. eauto.
Qed.

Lemma new_axes_metadata_from_Ok sh items k atr metadata :
  valid_items sh items ->
  (forall j z, items !! j = Some (ItInt z) -> (k + j)%nat ∈ atr) ->
  exists nl, new_axes_metadata_from k atr metadata items = Ok nl.
Proof.
  revert sh k metadata. induction items as [|it items IH];
    intros sh k metadata H Hin.
  - destruct metadata; by eexists.
  - destruct metadata as [|m metadata]; [by eexists|].
    destruct sh as [|n sh]; [done|]. destruct H as [Hit Hits]. cbn.
    assert (exists new,
      (if decide (k ∈ atr) then Ok []
       else match kind m with
            | OrdinalAxis values =>
                rbind (ordinal_getitem values (_squeeze m) it)
                      (fun m' => Ok [m'])
            | _ => Ok [m]
            end) = Ok new) as [new ->].
    { destruct (decide (k ∈ atr)) as [|Hn]; [by eexists|].
      destruct (kind m); try (by eexists).
      destruct it as [i|a b c| |]; cbn in Hit; try done.
      - exfalso. apply Hn. specialize (Hin 0%nat i eq_refl).
        by rewrite Nat.add_0_r in Hin.
      - cbn. destruct (slice_indices_Ok (Z.of_nat (length values)) a b c Hit)
          as [l ->]. by eexists. }
    cbn. destruct (IH sh (S k) metadata Hits) as [nl ->].
    + intros j z Hj. replace (S k + j)%nat with (k + S j)%nat by lia.
      by apply (Hin (S j) z).
    + by eexists.
Qed.

(** What a successful [get_items] did: it indexed the array with at most as
    many entries as there are ensemble axes. *)
Lemma get_items_Ok_inv self items keep_dims r :
  get_items self items keep_dims = Ok r ->
  exists items' sels,
    (length items' <= length (ensemble_shape self))%nat /\
    selectors (shape (_array self)) items' = Ok sels /\
    _base_dims r = _base_dims self /\
    shape (_array r) = out_shape sels (shape (_array self)) /\
    forall out, item (_array r) out =
                item (_array self) (source_index sels out).
Proof.
  unfold get_items.
  destruct (match items with
            | Single (ItInt i) => _ | Single (ItSlice a b c) => _
            | Tuple its => _ | _ => _ end) as [items0|]; cbn [rbind]; [|done].
  set (items' := if keep_dims then _ else items0).
  destruct (Nat.ltb_spec (length (ensemble_shape self)) (length items'))
    as [|Hlen]; [done|].
  destruct (axis_to_remove_from 0 items'); cbn [rbind]; [|done].
  destruct (_is_base_axis self _); [done|].
  destruct (new_axes_metadata_from _ _ _ _); cbn [rbind]; [|done].
  unfold getitem.
  destruct (selectors (shape (_array self)) items') as [sels|] eqn:Hsel;
    cbn [rbind]; [|done].
  intros [= <-]. by exists items', sels.
Qed.

(** C8 (base axes cannot be indexed).  An index tuple with more entries
    than there are ensemble axes makes [get_items], and so [__getitem__],
    raise [RuntimeError]; whenever [get_items] returns, the base shape is
    unchanged and the element of the result at ensemble index [e] and base
    index [b] is the element of the indexed object at some ensemble index
    [e'] and the same base index [b], so no entry ever indexes a base axis;
    and a tuple of integers inside the range of their axes and of slices with
    a nonzero step, no longer than the ensemble axes, is indexed without
    error. *)
Theorem get_items_base_axes :
  (forall (self : HasArray) (its : list index_item) (keep_dims : bool),
      (length (ensemble_shape self) < length its)%nat ->
      get_items self (Tuple its) keep_dims = Raise RuntimeError /\
      __getitem__ self (Tuple its) = Raise RuntimeError) /\
  (forall (self : HasArray) (items : items_arg) (keep_dims : bool)
          (r : HasArray),
      get_items self items keep_dims = Ok r ->
      base_shape r = base_shape self /\
      forall e, length e = length (ensemble_shape r) ->
                exists e', length e' = length (ensemble_shape self) /\
                           forall b, item (_array r) (e ++ b) =
                                     item (_array self) (e' ++ b)) /\
  (forall (self : HasArray) (its : list index_item) (keep_dims : bool),
      (length its <= length (ensemble_shape self))%nat ->
      valid_items (ensemble_shape self) its ->
      exists r, get_items self (Tuple its) keep_dims = Ok r).
Proof.
  split; [|split].
  - assert (forall self its keep_dims,
      (length (ensemble_shape self) < length its)%nat ->
      get_items self (Tuple its) keep_dims = Raise RuntimeError) as H.
    { intros self its keep_dims Hlen. unfold get_items. cbn [rbind].
      assert (length (if keep_dims
                      then (fun it => match it with
                                      | ItInt i =>
                                          ItSlice (Some i) (Some (i + 1)) None
                                      | _ => it
                                      end) <$> its
                      else its) = length its) as Hl
        by (destruct keep_dims; [by rewrite length_fmap|done]).
      rewrite Hl.
      by destruct (Nat.ltb_spec (length (ensemble_shape self)) (length its));
        [|lia]. }
    intros self its keep_dims Hlen. split; [by apply H|].
    unfold __getitem__. by apply H.
  - intros self items keep_dims r Hr.
    apply get_items_Ok_inv in Hr
      as (items' & sels & Hlen & Hsel & Hbd & Hshape & Hitem).
    pose proof (selectors_length _ _ _ Hsel) as Hsl.
    rewrite (shape_split self), out_shape_app in Hshape by lia.
    destruct (shapes_of_result self r _ Hshape Hbd) as [He Hb].
    { apply out_shape_nil. }
    split; [done|]. intros e Hle. rewrite He in Hle.
    destruct (source_index_app sels (ensemble_shape self) e ltac:(lia) Hle)
      as (e' & Hl' & Hsrc).
    exists e'. split; [done|]. intros b. by rewrite Hitem, Hsrc.
  - intros self its keep_dims Hlen Hvalid. unfold get_items. cbn [rbind].
    set (items' := if keep_dims then _ else its).
    assert (valid_items (ensemble_shape self) items' /\
            length items' = length its) as [Hv Hl].
    { unfold items'. destruct keep_dims; [|done]. split.
      - by apply valid_items_keep_dims.
      - by rewrite length_fmap. }
    rewrite Hl.
    destruct (Nat.ltb_spec (length (ensemble_shape self)) (length its));
      [lia|].
    destruct (axis_to_remove_from_Ok _ _ 0%nat Hv) as (atr & -> & Hlt & Hin).
    cbn [rbind].
    assert (_is_base_axis self atr = false) as ->.
    { unfold _is_base_axis. apply not_true_is_false.
      intros (a & Ha & Hb)%existsb_exists.
      apply list_elem_of_In in Ha. rewrite Forall_forall in Hlt.
      specialize (Hlt a Ha). cbn in Hlt.
      apply andb_true_iff in Hb as [Hb _]. apply Nat.leb_le in Hb. lia. }
    destruct (new_axes_metadata_from_Ok _ _ 0%nat atr
                (ensemble_axes_metadata self) Hv Hin) as [nl ->].
    cbn [rbind]. unfold getitem.
    destruct (selectors_Ok (shape (_array self)) items') as [sels ->].
    { rewrite shape_split. by apply valid_items_app. }
    cbn [rbind]. by eexists.
Qed.

Lemma get_items_base_axes_witness :
  (get_items example_object (Tuple [ItInt 0; ItInt 1; ItInt 0; ItInt 0]) false
     = Raise RuntimeError /\
   __getitem__ example_object (Tuple [ItInt 0; ItInt 1; ItInt 0; ItInt 0])
     = Raise RuntimeError) /\
  (base_shape example_indexed_object = base_shape example_object /\
   forall e, length e = length (ensemble_shape example_indexed_object) ->
             exists e', length e' = length (ensemble_shape example_object) /\
                        forall b, item (_array example_indexed_object) (e ++ b) =
                                  item (_array example_object) (e' ++ b)) /\
  (exists r, get_items example_object (Tuple [ItInt 0; ItInt (-1)]) false
             = Ok r).
Proof.
  destruct get_items_base_axes as (H1 & H2 & H3).
  split; [|split].
  - apply (H1 example_object [ItInt 0; ItInt 1; ItInt 0; ItInt 0] false).
    vm_compute. lia.
  - apply (H2 example_object (Tuple [ItInt 0; ItSlice (Some 1) None None])
              false example_indexed_object).
    reflexivity.
  - apply (H3 example_object [ItInt 0; ItInt (-1)] false).
    + vm_compute. lia.
    + repeat split; vm_compute; (reflexivity || discriminate).
Defined.

Lemma get_items_example :
  shape (_array example_indexed_object) = [2; 1; 2; 2]%nat /\
  kind <$> ensemble_axes_metadata example_indexed_object =
    [OrdinalAxis [q 2 1; q 3 1]; RealSpaceAxis] /\
  item (_array example_indexed_object) [1; 0; 1; 0]%nat =
    item (_array example_object) [0; 2; 0; 1; 0]%nat /\
  get_items example_object (Tuple [ItInt 0; ItInt 5]) false = Raise IndexError /\
  get_items example_object (Tuple [ItEllipsis; ItInt 0]) false
    = Raise NotImplementedError.
Proof. repeat split; reflexivity. Qed.

End ArrayObject.

(** ** The entry points of the multislice propagator

    [Waves.multislice] of [abtem/waves/waves.py] and [Waves.apply_ctf] of
    [abtem/waves.py] and [abtem/waves/waves.py]. *)

Module Multislice.

Record Grid : Type := mk_grid {
  extent : option (Qc * Qc);
  gpts : option (Z * Z)
}.

Record Accelerator : Type := mk_accelerator {
  energy : option Qc
}.

(** Two values that are both defined and differ. *)
Definition mismatch {A} `{EqDecision A} (a b : option A) : bool :=
  match a, b with
  | Some x, Some y => negb (bool_decide (x = y))
  | _, _ => false
  end.

(** Modelled from the spec: [Grid.match] and [Grid.check_is_defined] of
    [abtem.core.grid], which are not part of the sources at hand.  "Grid or
    energy mismatch between wave and potential/CTF is fatal"; "undefined
    grid/energy [...]: fatal, raised immediately". *)
Definition Grid_match (self other : Grid) : result unit :=
  if mismatch (extent self) (extent other) || mismatch (gpts self) (gpts other)
  then Raise RuntimeError
  else Ok tt.

Definition Grid_check_is_defined (self : Grid) : result unit :=
  match extent self, gpts self with
  | Some _, Some _ => Ok tt
  | _, _ => Raise RuntimeError
  end.

(** Modelled from the spec: [Accelerator.match] and
    [Accelerator.check_is_defined] of [abtem.core.energy], which are not part
    of the sources at hand, on the same words.  [check_match] is the keyword
    argument the callers pass; the words of the spec make a mismatch fatal
    with and without it. *)
Definition Accelerator_match (self other : Accelerator) (check_match : bool)
  : result unit :=
  if mismatch (energy self) (energy other) then Raise RuntimeError else Ok tt.

Definition Accelerator_check_is_defined (self : Accelerator) : result unit :=
  match energy self with
  | Some _ => Ok tt
  | None => Raise RuntimeError
  end.

(** What the propagation does to a wave, as a log: a slice transmitted, a
    slice propagated through, a kernel convolved with. *)
Inductive event : Type :=
| Transmitted (slice : nat)
| Propagated (slice : nat)
| Convolved.

(** A computation that appends to the log and may raise. *)
Definition T (A : Type) : Type := list event -> result A * list event.

Definition T_ret {A} (a : A) : T A := fun log => (Ok a, log).
Definition T_raise {A} (e : exn) : T A := fun log => (Raise e, log).
Definition T_bind {A B} (m : T A) (k : A -> T B) : T B :=
  fun log => match m log with
             | (Ok a, log') => k a log'
             | (Raise e, log') => (Raise e, log')
             end.
Definition T_lift {A} (r : result A) : T A := fun log => (r, log).
Definition T_log (e : event) : T unit := fun log => (Ok tt, log ++ [e]).

#[global] Instance T_mret : MRet T := @T_ret.
#[global] Instance T_mbind : MBind T := fun A B k m => T_bind m k.

Section Propagation.

(** The array of a wave function, a slice of the potential and a transfer
    kernel, with the numerical operations on them, are not part of the
    sources at hand: they are parameters of the development. *)
Variable wave_array : Type.
Variable potential_slice : Type.
Variable kernel : Type.
Variable transmit : potential_slice -> wave_array -> wave_array.
Variable propagate : potential_slice -> wave_array -> wave_array.
Variable stack : list wave_array -> wave_array.
Variable fft2_convolve : wave_array -> kernel -> wave_array.

Record Waves : Type := mk_waves {
  grid : Grid;
  accelerator : Accelerator;
  array : wave_array
}.

Record Potential : Type := mk_potential {
  potential_grid : Grid;
  configurations : list (list potential_slice)
}.

Record CTF : Type := mk_ctf {
  ctf_accelerator : Accelerator;
  evaluate_on_grid : Grid -> kernel
}.

(** Modelled from the spec: the function [multislice] of
    [abtem.waves.multislice], which is not part of the sources at hand.  "For
    each depth slice, multiplies the wave by a transmission function,
    Fourier-propagates it by the slice thickness." *)
Fixpoint multislice_from (i : nat) (waves : Waves)
    (slices : list potential_slice) : T Waves :=
  match slices with
  | [] => mret waves
  | s :: slices' =>
      T_log (Transmitted i);;
      let waves := mk_waves (grid waves) (accelerator waves)
                            (transmit s (array waves)) in
      T_log (Propagated i);;
      let waves := mk_waves (grid waves) (accelerator waves)
                            (propagate s (array waves)) in
      multislice_from (S i) waves slices'
  end.

Definition multislice_function (waves : Waves)
    (slices : list potential_slice) : T Waves :=
  multislice_from 0 waves slices.

(** [for p in potential.get_potential_configurations(...):
       exit_waves.append(multislice(self.copy(), p))] *)
Fixpoint exit_waves_of (self : Waves)
    (configs : list (list potential_slice)) : T (list Waves) :=
  match configs with
  | [] => mret []
  | p :: configs' =>
      w ← multislice_function self p;
      ws ← exit_waves_of self configs';
      mret (w :: ws)
  end.

(** [Waves.multislice(potential)] of [abtem/waves/waves.py].
    [self._validate_potential], which is not part of the sources at hand,
    comes after the three checks and is taken to hand the potential on as it
    is. *)
Definition Waves_multislice (self : Waves) (potential : Potential) : T Waves :=
  T_lift (Grid_match (grid self) (potential_grid potential));;
  T_lift (Grid_check_is_defined (grid self));;
  T_lift (Accelerator_check_is_defined (accelerator self));;
  exit_waves ← exit_waves_of self (configurations potential);
  match exit_waves with
  | [] => T_raise IndexError
  | [w] => mret w
  | _ => mret (mk_waves (grid self) (accelerator self)
                        (stack (array <$> exit_waves)))
  end.

(** [not ctf.accelerator.energy]: the energy is [None] or zero. *)
Definition energy_is_falsy (a : Accelerator) : bool :=
  match energy a with
  | None => true
  | Some e => bool_decide (e = 0%Qc)
  end.

(** The checks that open [Waves.apply_ctf] in both files. *)
Definition apply_ctf_checks (self : Waves) (ctf : CTF) : T unit :=
  (if energy_is_falsy (ctf_accelerator ctf)
   then T_lift (Accelerator_match (ctf_accelerator ctf) (accelerator self)
                                  false)
   else mret tt);;
  T_lift (Accelerator_match (accelerator self) (ctf_accelerator ctf) true);;
  T_lift (Accelerator_check_is_defined (accelerator self)).

Definition convolve_with (self : Waves) (ctf : CTF) : T Waves :=
  T_log Convolved;;
  mret (mk_waves (grid self) (accelerator self)
                 (fft2_convolve (array self) (evaluate_on_grid ctf (grid self)))).

(** [Waves.apply_ctf(ctf)] of [abtem/waves.py]; [apply_transform] is not
    part of the sources at hand and is taken to convolve with the kernel of
    the transfer function. *)
Definition Waves_apply_ctf (self : Waves) (ctf : CTF) : T Waves :=
  apply_ctf_checks self ctf;;
  convolve_with self ctf.

(** [Waves.apply_ctf(ctf)] of [abtem/waves/waves.py], which also checks the
    grid. *)
Definition Waves_apply_ctf_on_grid (self : Waves) (ctf : CTF) : T Waves :=
  apply_ctf_checks self ctf;;
  T_lift (Grid_check_is_defined (grid self));;
  convolve_with self ctf.

(** The configurations the claim is about. *)
Definition grid_undefined (g : Grid) : Prop :=
  extent g = None \/ gpts g = None.

Definition grid_mismatched (g g' : Grid) : Prop :=
  mismatch (extent g) (extent g') = true \/ mismatch (gpts g) (gpts g') = true.

Definition energy_undefined (a : Accelerator) : Prop := energy a = None.

Definition energy_mismatched (a a' : Accelerator) : Prop :=
  mismatch (energy a) (energy a') = true.

End Propagation.

Arguments mk_waves {wave_array} grid accelerator array.
Arguments grid {wave_array} w.
Arguments accelerator {wave_array} w.
Arguments array {wave_array} w.
Arguments mk_potential {potential_slice} potential_grid configurations.
Arguments potential_grid {potential_slice} p.
Arguments configurations {potential_slice} p.
Arguments mk_ctf {kernel} ctf_accelerator evaluate_on_grid.
Arguments ctf_accelerator {kernel} c.
Arguments evaluate_on_grid {kernel} c.
Arguments multislice_from {wave_array potential_slice}.
Arguments multislice_function {wave_array potential_slice}.
Arguments exit_waves_of {wave_array potential_slice}.
Arguments Waves_multislice {wave_array potential_slice}.
Arguments apply_ctf_checks {wave_array kernel}.
Arguments convolve_with {wave_array kernel}.
Arguments Waves_apply_ctf {wave_array kernel}.
Arguments Waves_apply_ctf_on_grid {wave_array kernel}.

(** *** An instance

    Waves are lists of numbers, a slice multiplies by a number and a kernel
    is a number. *)
Definition example_transmit (s : Qc) (a : list Qc) : list Qc :=
  (fun x => (x * s)%Qc) <$> a.
Definition example_propagate (s : Qc) (a : list Qc) : list Qc := a.
Definition example_convolve (a : list Qc) (k : Qc) : list Qc :=
  (fun x => (x * k)%Qc) <$> a.

Definition example_grid : Grid :=
  mk_grid (Some (q 10 1, q 10 1)) (Some (64, 64)).

Definition example_waves : Waves (list Qc) :=
  mk_waves example_grid (mk_accelerator (Some (q 100000 1))) [1%Qc].

Definition example_waves_without_energy : Waves (list Qc) :=
  mk_waves example_grid (mk_accelerator None) [1%Qc].

Definition example_potential : Potential Qc :=
  mk_potential example_grid [[q 1 2; q 1 3]].

Definition example_potential_other_grid : Potential Qc :=
  mk_potential (mk_grid (Some (q 10 1, q 10 1)) (Some (32, 32)))
               [[q 1 2; q 1 3]].

Definition example_ctf : CTF Qc :=
  mk_ctf (mk_accelerator (Some (q 80000 1))) (fun _ => 1%Qc).

Definition example_multislice :=
  Waves_multislice example_transmit example_propagate (@concat Qc).

(** *** Facts *)

Section Propagation_facts.

Context {wave_array potential_slice kernel : Type}
        (transmit propagate : potential_slice -> wave_array -> wave_array)
        (stack : list wave_array -> wave_array)
        (fft2_convolve : wave_array -> kernel -> wave_array).

Lemma Grid_match_mismatched (g g' : Grid) :
  grid_mismatched g g' -> Grid_match g g' = Raise RuntimeError.
Proof.
  unfold grid_mismatched, Grid_match. intros [-> | ->]; [done|].
  by rewrite orb_true_r.
Qed.

Lemma Grid_check_undefined (g : Grid) :
  grid_undefined g -> Grid_check_is_defined g = Raise RuntimeError.
Proof.
  unfold grid_undefined, Grid_check_is_defined. intros [-> | ->]; [done|].
  by destruct (extent g).
Qed.

Lemma apply_ctf_checks_fail (self : Waves wave_array) (ctf : CTF kernel)
    (log : list event) :
  energy_undefined (accelerator self) \/
  energy_mismatched (accelerator self) (ctf_accelerator ctf) ->
  apply_ctf_checks self ctf log = (Raise RuntimeError, log).
Proof.
  unfold apply_ctf_checks, energy_undefined, energy_mismatched.
  unfold mbind, T_mbind, T_bind, T_lift, mret, T_mret, T_ret.
  unfold Accelerator_match, Accelerator_check_is_defined.
  intros H.
  destruct (energy_is_falsy (ctf_accelerator ctf));
    [destruct (mismatch (energy (ctf_accelerator ctf))
                        (energy (accelerator self))); [done|]|];
    (destruct (mismatch (energy (accelerator self))
                        (energy (ctf_accelerator ctf))); [done|]);
    (destruct H as [-> | H]; [done|discriminate H]).
Qed.

Lemma apply_ctf_checks_cases (self : Waves wave_array) (ctf : CTF kernel)
    (log : list event) :
  apply_ctf_checks self ctf log = (Ok tt, log) \/
  apply_ctf_checks self ctf log = (Raise RuntimeError, log).
Proof.
  unfold apply_ctf_checks.
  unfold mbind, T_mbind, T_bind, T_lift, mret, T_mret, T_ret.
  unfold Accelerator_match, Accelerator_check_is_defined.
  repeat (case_match; simplify_eq; cbn); auto.
Qed.


End Propagation_facts.


(** With defined and matching grids and a defined energy the slices are
    processed in order. *)
Lemma multislice_processes_slices :
  exists w,
    example_multislice example_waves example_potential []
    = (Ok w,
       [Transmitted 0; Propagated 0; Transmitted 1; Propagated 1]) /\
    array w = [q 1 6].
Proof.
  eexists. split; [reflexivity|]. cbn. f_equal; apply Qc_is_canon; reflexivity.
Qed.

End Multislice.

(** ** [abtem/slicing.py]: queries of the slice-indexed variant and
    subscripting *)

Module SliceQueries.

Import Slicing.

(** [l[start:stop]] for a Python list or tuple: a negative bound counts from
    the end, and a bound outside the list is the nearer end. *)
Definition py_slice {A} (l : list A) (start stop : Z) : list A :=
  let n := Z.of_nat (length l) in
  let clamp v := if v <? 0 then Z.max (v + n) 0 else Z.min v n in
  take (Z.to_nat (clamp stop - clamp start)) (drop (Z.to_nat (clamp start)) l).

(** A list of results as the result of a list: the first error is the
    error. *)
Fixpoint collect {A} (l : list (result A)) : result (list A) :=
  match l with
  | [] => Ok []
  | r :: l' => rbind r (fun a => rbind (collect l') (fun l'' => Ok (a :: l'')))
  end.

(** [atoms[indices]] of ASE for an array of integer indices: a copy that
    holds the selected atoms in the order of the indices, with the same
    cell. *)
Definition atoms_take (atoms : Atoms) (indices : list nat) : result Atoms :=
  rbind (collect ((fun i => match atom_list atoms !! i with
                            | Some a => Ok a
                            | None => Raise IndexError
                            end) <$> indices)) (fun l =>
  Ok (mk_Atoms l (cell atoms))).

(** [atoms[atoms.numbers == atomic_number]] *)
Definition atoms_of_number (atoms : Atoms) (n : Z) : Atoms :=
  mk_Atoms (filter (fun a => number a = n) (atom_list atoms)) (cell atoms).

(** [atoms.cell[2, 2] = zz] *)
Definition set_cell_depth (atoms : Atoms) (zz : Qc) : Atoms :=
  let '(r0, r1, (zx, zy, _)) := cell atoms in
  mk_Atoms (atom_list atoms) (r0, r1, (zx, zy, zz)).

(** [atoms.positions[:, 2] -= d] *)
Definition lower (d : Qc) (a : atom) : atom :=
  let '(x, y, z) := position a in mk_atom (x, y, (z - d)%Qc) (number a).

(** The same on every atom of a structure. *)
Definition shift_z (atoms : Atoms) (d : Qc) : Atoms :=
  mk_Atoms (lower d <$> atom_list atoms) (cell atoms).

(** [SliceIndexedAtoms.get_atoms_in_slices(first_slice, last_slice=None,
    atomic_number=None)].  [numpy.concatenate] of no arrays is a
    [ValueError]. *)
Definition get_atoms_in_slices (self : SliceIndexedAtoms) (first_slice : Z)
    (last_slice : option Z) (atomic_number : option Z) : result Atoms :=
  let last_slice := default first_slice last_slice in
  let base := indexed_base self in
  rbind (if last_slice - first_slice <? 2
         then py_index (_slice_index self) first_slice
         else match py_slice (_slice_index self) first_slice last_slice with
              | [] => Raise ValueError
              | arrays => Ok (concat arrays)
              end) (fun in_slice =>
  rbind (atoms_take (_atoms base) in_slice) (fun atoms =>
  let atoms :=
    match atomic_number with
    | Some n => atoms_of_number atoms n
    | None => atoms
    end in
  let slice_thickness :=
    py_slice (_slice_thickness base) first_slice last_slice in
  let atoms := set_cell_depth atoms (Qcsum slice_thickness) in
  Ok (shift_z atoms (Qcsum (py_slice (_slice_thickness base) 0 first_slice))))).

(** The depth bin of slice [k]: from the start of the slice, or from
    anywhere below for the first slice, up to the end of the slice. *)
Definition in_bin (st : list Qc) (k : nat) (a : atom) : Prop :=
  (k = 0%nat \/ (depth_before st k <= pos_z a)%Qc) /\
  (pos_z a < depth_before st (S k))%Qc.

#[global] Instance in_bin_dec st k a : Decision (in_bin st k a).
Proof. unfold in_bin. apply _. Defined.

(** The atoms of the slices [first], ..., [last - 1], slice by slice. *)
Definition atoms_in_bins (st : list Qc) (atoms : list atom)
    (first last : nat) : list atom :=
  concat ((fun k => filter (in_bin st k) atoms) <$> seq first (last - first)).

(** The atoms of one atomic number, or all of them when none is asked
    for. *)
Definition with_number (atomic_number : option Z) (l : list atom)
  : list atom :=
  match atomic_number with
  | Some n => filter (fun a => number a = n) l
  | None => l
  end.

(** The atoms whose label is [first], ..., [last - 1], label by label; the
    label of an atom is the position [numpy.digitize] finds for its depth
    among the cumulated thicknesses. *)
Definition atoms_with_labels (st : list Qc) (atoms : list atom)
    (first last : nat) : list atom :=
  concat ((fun k => filter
             (fun a => searchsorted_right (cumsum st) (pos_z a) = k) atoms)
          <$> seq first (last - first)).

(** [SliceIndexedAtoms.__getitem__(item)], inherited from
    [AbstractSlicedAtoms]. *)
Definition getitem (self : SliceIndexedAtoms) (it : item) : result Atoms :=
  rbind (unpack_item it (num_slices (indexed_base self))) (fun fl =>
  get_atoms_in_slices self (fst fl) (Some (snd fl)) None).

(** A cell of depth 3 cut into three slices. *)
Definition example_column : Atoms :=
  mk_Atoms [ mk_atom (q 0 1, q 0 1, q 1 2) 6;
             mk_atom (q 1 1, q 0 1, q 3 2) 14;
             mk_atom (q 0 1, q 1 1, q 5 2) 6;
             mk_atom (q 1 1, q 1 1, q 1 1) 6 ]
           (diag_cell (q 2 1) (q 2 1) (q 3 1)).

Definition example_column_indexed : SliceIndexedAtoms :=
  match SliceIndexedAtoms_init example_column (Given (Scalar 1%Qc)) with
  | Ok s => s
  | Raise _ => mk_indexed (mk_sliced example_column []) []
  end.

Definition example_column_windowed : SlicedAtoms :=
  match SlicedAtoms_init example_column (Given (Scalar 1%Qc)) 0%Qc 0%Qc with
  | Ok s => s
  | Raise _ => mk_windowed (mk_sliced example_column []) 0%Qc 0%Qc
  end.

(** *** Facts *)

Lemma py_slice_in {A} (l : list A) (a b : nat) :
  (a <= b <= length l)%nat ->
  py_slice l (Z.of_nat a) (Z.of_nat b) = take (b - a) (drop a l).
Proof.
  intros H. unfold py_slice.
  destruct (Z.ltb_spec (Z.of_nat a) 0); [lia|].
  destruct (Z.ltb_spec (Z.of_nat b) 0); [lia|].
  rewrite !Z.min_l by lia. f_equal; [lia|]. f_equal. lia.
Qed.

Lemma collect_app {A} (l1 l2 : list (result A)) x1 x2 :
  collect l1 = Ok x1 -> collect l2 = Ok x2 ->
  collect (l1 ++ l2) = Ok (x1 ++ x2).
Proof.
  revert x1. induction l1 as [|r l1 IH]; intros x1; cbn.
  - by intros [= <-].
  - destruct r as [a|]; cbn; [|done].
    destruct (collect l1) as [y|] eqn:E; cbn; [|done].
    intros [= <-] H2. by rewrite (IH y eq_refl H2).
Qed.

Lemma cumsum_from_lower acc l x :
  Forall (fun t => (0 <= t)%Qc) l -> x ∈ cumsum_from acc l -> (acc <= x)%Qc.
Proof.
  intros H. revert acc. induction H as [|y l Hy Hl IH]; intros acc.
  - by intros ?%elem_of_nil.
  - cbn [cumsum_from]. intros [->|Hx]%elem_of_cons.
    + by apply Qcle_plus_nonneg.
    + etrans; [|by apply IH]. by apply Qcle_plus_nonneg.
Qed.

Lemma filter_nil_Forall {A} (P : A -> Prop) `{forall x, Decision (P x)}
    (l : list A) :
  Forall (fun x => ~ P x) l -> filter P l = [].
Proof.
  induction 1 as [|x l Hx _ IH]; [done|]. by rewrite filter_cons_False.
Qed.

(** The label [numpy.digitize] gives a depth among the cumulative
    thicknesses. *)
Lemma searchsorted_right_bin acc st z k :
  Forall (fun t => (0 <= t)%Qc) st -> (k < length st)%nat ->
  length (filter (fun x => (x <= z)%Qc) (cumsum_from acc st)) = k <->
  (k = 0%nat \/ (acc + Qcsum (take k st) <= z)%Qc) /\
  (z < acc + Qcsum (take (S k) st))%Qc.
Proof.
  intros H. revert acc k. induction H as [|t st Ht Hst IH]; intros acc k Hk;
    [cbn in Hk; lia|].
  cbn [cumsum_from].
  destruct (decide (acc + t <= z)%Qc) as [Hle|Hgt].
  - rewrite filter_cons_True by done. cbn [length].
    destruct k as [|k].
    + split; [done|]. intros [_ Hz]. exfalso.
      rewrite firstn_cons, take_0 in Hz.
      change (Qcsum [t]) with (t + 0)%Qc in Hz. rewrite Qcplus_0_r in Hz.
      by apply Qclt_not_le in Hz.
    + cbn in Hk. rewrite !firstn_cons.
      change (Qcsum (t :: ?l)) with (t + Qcsum l)%Qc.
      rewrite !Qcplus_assoc. split.
      * intros [= Hc]. apply IH in Hc as [Hk0 Hz]; [|lia].
        split; [right|done]. destruct Hk0 as [->|]; [|done].
        rewrite take_0. change (Qcsum []) with 0%Qc. by rewrite Qcplus_0_r.
      * intros [[?|Hz1] Hz2]; [done|]. f_equal. apply IH; [lia|].
        split; [by right|done].
  - apply Qcnot_le_lt in Hgt. rewrite filter_cons_False by by apply Qclt_not_le.
    rewrite filter_nil_Forall.
    2:{ apply Forall_forall. intros x Hx%(cumsum_from_lower _ _ _ Hst).
        apply Qclt_not_le. by eapply Qclt_le_trans. }
    cbn [length]. split.
    + intros <-. split; [by left|].
      rewrite firstn_cons, take_0.
      change (Qcsum [t]) with (t + 0)%Qc. by rewrite Qcplus_0_r.
    + intros [[->|Hz] _]; [done|]. destruct k as [|k]; [done|]. exfalso.
      rewrite firstn_cons in Hz.
      change (Qcsum (t :: ?l)) with (t + Qcsum l)%Qc in Hz.
      rewrite Qcplus_assoc in Hz.
      assert (acc + t <= z)%Qc as Hc.
      { etrans; [|exact Hz]. apply Qcle_plus_nonneg, Qcsum_nonneg.
        by apply Forall_take. }
      by apply Qclt_not_le in Hgt.
Qed.

Lemma indices_with_label_snoc labels y k :
  indices_with_label (labels ++ [y]) k =
  indices_with_label labels k ++
  (if decide (y = k) then [length labels] else []).
Proof.
  unfold indices_with_label. rewrite imap_app, filter_app, fmap_app.
  f_equal. cbn [imap]. rewrite filter_cons. cbn [snd].
  destruct (decide (y = k)); [|done]. cbn. by rewrite Nat.add_0_r.
Qed.

(** Taking the atoms at the indices that carry a label gives the atoms with
    that label, in their order. *)
Lemma atoms_take_label (f : atom -> nat) (l : list atom) (k : nat) :
  collect ((fun i => match l !! i with
                     | Some a => Ok a
                     | None => Raise IndexError
                     end) <$> indices_with_label (f <$> l) k)
  = Ok (filter (fun a => f a = k) l).
Proof.
  induction l as [|x l IH] using rev_ind; [done|].
  rewrite fmap_app. cbn [fmap list_fmap].
  rewrite indices_with_label_snoc, fmap_app, filter_app, length_fmap.
  apply collect_app.
  - rewrite <- IH. f_equal. apply list_fmap_ext. intros j i Hi.
    apply list_elem_of_lookup_2, elem_of_indices_with_label in Hi.
    apply lookup_lt_Some in Hi. rewrite length_fmap in Hi.
    by rewrite lookup_app_l.
  - rewrite filter_cons, filter_nil. destruct (decide (f x = k)); [|done].
    cbn. by rewrite list_lookup_middle.
Qed.

Lemma atoms_take_labels (f : atom -> nat) (l : list atom) (ks : list nat) :
  collect ((fun i => match l !! i with
                     | Some a => Ok a
                     | None => Raise IndexError
                     end) <$> concat (indices_with_label (f <$> l) <$> ks))
  = Ok (concat ((fun k => filter (fun a => f a = k) l) <$> ks)).
Proof.
  induction ks as [|k ks IH]; [done|].
  cbn [fmap list_fmap concat]. rewrite fmap_app.
  apply collect_app; [apply atoms_take_label|done].
Qed.

Lemma label_to_index_seq labels n :
  label_to_index labels (Z.of_nat n - 1) =
  indices_with_label labels <$> seq 0 n.
Proof. unfold label_to_index. do 2 f_equal. lia. Qed.

Lemma take_drop_seq (a b n : nat) :
  (a <= b <= n)%nat -> take (b - a) (drop a (seq 0 n)) = seq a (b - a).
Proof.
  intros H. rewrite drop_seq, take_seq. cbn. f_equal. lia.
Qed.

(** What [SliceIndexedAtoms.__init__] stored. *)
Lemma SliceIndexedAtoms_init_index atoms spec s :
  SliceIndexedAtoms_init atoms spec = Ok s ->
  Forall (fun t => (0 <= t)%Qc) (_slice_thickness (indexed_base s)) ->
  _atoms (indexed_base s) = atoms /\
  _slice_index s =
    indices_with_label
      ((fun a => searchsorted_right
                   (cumsum (_slice_thickness (indexed_base s))) (pos_z a))
         <$> atom_list atoms)
    <$> seq 0 (length (_slice_thickness (indexed_base s))).
Proof.
  unfold SliceIndexedAtoms_init.
  destruct (AbstractSlicedAtoms_init atoms spec) as [self|] eqn:Hinit;
    cbn [rbind]; [|done].
  apply AbstractSlicedAtoms_init_atoms in Hinit as [Hatoms _].
  destruct (digitize _ _) as [labels|] eqn:Hdig; cbn [rbind]; [|done].
  intros [= <-]. cbn [indexed_base _slice_index]. intros Hst.
  split; [done|]. unfold digitize in Hdig. unfold cumsum in Hdig at 1.
  rewrite cumsum_from_nondecreasing in Hdig by done.
  injection Hdig as <-. rewrite Hatoms, <- list_fmap_compose.
  apply label_to_index_seq.
Qed.

Lemma filter_in_bin st (atoms : list atom) k :
  Forall (fun t => (0 <= t)%Qc) st -> (k < length st)%nat ->
  filter (fun a => searchsorted_right (cumsum st) (pos_z a) = k) atoms =
  filter (in_bin st k) atoms.
Proof.
  intros Hst Hk. apply list_filter_iff. intros a.
  unfold searchsorted_right, cumsum, in_bin, depth_before.
  rewrite (searchsorted_right_bin 0%Qc st (pos_z a) k Hst Hk).
  by rewrite !Qcplus_0_l.
Qed.

Lemma depth_before_window st (first last : nat) :
  (first <= last)%nat ->
  Qcsum (take (last - first) (drop first st)) =
  (depth_before st last - depth_before st first)%Qc.
Proof.
  intros H. unfold depth_before.
  replace last with (first + (last - first))%nat at 2 by lia.
  rewrite <- take_take_drop, Infinite.Qcsum_app. ring.
Qed.

Lemma cell_depth_set atoms zz d :
  cell_depth (shift_z (set_cell_depth atoms zz) d) = zz.
Proof.
  unfold shift_z, set_cell_depth, cell_depth, cell_diag.
  by destruct (cell atoms) as [[[[? ?] ?] [[? ?] ?]] [[? ?] ?]].
Qed.

Lemma atom_list_set atoms zz d :
  atom_list (shift_z (set_cell_depth atoms zz) d) =
  lower d <$> atom_list atoms.
Proof.
  unfold shift_z, set_cell_depth.
  by destruct (cell atoms) as [[? ?] [[? ?] ?]].
Qed.

(** The index lists handed to [atoms[...]] for the slices from [first] to
    [last - 1]. *)
Lemma in_slice_indices {A} (f : nat -> list A) (n first last : nat) :
  (first < last <= n)%nat ->
  (if Z.of_nat last - Z.of_nat first <? 2
   then py_index (f <$> seq 0 n) (Z.of_nat first)
   else match py_slice (f <$> seq 0 n) (Z.of_nat first) (Z.of_nat last) with
        | [] => Raise ValueError
        | arrays => Ok (concat arrays)
        end) = Ok (concat (f <$> seq first (last - first))).
Proof.
  intros H. destruct (Z.ltb_spec (Z.of_nat last - Z.of_nat first) 2).
  - replace (last - first)%nat with 1%nat by lia. cbn. rewrite app_nil_r.
    apply py_index_in; [lia|]. rewrite Nat2Z.id, list_lookup_fmap.
    by rewrite lookup_seq_lt by lia.
  - rewrite py_slice_in by (rewrite length_fmap, length_seq; lia).
    rewrite <- fmap_drop, <- fmap_take, take_drop_seq by lia.
    destruct (last - first)%nat as [|m] eqn:E; [lia|]. done.
Qed.

Lemma atoms_with_labels_bins st atoms first last :
  Forall (fun t => (0 <= t)%Qc) st -> (last <= length st)%nat ->
  atoms_with_labels st atoms first last = atoms_in_bins st atoms first last.
Proof.
  intros Hst Hl. unfold atoms_with_labels, atoms_in_bins. f_equal.
  apply list_fmap_ext. intros j k Hk.
  apply lookup_seq in Hk as [-> Hj]. apply filter_in_bin; [done|lia].
Qed.

Lemma get_atoms_in_slices_labels atoms spec s (first last : nat) an :
  SliceIndexedAtoms_init atoms spec = Ok s ->
  let st := _slice_thickness (indexed_base s) in
  Forall (fun t => (0 <= t)%Qc) st ->
  (first < last <= length st)%nat ->
  exists r,
    get_atoms_in_slices s (Z.of_nat first) (Some (Z.of_nat last)) an = Ok r /\
    atom_list r =
      lower (depth_before st first) <$>
        with_number an (atoms_with_labels st (atom_list atoms) first last) /\
    cell_depth r = (depth_before st last - depth_before st first)%Qc.
Proof.
  intros Hinit st Hst Hfl.
  destruct (SliceIndexedAtoms_init_index _ _ _ Hinit Hst) as [Hatoms Hidx].
  fold st in Hidx. unfold get_atoms_in_slices.
  cbn [default from_option id]. rewrite Hidx, Hatoms.
  rewrite in_slice_indices by done. cbn [rbind].
  unfold atoms_take. rewrite atoms_take_labels. cbn [rbind]. fold st.
  eexists. split; [done|]. rewrite atom_list_set, cell_depth_set.
  change 0 with (Z.of_nat 0).
  rewrite !py_slice_in by lia. rewrite Nat.sub_0_r, drop_0. split.
  - f_equal. by destruct an.
  - apply depth_before_window. lia.
Qed.



(** X3 (bounds of a subscript).  The bounds [unpack_item] hands to
    [get_atoms_in_slices]: never an empty window and never a window that
    ends after the last item. *)
Theorem unpack_item_window :
  (forall (it : item) (num_items first last : Z),
      unpack_item it num_items = Ok (first, last) ->
      first < last <= num_items) /\
  (forall i num_items : Z,
      unpack_item (ItemInt i) num_items =
      if i <? num_items then Ok (i, i + 1) else Raise IndexError) /\
  (forall (start stop : option Z) (num_items : Z),
      let first := default 0 start in
      let last := Z.min (default num_items stop) num_items in
      unpack_item (ItemSlice start stop) num_items =
      if first <? last then Ok (first, last) else Raise IndexError) /\
  (forall num_items : Z, unpack_item ItemOther num_items = Raise RuntimeError).
Proof.
  split; [|split; [|split]].
  - intros it n f l. unfold unpack_item.
    destruct it as [i|start stop|]; cbn [rbind fst snd]; [| |done].
    + destruct (Z.geb_spec i (Z.min (i + 1) n)); [done|].
      intros [= <- <-]. lia.
    + destruct (Z.geb_spec (default 0 start) (Z.min (default n stop) n));
        [done|].
      intros [= <- <-]. lia.
  - intros i n. unfold unpack_item. cbn [rbind fst snd].
    destruct (Z.geb_spec i (Z.min (i + 1) n)), (Z.ltb_spec i n);
      try done; try lia.
    by rewrite Z.min_l by lia.
  - intros start stop n first last. unfold unpack_item. cbn [rbind fst snd].
    fold first last.
    by destruct (Z.geb_spec first last), (Z.ltb_spec first last); try lia.
  - done.
Qed.

Lemma depth_before_S st k t :
  st !! k = Some t -> depth_before st (S k) = (depth_before st k + t)%Qc.
Proof.
  intros H. unfold depth_before. erewrite take_S_r by done.
  rewrite Infinite.Qcsum_app. unfold Qcsum. simpl. ring.
Qed.

Lemma depth_before_all st k :
  (length st <= k)%nat -> depth_before st k = Qcsum st.
Proof. intros H. unfold depth_before. by rewrite take_ge. Qed.

(** X4 (slice limits tile the depth).  The limits [_slice_limits] computes
    tile the depth: one pair per slice, the first starting at zero, each as
    wide as its slice and starting where the one before ends, the last
    ending at the sum of the thicknesses. *)
Theorem slice_limits_contiguous (st : list Qc) :
  length (_slice_limits st) = length st /\
  (forall k t, st !! k = Some t ->
     exists a b,
       _slice_limits st !! k = Some (a, b) /\
       a = depth_before st k /\ (b - a)%Qc = t /\
       (k = 0%nat -> a = 0%Qc) /\
       (S k = length st -> b = Qcsum st) /\
       (forall c d, _slice_limits st !! S k = Some (c, d) -> c = b)) /\
  (st = [] -> _slice_limits st = []).
Proof.
  split; [apply slice_limits_length|]. split; [|by intros ->].
  intros k t Hk. pose proof (lookup_lt_Some _ _ _ Hk) as Hlt.
  exists (depth_before st k), (depth_before st (S k)).
  split; [by apply slice_limits_lookup|]. split; [done|].
  split; [rewrite (depth_before_S _ _ _ Hk); ring|].
  split; [by intros ->|]. split.
  - intros E. apply depth_before_all. lia.
  - intros c d Hcd.
    assert (S k < length st)%nat as Hlt'.
    { apply lookup_lt_Some in Hcd. by rewrite slice_limits_length in Hcd. }
    rewrite slice_limits_lookup in Hcd by done. by injection Hcd as <- _.
Qed.

Lemma Qcceiling_ge (x : Qc) : (x <= QcZ (Qcceiling x))%Qc.
Proof.
  unfold Qcle, Qcceiling, QcZ, Qc_of_Z. simpl. apply Qle_ceiling.
Qed.

Lemma QcZ_pos n : 0 < n -> (0 < QcZ n)%Qc.
Proof.
  intros H. unfold Qclt, QcZ, Qc_of_Z. simpl.
  unfold Qlt. simpl. lia.
Qed.

(** X5 (number and size of the slices).  How many slices
    [validate_slice_thickness] returns, and how thick they are: with
    [num_slices] given the result has that many entries; a scalar step with
    only [num_slices] is repeated that many times; a scalar step with
    neither a thickness nor a number of slices is an error; and the equal
    slices made of a positive step and a positive thickness are never
    thicker than the step. *)
Theorem validate_slice_thickness_count :
  (forall (st : thickness_arg) (th : option Qc) (ns : Z) (l : list Qc),
      validate_slice_thickness st th (Some ns) = Ok l ->
      Z.of_nat (length l) = ns) /\
  (forall (t : Qc) (ns : Z),
      validate_slice_thickness (Scalar t) None (Some ns) =
      if 0 <=? ns then Ok (replicate (Z.to_nat ns) t)
      else Raise RuntimeError) /\
  (forall t : Qc,
      validate_slice_thickness (Scalar t) None None = Raise RuntimeError) /\
  (forall (step th : Qc) (l : list Qc),
      (0 < step)%Qc -> (0 < th)%Qc ->
      validate_slice_thickness (Scalar step) (Some th) None = Ok l ->
      Forall (fun t => (0 < t)%Qc /\ (t <= step)%Qc) l).
Proof.
  split; [|split; [|split]].
  - intros st th ns l. unfold validate_slice_thickness.
    destruct (match st with Scalar _ => _ | Sequence _ => _ end) as [l'|e];
      cbn [rbind]; [|done].
    destruct (match th with Some _ => _ | None => _ end); [done|].
    destruct (Z.eqb_spec (Z.of_nat (length l')) ns); cbn [negb]; [|done].
    by intros [= <-].
  - intros t ns. unfold validate_slice_thickness. cbn [rbind].
    rewrite length_replicate.
    destruct (Z.leb_spec 0 ns), (Z.eqb_spec (Z.of_nat (Z.to_nat ns)) ns);
      cbn [negb]; try done; lia.
  - done.
  - intros step th l Hs Ht. unfold validate_slice_thickness.
    rewrite decide_False by (intros ->; by apply (Qclt_not_eq 0 0)%Qc).
    cbn [rbind]. set (n := Qcceiling (th / step)).
    destruct (isclose _ _); cbn [negb]; [|done]. intros [= <-].
    assert (0 < n) as Hn by (apply Qcceiling_pos; by apply Qcdiv_pos).
    apply Forall_replicate. split.
    + apply Qcdiv_pos; [done|by apply QcZ_pos].
    + pose proof (Qcceiling_ge (th / step)) as Hc. fold n in Hc.
      assert (step <> 0%Qc) as Hs0
        by (intros ->; by apply (Qclt_not_eq 0 0)%Qc).
      assert (QcZ n <> 0%Qc) as Hn0.
      { intros E. apply QcZ_eq_0 in E. lia. }
      assert (th <= QcZ n * step)%Qc as Hle.
      { replace th with (th / step * step)%Qc at 1 by (by field).
        apply Qcmult_le_compat_r; [done|by apply Qclt_le_weak]. }
      assert (0 <= / QcZ n)%Qc as Hinv.
      { apply Qclt_le_weak.
        replace (/ QcZ n)%Qc with (1 / QcZ n)%Qc by (by field).
        apply Qcdiv_pos; [done|by apply QcZ_pos]. }
      assert (th / QcZ n <= QcZ n * step / QcZ n)%Qc as H
        by (unfold Qcdiv; by apply Qcmult_le_compat_r).
      replace (QcZ n * step / QcZ n)%Qc with step in H by (by field).
      done.
Qed.

Lemma unpack_item_window_witness :
  0 < 1 <= 3 /\ 1 < 3 <= 3.
Proof.
  destruct unpack_item_window as (H & _). split.
  - apply (H (ItemInt 0) 3 0 1). reflexivity.
  - apply (H (ItemSlice (Some 1) (Some 7)) 3 1 3). reflexivity.
Defined.

Lemma slice_limits_contiguous_witness :
  exists a b,
    _slice_limits [q 1 2; q 3 2] !! 0%nat = Some (a, b) /\
    a = depth_before [q 1 2; q 3 2] 0 /\ (b - a)%Qc = q 1 2 /\
    (0%nat = 0%nat -> a = 0%Qc) /\
    (1%nat = length [q 1 2; q 3 2] -> b = Qcsum [q 1 2; q 3 2]) /\
    (forall c d, _slice_limits [q 1 2; q 3 2] !! 1%nat = Some (c, d) -> c = b).
Proof.
  destruct (slice_limits_contiguous [q 1 2; q 3 2]) as (_ & H & _).
  apply (H 0%nat (q 1 2)). reflexivity.
Defined.

Lemma validate_slice_thickness_count_witness :
  Z.of_nat (length [q 1 2; q 3 2]) = 2 /\
  Forall (fun t => (0 < t)%Qc /\ (t <= Q2Qc (3 # 10))%Qc)
         (replicate 4 (1 / QcZ 4)%Qc).
Proof.
  destruct validate_slice_thickness_count as (H1 & _ & _ & H4). split.
  - apply (H1 (Sequence [q 1 2; q 3 2]) (Some (q 2 1)) 2 [q 1 2; q 3 2]).
    reflexivity.
  - apply (H4 (Q2Qc (3 # 10)) 1%Qc); reflexivity.
Defined.



(** The slices of the example: the first holds the atom below the cell as
    well, and the atom on the top face is in neither. *)
Lemma get_atoms_in_slices_example :
  exists r,
    get_atoms_in_slices example_indexed 0 (Some 2) None = Ok r /\
    pos_z <$> atom_list r = [q 1 4; q (-1) 1; q 3 2; q 1 1] /\
    cell_depth r = q 2 1 /\
    get_atoms_in_slices example_indexed 0 (Some 5) None = Ok r /\
    get_atoms_in_slices example_indexed 2 (Some 3) None = Raise IndexError /\
    get_atoms_in_slices example_indexed 2 (Some 4) None = Raise ValueError.
Proof.
  eexists. split; [reflexivity|]. repeat split; reflexivity.
Qed.


Lemma filter_or_Permutation {A} (P Q : A -> Prop)
    `{forall x, Decision (P x)} `{forall x, Decision (Q x)} (l : list A) :
  (forall x, P x -> Q x -> False) ->
  filter P l ++ filter Q l ≡ₚ filter (fun x => P x \/ Q x) l.
Proof.
  intros Hdis. induction l as [|x l IH]; [done|].
  rewrite !filter_cons.
  destruct (decide (P x)) as [HP|HP], (decide (Q x)) as [HQ|HQ].
  - by destruct (Hdis x).
  - rewrite decide_True by (by left). cbn. by rewrite IH.
  - rewrite decide_True by (by right).
    rewrite <- Permutation_middle. by rewrite IH.
  - rewrite decide_False by tauto. done.
Qed.

Lemma depth_before_mono st j k :
  Forall (fun t => (0 <= t)%Qc) st -> (j <= k)%nat ->
  (depth_before st j <= depth_before st k)%Qc.
Proof.
  intros Hst Hjk. unfold depth_before.
  replace k with (j + (k - j))%nat by lia.
  rewrite <- take_take_drop, Infinite.Qcsum_app.
  apply Qcle_plus_nonneg, Qcsum_nonneg.
  by apply Forall_take, Forall_drop.
Qed.

(** The atoms of consecutive slices, none of them the first, are the atoms
    in the window from the start of the first to the end of the last. *)
Lemma atoms_in_bins_window st (atoms : list atom) (first : nat) (m : nat) :
  Forall (fun t => (0 <= t)%Qc) st -> (0 < first)%nat ->
  atoms_in_bins st atoms first (first + m) ≡ₚ
  filter (fun a => (depth_before st first <= pos_z a)%Qc /\
                   (pos_z a < depth_before st (first + m))%Qc) atoms.
Proof.
  intros Hst. unfold atoms_in_bins.
  replace (first + m - first)%nat with m by lia.
  revert first. induction m as [|m IH]; intros first Hf.
  - cbn. rewrite Nat.add_0_r. symmetry. apply Permutation_nil_r.
    apply filter_nil_Forall, Forall_forall. intros a _ [H1 H2].
    by apply Qclt_not_le in H2.
  - cbn [seq fmap list_fmap concat]. rewrite (IH (S first)) by lia.
    replace (S first + m)%nat with (first + S m)%nat by lia.
    rewrite filter_or_Permutation.
    + apply reflexive_eq, list_filter_iff. intros a. unfold in_bin.
      pose proof (depth_before_mono st first (S first) Hst ltac:(lia)).
      pose proof (depth_before_mono st (S first) (first + S m) Hst ltac:(lia)).
      split.
      * intros [[[?|?] ?]|[? ?]]; [lia| |].
        -- split; [done|]. by eapply Qclt_le_trans.
        -- split; [|done]. by etrans.
      * intros [? ?].
        destruct (Qclt_le_dec (pos_z a) (depth_before st (S first))).
        -- left. split; [by right|done].
        -- by right.
    + intros a [_ H1] [H2 _]. by apply Qclt_not_le in H1.
Qed.

Lemma SlicedAtoms_init_base atoms spec p q w s :
  SlicedAtoms_init atoms spec p q = Ok w ->
  SliceIndexedAtoms_init atoms spec = Ok s ->
  windowed_base w = indexed_base s /\ _z_padding w = q.
Proof.
  unfold SlicedAtoms_init, SliceIndexedAtoms_init.
  destruct (AbstractSlicedAtoms_init atoms spec) as [self|]; cbn [rbind];
    [|done].
  intros [= <-]. destruct (digitize _ _); cbn [rbind]; [|done].
  by intros [= <-].
Qed.

(** X7 (the two variants on interior windows).  The two variants agree on
    interior windows: for slices that are neither the first nor the last,
    and without padding, the slice-indexed variant returns the atoms the
    windowed variant returns, in another order and with their depth measured
    from the start of the window, in a cell of the same depth. *)
Theorem indexed_windowed_agree
    (atoms : Atoms) (spec : thickness_spec) (s : SliceIndexedAtoms)
    (w : SlicedAtoms) (first last : nat) :
  SliceIndexedAtoms_init atoms spec = Ok s ->
  SlicedAtoms_init atoms spec 0%Qc 0%Qc = Ok w ->
  let st := _slice_thickness (indexed_base s) in
  Forall (fun t => (0 <= t)%Qc) st ->
  (0 < first < last)%nat -> (last < length st)%nat ->
  exists r r',
    get_atoms_in_slices s (Z.of_nat first) (Some (Z.of_nat last)) None
      = Ok r /\
    Slicing.get_atoms_in_slices w (Z.of_nat first) (Some (Z.of_nat last)) None
      = Ok r' /\
    atom_list r ≡ₚ lower (depth_before st first) <$> atom_list r' /\
    cell_depth r = cell_depth r'.
Proof.
  intros Hs Hw st Hst Hfl Hl. subst st.
  set (st := _slice_thickness (indexed_base s)) in *.
  destruct (SlicedAtoms_init_base _ _ _ _ _ _ Hw Hs) as [Hbase Hpad].
  destruct (SliceIndexedAtoms_init_index _ _ _ Hs Hst) as [Hatoms _].
  assert (first < last <= length st)%nat as Hfl' by lia.
  destruct (get_atoms_in_slices_labels _ _ _ first last None Hs Hst Hfl')
    as (r & Hr & Hrl & Hrc).
  destruct (get_atoms_in_slices_inner w (Z.of_nat first) (Z.of_nat last))
    as (r' & Hr' & Hrl' & Hrc');
    [lia|lia|unfold num_slices; rewrite Hbase; fold st; lia..|].
  fold st in Hrl, Hrc.
  exists r, r'. split; [done|]. split; [done|].
  rewrite Hbase, !Nat2Z.id in Hrl', Hrc'. fold st in Hrl', Hrc'.
  rewrite Hatoms, Hpad in Hrl'. split; [|by rewrite Hrc, Hrc'].
  rewrite Hrl, Hrl'. cbn [with_number]. apply fmap_Permutation.
  rewrite atoms_with_labels_bins; [|done|apply Hfl'].
  pose proof (atoms_in_bins_window st (atom_list atoms) first (last - first)
                Hst ltac:(lia)) as Hp.
  replace (first + (last - first))%nat with last in Hp by lia.
  rewrite Hp. apply reflexive_eq, list_filter_iff. intros a.
  replace (depth_before st first - 0)%Qc with (depth_before st first) by ring.
  by replace (depth_before st last + 0)%Qc with (depth_before st last) by ring.
Qed.


Lemma indexed_windowed_agree_witness :
  let st := _slice_thickness (indexed_base example_column_indexed) in
  exists r r',
    get_atoms_in_slices example_column_indexed 1 (Some 2) None = Ok r /\
    Slicing.get_atoms_in_slices example_column_windowed 1 (Some 2) None
      = Ok r' /\
    atom_list r ≡ₚ lower (depth_before st 1) <$> atom_list r' /\
    cell_depth r = cell_depth r'.
Proof.
  apply (indexed_windowed_agree example_column (Given (Scalar 1%Qc))
           example_column_indexed example_column_windowed 1 2).
  - reflexivity.
  - reflexivity.
  - vm_compute. repeat constructor; discriminate.
  - lia.
  - vm_compute. lia.
Defined.

End SliceQueries.

(** ** [abtem/core/integrals/infinite.py]: how deposits compose, weights
    and the edges of [infinite_potential_projections] *)

Module ScatterAdd.

Import Grid Infinite.

(** The deposits of the points, point by point. *)
Definition point_deposits (s0 s1 : Z) (ps : list (Qc * Qc)) : list deposit :=
  ps ≫= corners s0 s1.

(** A computation that keeps every array of [h0] as it is, whatever else it
    does to the store. *)
Definition frames {A} (h0 : heap) (m : M A) : Prop :=
  forall h, h0 ⊆ h -> h0 ⊆ snd (m h).

(** *** Facts *)

Lemma ndarray_eq {A} (a b : ndarray A) :
  shape0 a = shape0 b -> shape1 a = shape1 b -> data a = data b -> a = b.
Proof. destruct a, b. simpl. by intros -> -> ->. Qed.

Lemma added_at_app k ks1 ks2 :
  added_at k (ks1 ++ ks2) = (added_at k ks1 + added_at k ks2)%Qc.
Proof. unfold added_at. by rewrite filter_app, fmap_app, Qcsum_app. Qed.

Lemma Qcsum_Permutation l1 l2 : l1 ≡ₚ l2 -> Qcsum l1 = Qcsum l2.
Proof.
  induction 1 as [|x l1 l2 _ IH|x y l|l1 l2 l3 _ IH1 _ IH2]; [done|..].
  - by rewrite !Qcsum_cons, IH.
  - rewrite !Qcsum_cons. ring.
  - by rewrite IH1.
Qed.

Lemma added_at_Permutation k ks1 ks2 :
  ks1 ≡ₚ ks2 -> added_at k ks1 = added_at k ks2.
Proof.
  intros H. unfold added_at. apply Qcsum_Permutation.
  by rewrite H.
Qed.

(** Two runs of [numpy.add.at] on one array give the same array when every
    element receives the same sum. *)
Lemma add_all_ext a ks1 ks2 :
  (forall k, added_at k ks1 = added_at k ks2) -> add_all a ks1 = add_all a ks2.
Proof.
  intros H. destruct (add_all_shape a ks1) as (E0 & E1 & _).
  destruct (add_all_shape a ks2) as (F0 & F1 & _).
  apply ndarray_eq; [congruence..|]. apply list_eq. intros k.
  by rewrite !add_all_lookup, H.
Qed.

Lemma add_all_app a ks1 ks2 :
  add_all a (ks1 ++ ks2) = add_all (add_all a ks1) ks2.
Proof. unfold add_all. by rewrite foldl_app. Qed.

Lemma flat_deposits_shape (a b : ndarray Qc) ds :
  shape1 a = shape1 b -> flat_deposits a ds = flat_deposits b ds.
Proof. intros E. unfold flat_deposits, flat. by rewrite E. Qed.

Lemma deposits_Permutation s0 s1 ps ds :
  deposits_of s0 s1 ps None = Ok ds -> ds ≡ₚ point_deposits s0 s1 ps.
Proof.
  rewrite deposits_of_None. intros [= <-]. unfold point_deposits.
  induction ps as [|p ps IH]; [done|].
  cbn [fmap list_fmap mbind list_bind corners app]. rewrite <- IH.
  rewrite <- !Permutation_middle. done.
Qed.

(** The run of [superpose_deltas] without weights, point by point. *)
Lemma superpose_deltas_points ps l (h : heap) a :
  h !! l = Some a -> 0 < shape0 a -> 0 < shape1 a ->
  superpose_deltas ps l None None h =
  (Ok l, <[l := add_all a (flat_deposits a
                   (point_deposits (shape0 a) (shape1 a) ps))]> h).
Proof.
  intros Hl H0 H1.
  pose proof (deposits_of_None (shape0 a) (shape1 a) ps) as Hds.
  rewrite (superpose_deltas_run _ _ _ _ _ _ Hl H0 H1 Hds).
  do 2 f_equal. apply add_all_ext. intros k.
  apply added_at_Permutation, fmap_Permutation.
  by apply deposits_Permutation.
Qed.

(** X8 (deposits in two calls).  Deposition is additive in the points:
    depositing two lists of points at once gives the array that depositing
    the first list and then the second gives. *)
Theorem superpose_deltas_app
    (ps1 ps2 : list (Qc * Qc)) (l : loc) (h : heap) (a : ndarray Qc) :
  h !! l = Some a -> 0 < shape0 a -> 0 < shape1 a ->
  superpose_deltas (ps1 ++ ps2) l None None h =
  (l' ← superpose_deltas ps1 l None None;
   superpose_deltas ps2 l' None None) h.
Proof.
  intros Hl H0 H1.
  rewrite (superpose_deltas_points _ _ _ _ Hl H0 H1).
  unfold mbind, M_bind, bind.
  rewrite (superpose_deltas_points ps1 _ _ _ Hl H0 H1).
  set (ks1 := flat_deposits a (point_deposits (shape0 a) (shape1 a) ps1)).
  destruct (add_all_shape a ks1) as (E0 & E1 & _).
  rewrite (superpose_deltas_points ps2 l _ (add_all a ks1))
    by (rewrite ?E0, ?E1; first [apply lookup_insert_eq|done]).
  rewrite insert_insert_eq. do 2 f_equal.
  rewrite E0, E1, (flat_deposits_shape (add_all a ks1) a) by done.
  rewrite <- add_all_app. f_equal. unfold ks1, flat_deposits, point_deposits.
  by rewrite bind_app, fmap_app.
Qed.

(** X9 (order of the points).  The order of the points does not matter. *)
Theorem superpose_deltas_Permutation
    (ps ps' : list (Qc * Qc)) (l : loc) (h : heap) (a : ndarray Qc) :
  h !! l = Some a -> 0 < shape0 a -> 0 < shape1 a ->
  ps ≡ₚ ps' ->
  superpose_deltas ps l None None h = superpose_deltas ps' l None None h.
Proof.
  intros Hl H0 H1 Hp.
  rewrite !(superpose_deltas_points _ _ _ _ Hl H0 H1).
  do 2 f_equal. apply add_all_ext. intros k.
  apply added_at_Permutation, fmap_Permutation.
  unfold point_deposits. by rewrite Hp.
Qed.

Lemma weighted_rows_sum (xs ys w : list Qc) :
  length xs = length w -> length ys = length w ->
  (Qcsum (zip_with Qcmult
            (zip_with (fun x y => 1 + x * y - y - x) xs ys) w) +
   Qcsum (zip_with Qcmult (zip_with (fun x y => x - x * y) xs ys) w) +
   Qcsum (zip_with Qcmult (zip_with (fun x y => y - x * y) xs ys) w) +
   Qcsum (zip_with Qcmult (zip_with (fun x y => x * y) xs ys) w))%Qc
  = Qcsum w.
Proof.
  revert xs ys. induction w as [|c w IH]; intros [|x xs] [|y ys] Hx Hy;
    try done.
  cbn [zip_with]. rewrite !Qcsum_cons.
  rewrite <- (IH xs ys) by (cbn in *; lia). ring.
Qed.

Lemma scaled_rows_sum (xs ys : list Qc) (c : Qc) :
  length xs = length ys ->
  (Qcsum ((fun a => a * c) <$>
            zip_with (fun x y => 1 + x * y - y - x) xs ys) +
   Qcsum ((fun a => a * c) <$> zip_with (fun x y => x - x * y) xs ys) +
   Qcsum ((fun a => a * c) <$> zip_with (fun x y => y - x * y) xs ys) +
   Qcsum ((fun a => a * c) <$> zip_with (fun x y => x * y) xs ys))%Qc
  = (QcZ (Z.of_nat (length xs)) * c)%Qc.
Proof.
  revert ys. induction xs as [|x xs IH]; intros [|y ys] H; try done.
  - cbn [zip_with fmap list_fmap length]. change (Z.of_nat 0) with 0.
    rewrite Slicing.QcZ_0. change (Qcsum []) with 0%Qc. ring.
  - cbn [zip_with fmap list_fmap length]. rewrite !Qcsum_cons.
    rewrite Nat2Z.inj_succ, Slicing.QcZ_succ, Qcmult_plus_distr_l.
    rewrite <- (IH ys) by (cbn in *; lia). ring.
Qed.

(** The sum of what [superpose_deltas] deposits when weights are given. *)
Lemma deposits_of_weights_sum s0 s1 ps w ds :
  deposits_of s0 s1 ps (Some w) = Ok ds ->
  Qcsum (dep_v <$> ds) =
  if decide (length w = length ps) then Qcsum w
  else (QcZ (Z.of_nat (length ps)) * default 0%Qc (head w))%Qc.
Proof.
  unfold deposits_of, values, index_i, index_j. cbn [app].
  destruct (apply_weights _ _ (Some w)) as [v'|] eqn:Hw; cbn [rbind]; [|done].
  intros [= <-]. unfold apply_weights in Hw.
  rewrite x_of_fmap, y_of_fmap in Hw.
  assert (length (frac_x <$> ps) = length ps) as Lx by by rewrite length_fmap.
  assert (length (frac_y <$> ps) = length ps) as Ly by by rewrite length_fmap.
  destruct (decide (length w = length ps)) as [E|E].
  - injection Hw as <-. cbn [fmap list_fmap].
    rewrite zip_deposits_4
      by (rewrite ?length_fmap, ?length_zip_with, ?rows_of_length,
                  ?cols_of_length; lia).
    rewrite !fmap_app, !values_dep3
      by (rewrite ?length_fmap, ?length_zip_with, ?rows_of_length,
                  ?cols_of_length; lia).
    rewrite !Qcsum_app, !Qcplus_assoc. apply weighted_rows_sum; lia.
  - destruct w as [|w0 [|? ?]]; try done. injection Hw as <-.
    cbn [fmap list_fmap].
    rewrite zip_deposits_4
      by (rewrite ?length_fmap, ?length_zip_with, ?rows_of_length,
                  ?cols_of_length; lia).
    rewrite !fmap_app, !values_dep3
      by (rewrite ?length_fmap, ?length_zip_with, ?rows_of_length,
                  ?cols_of_length; lia).
    rewrite !Qcsum_app, !Qcplus_assoc. cbn [head default from_option id].
    rewrite <- Lx. apply scaled_rows_sum. lia.
Qed.

(** X10 (weighted deposits).  With weights, the total of the array grows by
    the sum of the weights of the points: one weight per point, or one
    weight for all the points; any other number of weights does not
    broadcast, and the array is left as it was. *)
Theorem superpose_deltas_weighted_total
    (ps : list (Qc * Qc)) (w : list Qc) (l : loc) (h : heap)
    (a : ndarray Qc) :
  h !! l = Some a -> wf a -> 0 < shape0 a -> 0 < shape1 a ->
  (length w = length ps ->
   exists a',
     superpose_deltas ps l None (Some w) h = (Ok l, <[l := a']> h) /\
     total a' = (total a + Qcsum w)%Qc) /\
  (forall w0, w = [w0] ->
   exists a',
     superpose_deltas ps l None (Some w) h = (Ok l, <[l := a']> h) /\
     total a' = (total a + QcZ (Z.of_nat (length ps)) * w0)%Qc) /\
  (length w <> length ps -> length w <> 1%nat ->
   superpose_deltas ps l None (Some w) h = (Raise ValueError, h)).
Proof.
  intros Hl Hwf H0 H1.
  assert (forall ds,
    deposits_of (shape0 a) (shape1 a) ps (Some w) = Ok ds ->
    superpose_deltas ps l None (Some w) h =
      (Ok l, <[l := add_all a (flat_deposits a ds)]> h) /\
    total (add_all a (flat_deposits a ds)) =
      (total a + Qcsum (dep_v <$> ds))%Qc) as Hrun.
  { intros ds Hds. split; [by apply superpose_deltas_run|].
    rewrite add_all_total.
    - unfold flat_deposits. by rewrite <- list_fmap_compose.
    - unfold flat_deposits. apply Forall_fmap.
      eapply Forall_impl; [by eapply deposits_of_in_bounds|].
      intros d Hd. by apply flat_lt. }
  split; [|split].
  - intros E.
    destruct (deposits_of (shape0 a) (shape1 a) ps (Some w)) as [ds|e] eqn:Hds.
    + destruct (Hrun ds eq_refl) as [-> Ht]. eexists. split; [done|].
      by rewrite Ht, (deposits_of_weights_sum _ _ _ _ _ Hds), decide_True.
    + exfalso. unfold deposits_of, apply_weights in Hds.
      by rewrite decide_True in Hds.
  - intros w0 ->.
    destruct (deposits_of (shape0 a) (shape1 a) ps (Some [w0])) as [ds|e]
      eqn:Hds.
    + destruct (Hrun ds eq_refl) as [-> Ht]. eexists. split; [done|].
      rewrite Ht, (deposits_of_weights_sum _ _ _ _ _ Hds).
      destruct (decide _) as [E|E]; [|done].
      cbn [length] in E. rewrite <- E. change (Z.of_nat 1) with (Z.succ 0).
      rewrite Slicing.QcZ_succ, Slicing.QcZ_0, Qcsum_cons.
      change (Qcsum []) with 0%Qc. ring.
    + exfalso. unfold deposits_of, apply_weights in Hds.
      by destruct (decide _).
  - intros E1 E2. unfold superpose_deltas, mbind, M_bind, bind, deref.
    rewrite Hl. unfold deposits_of, apply_weights.
    rewrite decide_False by done.
    by destruct w as [|w0 [|? ?]].
Qed.

Lemma frames_ret {A} h0 (a : A) : frames h0 (mret a).
Proof. by intros h. Qed.

Lemma frames_raise {A} h0 e : frames h0 (@raise A e).
Proof. by intros h. Qed.

Lemma frames_bind {A B} h0 (m : M A) (k : A -> M B) :
  frames h0 m -> (forall a, frames h0 (k a)) -> frames h0 (m ≫= k).
Proof.
  intros Hm Hk h Hh. unfold mbind, M_bind, bind.
  specialize (Hm h Hh). destruct (m h) as [[a|e] h']; [|done].
  by apply Hk.
Qed.

Lemma frames_alloc {B} h0 a (k : loc -> M B) :
  (forall l, h0 !! l = None -> frames h0 (k l)) -> frames h0 (alloc a ≫= k).
Proof.
  intros Hk h Hh. unfold mbind, M_bind, bind, alloc.
  assert (h0 !! fresh (dom h) = None) as Hfresh.
  { apply not_elem_of_dom. intros Hin.
    apply (is_fresh (dom h)). by apply (subseteq_dom _ _ Hh). }
  apply Hk; [done|]. by apply insert_subseteq_r.
Qed.

Lemma frames_store h0 l a : h0 !! l = None -> frames h0 (store l a).
Proof. intros Hl h Hh. by apply insert_subseteq_r. Qed.

Lemma frames_deref h0 l : frames h0 (deref l).
Proof. intros h Hh. unfold deref. by destruct (h !! l). Qed.

Lemma frames_superpose_deltas h0 ps l si w :
  h0 !! l = None -> frames h0 (superpose_deltas ps l si w).
Proof.
  intros Hl. unfold superpose_deltas. apply frames_bind; [apply frames_deref|].
  intros a. destruct si; [apply frames_raise|].
  destruct (rbind _ _); [|apply frames_raise].
  apply frames_bind; [by apply frames_store|]. intros _. apply frames_ret.
Qed.

Section Projections_edges.

Context (fft2 : ndarray Qc -> ndarray complex)
        (ifft2 : ndarray complex -> ndarray complex).

Lemma frames_lookup_factor h0 factors z : frames h0 (lookup_factor factors z).
Proof.
  unfold lookup_factor. destruct (factors !! z);
    [apply frames_ret|apply frames_raise].
Qed.

Lemma frames_species_loop h0 factors atoms positions s0 s1 si unique :
  forall i acc,
    frames h0 (species_loop fft2 factors atoms positions s0 s1 si i unique acc).
Proof.
  induction unique as [|z unique IH]; intros i acc; [apply frames_ret|].
  cbn [species_loop]. apply frames_alloc. intros l Hl.
  apply frames_bind.
  { destruct (decide _); [by apply frames_store|apply frames_ret]. }
  intros _. destruct (negb _); [apply IH|].
  apply frames_bind; [by apply frames_superpose_deltas|]. intros l'.
  apply frames_bind; [apply frames_deref|]. intros t.
  apply frames_bind; [apply frames_lookup_factor|]. intros k. apply IH.
Qed.

(** X11 (arrays of the caller).  [infinite_potential_projections] works on
    arrays of its own: whatever its arguments and whether it returns or
    raises, every array that was in the store before the call is in the
    store, unchanged, after it. *)
Theorem infinite_potential_projections_frame
    (factors : gmap Z (ndarray complex)) (atoms : list atom)
    (shape : Z * Z * Z) (sampling : Qc * Qc) (slice_index : option (list Z))
    (h : heap) :
  h ⊆ snd (infinite_potential_projections fft2 ifft2 factors atoms shape
             sampling slice_index h).
Proof.
  assert (frames h (infinite_potential_projections fft2 ifft2 factors atoms
                      shape sampling slice_index)) as H; [|by apply H].
  unfold infinite_potential_projections. destruct shape as [[n s0] s1].
  destruct (decide _); [apply frames_raise|].
  destruct (decide _); [apply frames_ret|].
  apply frames_bind; [|intros a; apply frames_ret].
  destruct (decide _).
  - apply frames_bind; [apply frames_species_loop|].
    intros a. apply frames_ret.
  - apply frames_alloc. intros l Hl.
    apply frames_bind; [by apply frames_superpose_deltas|]. intros _.
    apply frames_bind; [apply frames_deref|]. intros a.
    destruct (np_unique _); [apply frames_raise|].
    apply frames_bind; [apply frames_lookup_factor|].
    intros k. apply frames_ret.
Qed.

Lemma np_unique_nonempty (l : list Z) : l <> [] -> np_unique l <> [].
Proof.
  destruct l as [|x l]; [done|]. intros _ E.
  assert (x ∈ np_unique (x :: l)) as H by (apply elem_of_np_unique; by left).
  rewrite E in H. by apply elem_of_nil in H.
Qed.

(** The loop over the species stops at the first species without a kernel. *)
Lemma species_loop_KeyError factors atoms sampling s0 s1 unique :
  0 < s0 -> 0 < s1 ->
  Forall (fun z => z ∈ number <$> atoms) unique ->
  (exists z, z ∈ unique /\ factors !! z = None) ->
  forall i acc (h : heap),
    fst (species_loop fft2 factors atoms (scaled_positions atoms sampling)
           s0 s1 None i unique acc h) = Raise KeyError.
Proof.
  intros H0 H1. induction 1 as [|z unique Hz _ IH]; intros Hmiss i acc h.
  { destruct Hmiss as (z & Hz & _). by apply elem_of_nil in Hz. }
  cbn [species_loop].
  unfold mbind at 1, M_bind at 1, bind at 1, alloc at 1.
  set (l := fresh (dom h)). set (h1 := <[l := zeros s0 s1]> h).
  assert (exists h2, (if decide (0 < i)%nat then store l (zeros s0 s1)
                      else mret tt) h1 = (Ok tt, h2) /\
                     h2 !! l = Some (zeros s0 s1)) as (h2 & E2 & Hl2).
  { destruct (decide (0 < i)%nat).
    - eexists. split; [done|]. apply lookup_insert_eq.
    - exists h1. split; [done|]. apply lookup_insert_eq. }
  unfold mbind at 1, M_bind at 1, bind at 1. rewrite E2.
  rewrite existsb_mask by done. cbn [negb].
  unfold mbind at 1, M_bind at 1, bind at 1.
  cbn [fmap option_fmap option_map].
  rewrite species_mask, (density_run _ _ _ _ _ H0 H1 Hl2).
  unfold mbind at 1, M_bind at 1, bind at 1, deref at 1.
  rewrite lookup_insert_eq.
  unfold mbind at 1, M_bind at 1, bind at 1, lookup_factor at 1.
  destruct (factors !! z) as [k|] eqn:Hk; [|done].
  cbn [mret M_ret ret]. apply IH.
  destruct Hmiss as (z' & [->|Hz']%elem_of_cons & Hnone); [congruence|].
  by exists z'.
Qed.


End Projections_edges.

Lemma superpose_deltas_app_witness :
  superpose_deltas ([example_point] ++ [example_node]) 1%positive None None
    example_heap =
  (l' ← superpose_deltas [example_point] 1%positive None None;
   superpose_deltas [example_node] l' None None) example_heap.
Proof.
  apply (superpose_deltas_app [example_point] [example_node] 1%positive
           example_heap (zeros 3 3)).
  - reflexivity.
  - simpl; lia.
  - simpl; lia.
Defined.

Lemma superpose_deltas_Permutation_witness :
  superpose_deltas [example_point; example_node] 1%positive None None
    example_heap =
  superpose_deltas [example_node; example_point] 1%positive None None
    example_heap.
Proof.
  apply (superpose_deltas_Permutation [example_point; example_node]
           [example_node; example_point] 1%positive example_heap (zeros 3 3)).
  - reflexivity.
  - simpl; lia.
  - simpl; lia.
  - apply perm_swap.
Defined.

Lemma superpose_deltas_weighted_total_witness :
  let ps := [example_point; example_node] in
  (exists a',
     superpose_deltas ps 1%positive None (Some [q 1 2; q 3 2]) example_heap =
       (Ok 1%positive, <[1%positive := a']> example_heap) /\
     total a' = (total (zeros 3 3) + Qcsum [q 1 2; q 3 2])%Qc) /\
  (exists a',
     superpose_deltas ps 1%positive None (Some [q 1 2]) example_heap =
       (Ok 1%positive, <[1%positive := a']> example_heap) /\
     total a' =
       (total (zeros 3 3) + QcZ (Z.of_nat (length ps)) * q 1 2)%Qc) /\
  superpose_deltas ps 1%positive None (Some [q 1 2; q 3 2; q 1 1])
    example_heap = (Raise ValueError, example_heap).
Proof.
  intros ps. split; [|split].
  - apply (superpose_deltas_weighted_total ps [q 1 2; q 3 2] 1%positive
             example_heap (zeros 3 3));
      [reflexivity|exact example_wf|simpl; lia|simpl; lia|reflexivity].
  - apply (superpose_deltas_weighted_total ps [q 1 2] 1%positive
             example_heap (zeros 3 3)) with (w0 := q 1 2);
      [reflexivity|exact example_wf|simpl; lia|simpl; lia|reflexivity].
  - apply (superpose_deltas_weighted_total ps [q 1 2; q 3 2; q 1 1]
             1%positive example_heap (zeros 3 3));
      [reflexivity|exact example_wf|simpl; lia|simpl; lia|simpl; lia
      |simpl; lia].
Defined.


End ScatterAdd.

(** ** [abtem/core/array.py]: ensemble axes and their metadata *)

Module EnsembleAxes.

Import ArrayObject.

(** One metadata entry per ensemble axis. *)
Definition aligned (self : HasArray) : Prop :=
  length (ensemble_axes_metadata self) = length (ensemble_shape self).

(** Whether an entry of an index tuple is an integer. *)
Definition is_int (it : index_item) : bool :=
  match it with
  | ItInt _ => true
  | _ => false
  end.

(** The number of integers among the entries of an index tuple. *)
Definition num_ints (items : list index_item) : nat :=
  length (filter (fun it => is_int it = true) items).

(** NumPy's reading of an integer index on an axis of length [n]. *)
Definition wrap_index (n : nat) (i : Z) : nat :=
  Z.to_nat (if i <? 0 then i + Z.of_nat n else i).

(** The entries [get_items] refuses: [...] and [None]. *)
Definition unsupported (it : index_item) : Prop :=
  it = ItEllipsis \/ it = ItNone.

(** *** Facts *)

Lemma remove_positions_snoc {A} (positions : list nat) (l : list A) (x : A) :
  remove_positions positions (l ++ [x]) =
  remove_positions positions l ++
  (if decide (length l ∈ positions) then [] else [x]).
Proof.
  unfold remove_positions. rewrite imap_app, filter_app, fmap_app. f_equal.
  cbn [imap]. rewrite filter_cons, Nat.add_0_r. cbn [fst].
  by destruct (decide (length l ∉ positions)), (decide (length l ∈ positions)).
Qed.

Lemma remove_positions_length {A B} (positions : list nat)
    (l1 : list A) (l2 : list B) :
  length l1 = length l2 ->
  length (remove_positions positions l1) =
  length (remove_positions positions l2).
Proof.
  revert l2. induction l1 as [|x l1 IH] using rev_ind; intros l2 H.
  - by destruct l2.
  - destruct l2 as [|y l2 _] using rev_ind;
      [rewrite length_app in H; cbn in H; lia|].
    rewrite !length_app in H. cbn in H.
    rewrite !remove_positions_snoc, !length_app, (IH l2) by lia.
    replace (length l1) with (length l2) by lia.
    by destruct (decide _).
Qed.

Lemma remove_positions_nil {A} (l : list A) : remove_positions [] l = l.
Proof.
  induction l as [|x l IH] using rev_ind; [done|].
  rewrite remove_positions_snoc, IH.
  destruct (decide _) as [H|]; [by apply elem_of_nil in H|done].
Qed.

Lemma unsqueeze_index_nil k rank out :
  length out = rank -> unsqueeze_index [] k rank out = out.
Proof.
  revert k out. induction rank as [|rank IH]; intros k [|j out] H;
    cbn in *; try done.
  rewrite decide_False by apply not_elem_of_nil. f_equal. apply IH. lia.
Qed.

Section Squeeze_more.

Context (normalize_axes : list Z -> list nat -> list Z).

(** X13 (squeezing twice).  Squeezing every axis leaves no ensemble axis of
    length one, so a second squeeze changes nothing: [squeeze()] is
    idempotent. *)
Theorem squeeze_all_idempotent (self r : HasArray) :
  squeeze normalize_axes self None = Ok r ->
  (1%nat ∉ ensemble_shape r) /\
  exists r',
    squeeze normalize_axes r None = Ok r' /\
    shape (_array r') = shape (_array r) /\
    ensemble_axes_metadata r' = ensemble_axes_metadata r /\
    _base_dims r' = _base_dims r /\
    forall out, length out = length (shape (_array r)) ->
                item (_array r') out = item (_array r) out.
Proof.
  intros Hr.
  destruct (squeeze_spec normalize_axes self None)
    as (r0 & Hr0 & _ & He & _). rewrite Hr in Hr0. injection Hr0 as <-.
  assert (1%nat ∉ ensemble_shape r) as Hno.
  { rewrite He. intros (i & Hi & Hn)%elem_of_remove_positions.
    apply Hn, elem_of_squeezed_axes. by split. }
  split; [done|].
  assert (squeezed_axes normalize_axes r None = []) as Hsq.
  { apply elem_of_nil_inv. intros i [Hi _]%elem_of_squeezed_axes.
    apply Hno. by eapply list_elem_of_lookup_2. }
  destruct (squeeze_spec normalize_axes r None)
    as (r' & Hr' & Hbd & _ & _ & Hm & Hitem).
  exists r'. split; [done|]. rewrite Hsq in *.
  rewrite remove_positions_nil in Hm. split; [|split; [done|split; [done|]]].
  - unfold squeeze in Hr'. destruct (_ <? _)%nat; [by injection Hr' as <-|].
    rewrite Hsq in Hr'. unfold np_squeeze in Hr'. cbn [forallb rbind] in Hr'.
    injection Hr' as <-. cbn. apply remove_positions_nil.
  - intros out Hout. by rewrite Hitem, unsqueeze_index_nil.
Qed.

End Squeeze_more.

Lemma num_ints_cons it items :
  num_ints (it :: items) =
  ((if is_int it then 1 else 0) + num_ints items)%nat.
Proof.
  unfold num_ints. rewrite filter_cons.
  by destruct (is_int it); destruct (decide _).
Qed.

(** Every integer entry of an index tuple removes one axis. *)
Lemma out_shape_length sh items sels :
  selectors sh items = Ok sels ->
  forall ens, (length items <= length ens)%nat ->
    (length (out_shape sels ens) + num_ints items = length ens)%nat.
Proof.
  revert sh sels. induction items as [|it items IH]; intros sh sels.
  - destruct sh; intros [= <-] ens _; cbn; lia.
  - destruct sh as [|n sh]; [done|]. cbn [selectors].
    destruct (select_axis n it) as [s|] eqn:Hs; cbn [rbind]; [|done].
    destruct (selectors sh items) as [ss|] eqn:Hss; cbn [rbind]; [|done].
    intros [= <-] [|e ens] Hlen; cbn in Hlen; [lia|].
    specialize (IH _ _ Hss ens ltac:(lia)). rewrite num_ints_cons.
    destruct it as [i|a b c| |]; cbn in Hs; try done.
    + destruct (Grid.normalize_index _ _); cbn in Hs; [|done].
      injection Hs as <-. cbn. lia.
    + destruct (slice_indices _ _ _ _); cbn in Hs; [|done].
      injection Hs as <-. cbn. lia.
Qed.

(** The axes [get_items] marks for removal are the positions of the
    integer entries. *)
Lemma elem_of_axis_to_remove k items atr :
  axis_to_remove_from k items = Ok atr ->
  forall a, a ∈ atr <->
            exists j it, a = (k + j)%nat /\ items !! j = Some it /\
                         is_int it = true.
Proof.
  revert k atr. induction items as [|it items IH]; intros k atr.
  - intros [= <-] a. split; [by intros ?%elem_of_nil|].
    by intros (j & it & _ & ? & _).
  - destruct it as [i|a0 b c| |]; cbn [axis_to_remove_from]; try done.
    + destruct (axis_to_remove_from (S k) items) as [l|] eqn:E;
        cbn [rbind]; [|done].
      intros [= <-] a. rewrite elem_of_cons, (IH _ _ E). split.
      * intros [->|(j & it & -> & Hj & Hi)].
        -- exists 0%nat, (ItInt i). split; [lia|done].
        -- exists (S j), it. split; [lia|done].
      * intros ([|j] & it & -> & Hj & Hi); [left; lia|].
        right. exists j, it. split; [lia|done].
    + intros E a. rewrite (IH _ _ E). split.
      * intros (j & it & -> & Hj & Hi). exists (S j), it. split; [lia|done].
      * intros ([|j] & it & -> & Hj & Hi); cbn in Hj; [by simplify_eq|].
        exists j, it. split; [lia|done].
Qed.

Lemma new_axes_metadata_length k atr metadata items new last :
  (forall j it, items !! j = Some it ->
                (k + j)%nat ∈ atr <-> is_int it = true) ->
  new_axes_metadata_from k atr metadata items = Ok (new, last) ->
  (length items <= length metadata)%nat ->
  (length new + num_ints items = length items)%nat /\ last = length items.
Proof.
  revert k metadata new last.
  induction items as [|it items IH]; intros k metadata new last Hatr.
  - destruct metadata; intros [= <- <-] _; by cbn.
  - destruct metadata as [|m metadata]; [cbn; intros _ ?; lia|].
    cbn [new_axes_metadata_from].
    destruct (if decide (k ∈ atr) then _ else _) as [n0|] eqn:E0;
      cbn [rbind]; [|done].
    destruct (new_axes_metadata_from (S k) atr metadata items)
      as [[new' last']|] eqn:E; cbn [rbind]; [|done].
    intros [= <- <-] Hlen. cbn in Hlen.
    destruct (IH (S k) metadata new' last') as [IH1 ->]; [|done|lia|].
    { intros j it' Hj. rewrite <- (Hatr (S j) it' Hj).
      by replace (S k + j)%nat with (k + S j)%nat by lia. }
    split; [|done]. rewrite length_app, num_ints_cons. cbn [length].
    pose proof (Hatr 0%nat it eq_refl) as H0. rewrite Nat.add_0_r in H0.
    destruct (decide (k ∈ atr)) as [Hin|Hnin].
    + injection E0 as <-. apply H0 in Hin as ->. cbn. lia.
    + assert (is_int it = false) as ->.
      { apply not_true_is_false. by rewrite <- H0. }
      assert (length n0 = 1%nat) as ->; [|lia].
      destruct (kind m); try (by injection E0 as <-).
      destruct (ordinal_getitem _ _ _); cbn in E0; [|done].
      by injection E0 as <-.
Qed.

Section Aligned.

Context (normalize_axes : list Z -> list nat -> list Z).

(** X14 (one metadata entry per ensemble axis).  Indexing and squeezing keep
    the metadata in step with the array: an object with one metadata entry
    per ensemble axis is turned into an object with one metadata entry per
    ensemble axis. *)
Theorem ensemble_metadata_aligned (self r : HasArray) :
  aligned self ->
  (forall items keep_dims,
      get_items self items keep_dims = Ok r -> aligned r) /\
  (forall axis, squeeze normalize_axes self axis = Ok r -> aligned r) /\
  (_reduce_ensemble normalize_axes None self = Ok r -> aligned r).
Proof.
  intros Ha.
  assert (forall axis, squeeze normalize_axes self axis = Ok r -> aligned r)
    as Hsq.
  { intros axis Hr.
    destruct (squeeze_spec normalize_axes self axis)
      as (r0 & Hr0 & _ & He & _ & Hm & _).
    rewrite Hr in Hr0. injection Hr0 as <-.
    unfold aligned. rewrite He, Hm. by apply remove_positions_length. }
  split; [|split; [done|]].
  - intros items keep_dims. unfold get_items.
    destruct (match items with
              | Single (ItInt i) => _ | Single (ItSlice a b c) => _
              | Tuple its => _ | _ => _ end) as [items0|]; cbn [rbind]; [|done].
    set (items' := if keep_dims then _ else items0).
    destruct (Nat.ltb_spec (length (ensemble_shape self)) (length items'))
      as [|Hlen]; [done|].
    destruct (axis_to_remove_from 0 items') as [atr|] eqn:Hatr;
      cbn [rbind]; [|done].
    destruct (_is_base_axis self _); [done|].
    destruct (new_axes_metadata_from _ _ _ _) as [[new last]|] eqn:Hnew;
      cbn [rbind]; [|done].
    unfold getitem.
    destruct (selectors (shape (_array self)) items') as [sels|] eqn:Hsel;
      cbn [rbind]; [|done].
    intros [= <-].
    match goal with |- aligned ?x => set (res := x) end.
    pose proof (selectors_length _ _ _ Hsel) as Hsl.
    destruct (shapes_of_result self res
                (out_shape sels (ensemble_shape self))) as [He _].
    { cbn [res _array shape]. rewrite (shape_split self) at 1.
      apply out_shape_app. lia. }
    { done. }
    { apply out_shape_nil. }
    unfold aligned. rewrite He. cbn [res ensemble_axes_metadata].
    pose proof (out_shape_length _ _ _ Hsel (ensemble_shape self) Hlen) as Ho.
    apply new_axes_metadata_length in Hnew as [Hn ->];
      [| |unfold aligned in Ha; lia].
    + cbn [fst snd]. rewrite length_app, length_drop.
      unfold aligned in Ha. lia.
    + intros j it Hj. rewrite (elem_of_axis_to_remove _ _ _ Hatr). cbn. split.
      * intros (j' & it' & -> & Hj' & Hi). by simplify_eq.
      * intros Hi. by exists j, it.
  - unfold _reduce_ensemble.
    destruct (squeeze _ _ _) as [r0|] eqn:E; cbn [rbind]; [|done].
    intros [= ->]. by eapply Hsq.
Qed.

End Aligned.

(** The slice [i:i+1] that [keep_dims] puts in the place of the integer
    [i]: one element, except that [-1:0] is empty. *)
Lemma slice_indices_keep_dims (n : nat) (i : Z) :
  - Z.of_nat n <= i < Z.of_nat n ->
  slice_indices (Z.of_nat n) (Some i) (Some (i + 1)) None =
  Ok (if i =? -1 then [] else [Z.of_nat (wrap_index n i)]).
Proof.
  intros Hi. unfold slice_indices, wrap_index. cbn [default from_option id].
  change (1 =? 0) with false. change (1 <? 0) with false. cbn match.
  f_equal. unfold py_range. change (0 <? 1) with true. cbn match.
  destruct (Z.eqb_spec i (-1)) as [->|Hne].
  - change (-1 <? 0) with true. change (-1 + 1 <? 0) with false. cbn match.
    rewrite Z.div_1_r.
    replace (Z.to_nat _) with 0%nat by lia. done.
  - destruct (Z.ltb_spec i 0), (Z.ltb_spec (i + 1) 0); try lia.
    + rewrite Z.div_1_r.
      replace (Z.to_nat (Z.max _ _ - _ + 1 - 1)) with 1%nat by lia.
      cbn. f_equal. lia.
    + rewrite Z.div_1_r.
      replace (Z.to_nat (Z.min _ _ - _ + 1 - 1)) with 1%nat by lia.
      cbn. f_equal. lia.
Qed.

(** X15 (an integer index with and without [keep_dims]).  Indexing the first
    ensemble axis with an integer.  Without [keep_dims] the axis is removed
    and the result holds the elements at that index; with [keep_dims] the
    axis stays, with length one and the same elements, except for the index
    [-1], which leaves an axis of length zero. *)
Theorem get_items_keep_dims
    (self : HasArray) (n : nat) (rest : list nat) (i : Z) :
  ensemble_shape self = n :: rest ->
  - Z.of_nat n <= i < Z.of_nat n ->
  (exists r,
     get_items self (Single (ItInt i)) false = Ok r /\
     shape (_array r) = rest ++ base_shape self /\
     forall idx, item (_array r) idx =
                 item (_array self) (wrap_index n i :: idx)) /\
  (exists r,
     get_items self (Single (ItInt i)) true = Ok r /\
     shape (_array r) =
       (if i =? -1 then 0%nat else 1%nat) :: rest ++ base_shape self /\
     (i <> -1 ->
      forall idx, item (_array r) (0%nat :: idx) =
                  item (_array self) (wrap_index n i :: idx))).
Proof.
  intros He Hi. pose proof (shape_split self) as Hs. rewrite He in Hs.
  split.
  - unfold get_items. cbn [rbind length]. rewrite He. cbn [length].
    change (S (length rest) <? 1)%nat with false. cbn match.
    cbn [axis_to_remove_from rbind].
    assert (_is_base_axis self [0%nat] = false) as ->.
    { unfold _is_base_axis. cbn [existsb]. by rewrite He. }
    assert (exists nl, new_axes_metadata_from 0 [0%nat]
                         (ensemble_axes_metadata self) [ItInt i] = Ok nl)
      as [nl ->].
    { destruct (ensemble_axes_metadata self) as [|m ms];
        cbn [new_axes_metadata_from]; [by eexists|].
      rewrite decide_True by (by left). cbn [rbind].
      destruct ms; by eexists. }
    cbn [rbind]. unfold getitem. rewrite Hs. cbn [selectors select_axis app].
    assert (Grid.normalize_index (Z.of_nat n) i
            = Ok (Z.of_nat (wrap_index n i)))
      as ->.
    { unfold Grid.normalize_index, wrap_index.
      destruct (Z.leb_spec 0 i), (Z.ltb_spec i (Z.of_nat n)),
               (Z.ltb_spec i 0); cbn; try lia; [f_equal; lia|].
      destruct (Z.leb_spec (- Z.of_nat n) i); cbn; [f_equal|]; lia. }
    cbn [rbind]. rewrite Nat2Z.id.
    destruct (rest ++ base_shape self); cbn [selectors rbind];
      by eexists.
  - unfold get_items. cbn [rbind fmap list_fmap length]. rewrite He.
    cbn [length].
    change (S (length rest) <? 1)%nat with false. cbn match.
    cbn [axis_to_remove_from rbind].
    assert (_is_base_axis self [] = false) as -> by done.
    assert (exists nl, new_axes_metadata_from 0 []
                         (ensemble_axes_metadata self)
                         [ItSlice (Some i) (Some (i + 1)) None] = Ok nl)
      as [nl ->].
    { destruct (ensemble_axes_metadata self) as [|m ms];
        cbn [new_axes_metadata_from]; [by eexists|].
      rewrite decide_False by apply not_elem_of_nil.
      destruct (kind m) as [| |values|]; cbn [rbind];
        destruct ms; by eexists. }
    cbn [rbind]. unfold getitem. rewrite Hs. cbn [selectors select_axis app].
    rewrite slice_indices_keep_dims by done. cbn [rbind]. eexists.
    split; [done|]. cbn [_array shape item out_shape].
    destruct (Z.eqb_spec i (-1)); [done|]. split; [done|].
    intros _ idx. cbn. by rewrite Nat2Z.id.
Qed.

Lemma axis_to_remove_unsupported k items :
  Exists unsupported items ->
  axis_to_remove_from k items = Raise NotImplementedError.
Proof.
  intros H. revert k. induction items as [|it items IH]; intros k.
  - by apply Exists_nil in H.
  - apply Exists_cons in H as [[-> | ->]|H]; [done..|].
    destruct it; cbn [axis_to_remove_from]; try done.
    + by rewrite IH.
    + by apply IH.
Qed.

(** X16 (indices that are refused).  An [Ellipsis] or a [None] in the index
    is refused, with or without [keep_dims], before the array is indexed, so
    also when another entry is out of range; an index that is not a number,
    a slice or a tuple is refused as well.  Only the number of entries is
    checked earlier. *)
Theorem get_items_not_implemented (self : HasArray) (keep_dims : bool) :
  (forall its,
      (length its <= length (ensemble_shape self))%nat ->
      Exists unsupported its ->
      get_items self (Tuple its) keep_dims = Raise NotImplementedError) /\
  (forall its,
      (length (ensemble_shape self) < length its)%nat ->
      Exists unsupported its ->
      get_items self (Tuple its) keep_dims = Raise RuntimeError) /\
  get_items self (Single ItEllipsis) keep_dims = Raise NotImplementedError /\
  get_items self (Single ItNone) keep_dims = Raise NotImplementedError /\
  get_items self OtherItems keep_dims = Raise NotImplementedError.
Proof.
  assert (forall its,
    length (if keep_dims then keep_dims_item <$> its else its) = length its)
    as Hlen by (intros its; destruct keep_dims; [by rewrite length_fmap|done]).
  split; [|split; [|done]].
  - intros its Hl Hex. unfold get_items. cbn [rbind].
    fold keep_dims_item. rewrite Hlen.
    destruct (Nat.ltb_spec (length (ensemble_shape self)) (length its));
      [lia|].
    rewrite axis_to_remove_unsupported; [done|].
    destruct keep_dims; [|done]. apply Exists_fmap.
    eapply Exists_impl; [done|]. by intros it [-> | ->]; [left|right].
  - intros its Hl _. unfold get_items. cbn [rbind].
    fold keep_dims_item. rewrite Hlen.
    by destruct (Nat.ltb_spec (length (ensemble_shape self)) (length its));
      [|lia].
Qed.

Lemma squeeze_all_idempotent_witness :
  exists r,
    squeeze normalize_axes_example example_object None = Ok r /\
    (1%nat ∉ ensemble_shape r) /\
    exists r',
      squeeze normalize_axes_example r None = Ok r' /\
      shape (_array r') = shape (_array r) /\
      ensemble_axes_metadata r' = ensemble_axes_metadata r /\
      _base_dims r' = _base_dims r /\
      forall out, length out = length (shape (_array r)) ->
                  item (_array r') out = item (_array r) out.
Proof.
  eexists. split; [reflexivity|].
  apply (squeeze_all_idempotent normalize_axes_example example_object).
  reflexivity.
Defined.

Lemma ensemble_metadata_aligned_witness :
  aligned example_object /\
  aligned example_indexed_object /\
  (exists r,
     squeeze normalize_axes_example example_object (Some [-5; 1]) = Ok r /\
     aligned r) /\
  (exists r,
     _reduce_ensemble normalize_axes_example None example_object = Ok r /\
     aligned r).
Proof.
  assert (Ha : aligned example_object) by reflexivity.
  split; [exact Ha|]. split; [|split].
  - apply (ensemble_metadata_aligned normalize_axes_example example_object
             example_indexed_object Ha)
      with (items := Tuple [ItInt 0; ItSlice (Some 1) None None])
           (keep_dims := false).
    reflexivity.
  - eexists. split; [reflexivity|].
    apply (ensemble_metadata_aligned normalize_axes_example example_object
             _ Ha) with (axis := Some [-5; 1]).
    reflexivity.
  - eexists. split; [reflexivity|].
    apply (ensemble_metadata_aligned normalize_axes_example example_object
             _ Ha).
    reflexivity.
Defined.

Lemma get_items_keep_dims_witness :
  (exists r,
     get_items example_object (Single (ItInt 0)) false = Ok r /\
     shape (_array r) = [3; 1]%nat ++ base_shape example_object /\
     forall idx, item (_array r) idx =
                 item (_array example_object) (wrap_index 1 0 :: idx)) /\
  (exists r,
     get_items example_object (Single (ItInt (-1))) true = Ok r /\
     shape (_array r) =
       (if -1 =? -1 then 0%nat else 1%nat)
         :: [3; 1]%nat ++ base_shape example_object /\
     (-1 <> -1 ->
      forall idx, item (_array r) (0%nat :: idx) =
                  item (_array example_object) (wrap_index 1 (-1) :: idx))).
Proof.
  split.
  - apply (get_items_keep_dims example_object 1 [3; 1]%nat 0);
      [reflexivity|lia].
  - apply (get_items_keep_dims example_object 1 [3; 1]%nat (-1));
      [reflexivity|lia].
Defined.

Lemma get_items_not_implemented_witness :
  get_items example_object (Tuple [ItInt 0; ItEllipsis]) false
    = Raise NotImplementedError /\
  get_items example_object
    (Tuple [ItInt 0; ItInt 0; ItInt 0; ItNone]) false = Raise RuntimeError.
Proof.
  destruct (get_items_not_implemented example_object false) as (H1 & H2 & _).
  split.
  - apply H1.
    + simpl; lia.
    + apply Exists_cons_tl, Exists_cons_hd. by left.
  - apply H2.
    + simpl; lia.
    + do 3 apply Exists_cons_tl. apply Exists_cons_hd. by right.
Defined.

End EnsembleAxes.

(** ** [abtem/core/array.py]: [HasArray.expand_dims] and [stack] *)

Module EnsembleOps.

Import ArrayObject EnsembleAxes.

(** [list.insert(i, x)]: a negative position counts from the end, and a
    position outside the list is the nearer end. *)
Definition py_insert {A} (l : list A) (i : Z) (x : A) : list A :=
  let n := Z.of_nat (length l) in
  let k := if i <? 0 then Z.max (i + n) 0 else Z.min i n in
  take (Z.to_nat k) l ++ x :: drop (Z.to_nat k) l.

(** NumPy's [normalize_axis_tuple(axis, ndim)]: an axis outside
    [-ndim, ndim) is an [AxisError], which is an [IndexError] (and a
    [ValueError]); a repeated axis is a [ValueError]. *)
Definition normalize_axis_tuple (axis : list Z) (ndim : nat)
  : result (list nat) :=
  rbind (SliceQueries.collect
           ((fun ax => rbind (Grid.normalize_index (Z.of_nat ndim) ax)
                             (fun k => Ok (Z.to_nat k))) <$> axis))
        (fun axis =>
  if decide (NoDup axis) then Ok axis else Raise ValueError).

(** [[1 if ax in axis else next(shape_it) for ax in range(out_ndim)]], from
    [ax = k] on; the shape cannot run out, since the axes are distinct. *)
Fixpoint expand_shape (axis : list nat) (k n : nat) (sh : list nat)
  : list nat :=
  match n with
  | O => []
  | S n' =>
      if decide (k ∈ axis) then 1%nat :: expand_shape axis (S k) n' sh
      else match sh with
           | x :: sh' => x :: expand_shape axis (S k) n' sh'
           | [] => []
           end
  end.

(** [numpy.expand_dims(a, axis)] for a tuple of axes. *)
Definition np_expand_dims (a : ndarray) (axis : list Z) : result ndarray :=
  let out_ndim := (length axis + length (shape a))%nat in
  rbind (normalize_axis_tuple axis out_ndim) (fun axis =>
  Ok (mk_nd (expand_shape axis 0 out_ndim (shape a))
            (fun idx => item a (remove_positions axis idx)))).

(** The [axis] argument: nothing, one integer, or a tuple or list. *)
Inductive axis_arg : Type :=
| AxisNone
| AxisInt (a : Z)
| AxisTuple (l : list Z).

Section Expand.

(** [abtem.core.utils.normalize_axes] and the metadata [UnknownAxis()] builds
    are not part of the sources at hand: they are parameters. *)
Variable normalize_axes : list Z -> list nat -> list Z.
Variable unknown_axis : AxisMetadata.

(** [HasArray.expand_dims(axis=None, axis_metadata=None)] *)
Definition expand_dims (self : HasArray) (axis : axis_arg)
    (axis_metadata : option (list AxisMetadata)) : result HasArray :=
  let axis :=
    match axis with
    | AxisNone => [0]
    | AxisInt a => [a]
    | AxisTuple l => l
    end in
  let axis_metadata :=
    match axis_metadata with
    | None => replicate (length axis) unknown_axis
    | Some l => l
    end in
  let axis := normalize_axes axis (shape (_array self)) in
  if existsb (fun a => Z.of_nat (length (ensemble_shape self)) +
                       Z.of_nat (length axis) <=? a) axis
  then Raise RuntimeError
  else
    let ensemble_axes_metadata :=
      foldl (fun acc aam => py_insert acc (fst aam) (snd aam))
            (ensemble_axes_metadata self) (zip axis axis_metadata) in
    rbind (np_expand_dims (_array self) axis) (fun array =>
    Ok (mk_obj array (_base_dims self) ensemble_axes_metadata)).

End Expand.

(** How a call ends when the code has an [assert]: it returns, raises, or
    the assertion fails. *)
Inductive outcome (A : Type) : Type :=
| Returns (a : A)
| Raises (e : exn)
| AssertionFails.
Arguments Returns {A} a.
Arguments Raises {A} e.
Arguments AssertionFails {A}.

(** [numpy.stack(arrays, axis)] *)
Definition np_stack (arrays : list ndarray) (axis : Z) : result ndarray :=
  match arrays with
  | [] => Raise ValueError
  | a0 :: _ =>
      if forallb (fun a => bool_decide (shape a = shape a0)) arrays then
        rbind (Grid.normalize_index (Z.of_nat (S (length (shape a0)))) axis)
              (fun ax =>
        let ax := Z.to_nat ax in
        Ok (mk_nd (take ax (shape a0) ++ length arrays :: drop ax (shape a0))
                  (fun idx =>
                     match arrays !! nth ax idx 0%nat with
                     | Some a => item a (remove_positions [ax] idx)
                     | None => 0%Qc
                     end)))
      else Raise ValueError
  end.

(** [stack(has_arrays, axes_metadata, axis=0)] of [abtem/core/array.py], for
    arrays that are not lazy. *)
Definition stack (has_arrays : list HasArray) (axes_metadata : AxisMetadata)
    (axis : Z) : outcome HasArray :=
  match has_arrays with
  | [] => Raises IndexError
  | h0 :: _ =>
      if axis <=? Z.of_nat (length (ensemble_shape h0)) then
        match np_stack (_array <$> has_arrays) axis with
        | Ok array =>
            Returns (mk_obj array (_base_dims h0)
                            (axes_metadata :: ensemble_axes_metadata h0))
        | Raise e => Raises e
        end
      else AssertionFails
  end.

(** *** Facts *)

Lemma remove_positions_0 {A} (x : A) (l : list A) :
  remove_positions [0%nat] (x :: l) = l.
Proof.
  change (x :: l) with ([x] ++ l).
  rewrite remove_positions_app by (repeat constructor).
  unfold remove_positions. cbn [imap]. rewrite filter_cons_False; [done|].
  cbn. intros H. apply H. by left.
Qed.

Lemma expand_shape_rest axis k sh :
  Forall (fun a => (a < k)%nat) axis ->
  expand_shape axis k (length sh) sh = sh.
Proof.
  intros Ha. revert k Ha. induction sh as [|x sh IH]; intros k Ha; [done|].
  cbn [length expand_shape]. rewrite decide_False.
  - f_equal. apply IH. eapply Forall_impl; [done|]. cbn. lia.
  - intros Hin. rewrite Forall_forall in Ha. specialize (Ha _ Hin). lia.
Qed.

(** The base and ensemble shapes after one more leading ensemble axis. *)
Lemma shapes_cons (self r : HasArray) (n : nat) :
  shape (_array r) = n :: shape (_array self) ->
  _base_dims r = _base_dims self ->
  (0 < _base_dims self <= length (shape (_array self)))%nat ->
  ensemble_shape r = n :: ensemble_shape self /\
  base_shape r = base_shape self.
Proof.
  intros Hs Hb Hbd. unfold ensemble_shape, base_shape.
  rewrite Hb, Hs. unfold py_drop_last, py_take_last.
  rewrite !decide_False by lia. cbn [length].
  replace (S (length (shape (_array self))) - _base_dims self)%nat
    with (S (length (shape (_array self)) - _base_dims self)) by lia.
  done.
Qed.

Lemma remove_positions_ext {A} (p p' : list nat) (l : list A) :
  (forall i, i ∈ p <-> i ∈ p') ->
  remove_positions p l = remove_positions p' l.
Proof.
  intros H. unfold remove_positions. f_equal. apply list_filter_iff.
  intros [i x]. cbn. by rewrite H.
Qed.

Lemma unsqueeze_index_ext (p p' : list nat) k rank out :
  (forall i, i ∈ p <-> i ∈ p') ->
  unsqueeze_index p k rank out = unsqueeze_index p' k rank out.
Proof.
  intros H. revert k out. induction rank as [|rank IH]; intros k out; [done|].
  cbn [unsqueeze_index].
  destruct (decide (k ∈ p)) as [Hk|Hk], (decide (k ∈ p')) as [Hk'|Hk'];
    try (by apply H in Hk); try (by apply H in Hk').
  - by rewrite IH.
  - destruct out; [done|]. by rewrite IH.
Qed.

Lemma unsqueeze_index_rest p k rank out :
  Forall (fun a => (a < k)%nat) p -> length out = rank ->
  unsqueeze_index p k rank out = out.
Proof.
  intros Hp. revert k out Hp.
  induction rank as [|rank IH]; intros k [|j out] Hp H; cbn in *; try done.
  rewrite decide_False.
  - f_equal. apply IH; [|lia]. eapply Forall_impl; [done|]. cbn. lia.
  - intros Hin. rewrite Forall_forall in Hp. specialize (Hp _ Hin). lia.
Qed.

Section Expand_facts.

Context (normalize_axes : list Z -> list nat -> list Z)
        (unknown_axis : AxisMetadata).

(** What the development assumes of [normalize_axes]: axes that are not
    negative are left as they are. *)
Hypothesis normalize_axes_nonneg :
  forall (axis : list nat) (sh : list nat),
    normalize_axes (Z.of_nat <$> axis) sh = Z.of_nat <$> axis.

Lemma normalize_axes_0 sh : normalize_axes [0] sh = [0].
Proof. exact (normalize_axes_nonneg [0%nat] sh). Qed.

Lemma expand_dims_default_run (self : HasArray) :
  expand_dims normalize_axes unknown_axis self AxisNone None =
  Ok (mk_obj (mk_nd (1%nat :: shape (_array self))
                    (fun idx => item (_array self)
                                     (remove_positions [0%nat] idx)))
             (_base_dims self)
             (unknown_axis :: ensemble_axes_metadata self)).
Proof.
  unfold expand_dims. rewrite normalize_axes_0.
  cbn [existsb length].
  destruct (Z.leb_spec (Z.of_nat (length (ensemble_shape self)) + Z.of_nat 1)
                       0); [lia|].
  cbn [orb replicate zip zip_with foldl fst snd].
  unfold np_expand_dims, normalize_axis_tuple. cbn [length Nat.add].
  cbn [fmap list_fmap SliceQueries.collect].
  unfold Grid.normalize_index.
  destruct (Z.leb_spec 0 0); [|lia].
  destruct (Z.ltb_spec 0 (Z.of_nat (S (length (shape (_array self))))));
    [|lia].
  cbn [andb rbind]. rewrite decide_True by (repeat constructor; set_solver).
  cbn [rbind expand_shape]. rewrite decide_True by (by left).
  change (Z.to_nat 0) with 0%nat.
  rewrite expand_shape_rest by (repeat constructor; lia).
  unfold py_insert. change (0 <? 0) with false. cbn match.
  rewrite Z.min_l by lia. done.
Qed.

(** X17 (a new leading axis).  [expand_dims()] puts one axis of length one,
    with the metadata of an unknown axis, in front of the ensemble axes and
    keeps the elements and the base axes; an axis that would fall among the
    base axes is an error. *)
Theorem expand_dims_leading_axis (self : HasArray) :
  (exists r,
     expand_dims normalize_axes unknown_axis self AxisNone None = Ok r /\
     shape (_array r) = 1%nat :: shape (_array self) /\
     ensemble_axes_metadata r = unknown_axis :: ensemble_axes_metadata self /\
     _base_dims r = _base_dims self /\
     (forall j idx, item (_array r) (j :: idx) = item (_array self) idx) /\
     ((0 < _base_dims self <= length (shape (_array self)))%nat ->
      ensemble_shape r = 1%nat :: ensemble_shape self /\
      base_shape r = base_shape self /\
      (aligned self -> aligned r))) /\
  (forall (axis : list nat) (axis_metadata : option (list AxisMetadata)),
      Exists (fun a => (length (ensemble_shape self) + length axis <= a)%nat)
             axis ->
      expand_dims normalize_axes unknown_axis self
                  (AxisTuple (Z.of_nat <$> axis)) axis_metadata
      = Raise RuntimeError).
Proof.
  split.
  - eexists. split; [apply expand_dims_default_run|].
    cbn [_array shape item ensemble_axes_metadata _base_dims].
    split; [done|]. split; [done|]. split; [done|]. split.
    + intros j idx. by rewrite remove_positions_0.
    + intros Hbd.
      match goal with |- ensemble_shape ?x = _ /\ _ => set (r := x) end.
      destruct (shapes_cons self r 1) as [He Hb]; [done..|].
      split; [done|]. split; [done|].
      unfold aligned. rewrite He. cbn. lia.
  - intros axis md Hex. unfold expand_dims. rewrite normalize_axes_nonneg.
    rewrite length_fmap.
    assert (existsb (fun a => Z.of_nat (length (ensemble_shape self)) +
                              Z.of_nat (length axis) <=? a)
                    (Z.of_nat <$> axis) = true) as ->; [|done].
    apply existsb_exists. apply Exists_exists in Hex as (a & Ha & Hle).
    exists (Z.of_nat a). split.
    + apply list_elem_of_In. by apply list_elem_of_fmap_2.
    + apply Z.leb_le. lia.
Qed.

(** X18 (expanding, then squeezing).  Adding a leading axis and squeezing it
    again gives the object back: the same shape, metadata and elements. *)
Theorem expand_dims_squeeze_roundtrip (self : HasArray) :
  (0 < _base_dims self <= length (shape (_array self)))%nat ->
  exists r r',
    expand_dims normalize_axes unknown_axis self AxisNone None = Ok r /\
    squeeze normalize_axes r (Some [0]) = Ok r' /\
    shape (_array r') = shape (_array self) /\
    ensemble_axes_metadata r' = ensemble_axes_metadata self /\
    _base_dims r' = _base_dims self /\
    forall out, length out = length (shape (_array self)) ->
                item (_array r') out = item (_array self) out.
Proof.
  intros Hbd.
  set (r := mk_obj (mk_nd (1%nat :: shape (_array self))
                          (fun idx => item (_array self)
                                           (remove_positions [0%nat] idx)))
                   (_base_dims self)
                   (unknown_axis :: ensemble_axes_metadata self)).
  destruct (shapes_cons self r 1) as [He Hb]; [done..|].
  assert (forall i, i ∈ squeezed_axes normalize_axes r (Some [0]) <->
                    i ∈ [0%nat]) as Hsq.
  { intros i. rewrite elem_of_squeezed_axes, He. unfold requested.
    rewrite normalize_axes_0.
    rewrite !list_elem_of_singleton. split.
    - intros [_ Hi]. lia.
    - intros ->. by split. }
  destruct (squeeze_spec normalize_axes r (Some [0]))
    as (r' & Hr' & Hbd' & He' & Hb' & Hm' & Hitem).
  rewrite (remove_positions_ext _ [0%nat]) in He' by done.
  rewrite (remove_positions_ext _ [0%nat]) in Hm' by done.
  rewrite He, remove_positions_0 in He'.
  cbn [r ensemble_axes_metadata] in Hm'. rewrite remove_positions_0 in Hm'.
  exists r, r'. split; [apply expand_dims_default_run|]. split; [done|].
  split; [by rewrite (shape_split r'), He', Hb', Hb, <- shape_split|].
  split; [done|]. split; [done|].
  intros out Hout. rewrite Hitem.
  rewrite (unsqueeze_index_ext _ [0%nat]) by done.
  cbn [r _array shape length unsqueeze_index item].
  rewrite decide_True by (by left). rewrite remove_positions_0.
  by rewrite unsqueeze_index_rest by (by repeat constructor).
Qed.

End Expand_facts.

(** X19 (stacking).  Stacking along the leading axis: object [k] of the list
    is found at index [k] of a new first ensemble axis, described by the
    metadata given, before the axes and metadata of the first object; the
    base axes are untouched.  Objects of different shapes cannot be stacked,
    an axis after the ensemble axes fails the assertion, and an empty list
    has no first object. *)
Theorem stack_leading_axis
    (h0 : HasArray) (hs : list HasArray) (axes_metadata : AxisMetadata) :
  (Forall (fun h => shape (_array h) = shape (_array h0)) hs ->
   exists r,
     stack (h0 :: hs) axes_metadata 0 = Returns r /\
     shape (_array r) = S (length hs) :: shape (_array h0) /\
     ensemble_axes_metadata r = axes_metadata :: ensemble_axes_metadata h0 /\
     _base_dims r = _base_dims h0 /\
     (forall k h idx, (h0 :: hs) !! k = Some h ->
                      item (_array r) (k :: idx) = item (_array h) idx) /\
     ((0 < _base_dims h0 <= length (shape (_array h0)))%nat ->
      ensemble_shape r = S (length hs) :: ensemble_shape h0 /\
      base_shape r = base_shape h0 /\
      (aligned h0 -> aligned r))) /\
  (Exists (fun h => shape (_array h) <> shape (_array h0)) hs ->
   forall axis, axis <= Z.of_nat (length (ensemble_shape h0)) ->
     stack (h0 :: hs) axes_metadata axis = Raises ValueError) /\
  (forall axis, Z.of_nat (length (ensemble_shape h0)) < axis ->
     stack (h0 :: hs) axes_metadata axis = AssertionFails) /\
  (forall axis, stack [] axes_metadata axis = Raises IndexError).
Proof.
  split; [|split; [|split]].
  - intros Hall. unfold stack.
    destruct (Z.leb_spec 0 (Z.of_nat (length (ensemble_shape h0)))); [|lia].
    unfold np_stack. cbn [fmap list_fmap].
    assert (forallb (fun a => bool_decide (shape a = shape (_array h0)))
                    (_array h0 :: (_array <$> hs)) = true) as ->.
    { cbn [forallb]. rewrite bool_decide_eq_true_2 by done. cbn [andb].
      apply forallb_forall. intros a Ha%list_elem_of_In.
      apply list_elem_of_fmap in Ha as (h & -> & Hh).
      apply bool_decide_eq_true_2. rewrite Forall_forall in Hall.
      by apply Hall. }
    unfold Grid.normalize_index.
    destruct (Z.leb_spec 0 0); [|lia].
    destruct (Z.ltb_spec 0 (Z.of_nat (S (length (shape (_array h0))))));
      [|lia].
    cbn [andb rbind]. change (Z.to_nat 0) with 0%nat.
    rewrite take_0, drop_0. cbn [app length]. rewrite length_fmap.
    eexists. split; [done|].
    cbn [_array shape item ensemble_axes_metadata _base_dims].
    split; [done|]. split; [done|]. split; [done|]. split.
    + intros k h idx Hk. cbn [nth]. rewrite remove_positions_0.
      change (_array h0 :: (_array <$> hs)) with (_array <$> (h0 :: hs)).
      by rewrite list_lookup_fmap, Hk.
    + intros Hbd.
      match goal with |- ensemble_shape ?x = _ /\ _ => set (r := x) end.
      destruct (shapes_cons h0 r (S (length hs))) as [He Hb]; [done..|].
      split; [done|]. split; [done|].
      unfold aligned. rewrite He. cbn. lia.
  - intros Hex axis Hax. unfold stack.
    destruct (Z.leb_spec axis (Z.of_nat (length (ensemble_shape h0)))); [|lia].
    unfold np_stack. cbn [fmap list_fmap].
    assert (forallb (fun a => bool_decide (shape a = shape (_array h0)))
                    (_array h0 :: (_array <$> hs)) = false) as ->; [|done].
    apply not_true_is_false. intros Hall.
    apply Exists_exists in Hex as (h & Hh & Hne). apply Hne.
    rewrite forallb_forall in Hall.
    specialize (Hall (_array h)). rewrite bool_decide_eq_true in Hall.
    apply Hall. right. apply list_elem_of_In. by apply list_elem_of_fmap_2.
  - intros axis Hax. unfold stack.
    by destruct (Z.leb_spec axis (Z.of_nat (length (ensemble_shape h0))));
      [lia|].
  - done.
Qed.

Lemma expand_dims_leading_axis_witness :
  let unknown_axis := mk_axis UnknownAxis false in
  (exists r,
     expand_dims normalize_axes_example unknown_axis example_object
                 AxisNone None = Ok r /\
     shape (_array r) = 1%nat :: shape (_array example_object) /\
     ensemble_axes_metadata r =
       unknown_axis :: ensemble_axes_metadata example_object /\
     ensemble_shape r = 1%nat :: ensemble_shape example_object /\
     base_shape r = base_shape example_object /\
     aligned r) /\
  expand_dims normalize_axes_example unknown_axis example_object
              (AxisTuple (Z.of_nat <$> [0; 5]%nat)) None
  = Raise RuntimeError.
Proof.
  intros unknown_axis.
  destruct (expand_dims_leading_axis normalize_axes_example unknown_axis
              normalize_axes_example_nonneg example_object)
    as [(r & Hr & Hs & Hm & _ & _ & Hb) Herr].
  split.
  - destruct Hb as (He & Hb & Ha); [simpl; lia|].
    exists r. repeat split; try done. apply Ha. reflexivity.
  - apply Herr. apply Exists_cons_tl, Exists_cons_hd. simpl; lia.
Defined.

Lemma expand_dims_squeeze_roundtrip_witness :
  let unknown_axis := mk_axis UnknownAxis false in
  exists r r',
    expand_dims normalize_axes_example unknown_axis example_object
                AxisNone None = Ok r /\
    squeeze normalize_axes_example r (Some [0]) = Ok r' /\
    shape (_array r') = shape (_array example_object) /\
    ensemble_axes_metadata r' = ensemble_axes_metadata example_object /\
    _base_dims r' = _base_dims example_object /\
    forall out, length out = length (shape (_array example_object)) ->
                item (_array r') out = item (_array example_object) out.
Proof.
  intros unknown_axis.
  apply (expand_dims_squeeze_roundtrip normalize_axes_example unknown_axis
           normalize_axes_example_nonneg example_object).
  simpl; lia.
Defined.

Lemma stack_leading_axis_witness :
  let axes_metadata := mk_axis UnknownAxis false in
  (exists r,
     stack [example_object; example_object] axes_metadata 0 = Returns r /\
     shape (_array r) = 2%nat :: shape (_array example_object) /\
     ensemble_shape r = 2%nat :: ensemble_shape example_object /\
     base_shape r = base_shape example_object /\
     aligned r) /\
  stack [example_object; example_indexed_object] axes_metadata 0
    = Raises ValueError /\
  stack [example_object; example_object] axes_metadata 4 = AssertionFails.
Proof.
  intros axes_metadata. split; [|split].
  - destruct (stack_leading_axis example_object [example_object]
                axes_metadata) as ((r & Hr & Hs & _ & _ & _ & Hb) & _).
    { repeat constructor. }
    destruct Hb as (He & Hb & Ha); [simpl; lia|].
    exists r. repeat split; try done. apply Ha. reflexivity.
  - destruct (stack_leading_axis example_object [example_indexed_object]
                axes_metadata) as (_ & H & _).
    apply H; [|simpl; lia].
    apply Exists_cons_hd. discriminate.
  - destruct (stack_leading_axis example_object [example_object]
                axes_metadata) as (_ & _ & H & _).
    apply H. simpl; lia.
Defined.

End EnsembleOps.

From Stdlib Require String.

(** ** [abtem/waves.py]: the parity of the grid points *)

Module Gpts.

Import EnsembleOps.
Import String.
Local Open Scope Z_scope.

(** Sequencing of calls that may fail an assertion. *)
Definition obind {A B} (o : outcome A) (k : A -> outcome B) : outcome B :=
  match o with
  | Returns a => k a
  | Raises e => Raises e
  | AssertionFails => AssertionFails
  end.

(** [_ensure_parity(n, even, v=1)] for Python integers; [even] is a
    [bool], so the second assertion holds. *)
Definition _ensure_parity (n : Z) (even : bool) (v : Z) : outcome Z :=
  if negb ((v =? 1) || (v =? -1)) then AssertionFails
  else if (n mod 2 =? 0) && negb even then Returns (n + v)
  else if negb (n mod 2 =? 0) && even then Returns (n + v)
  else Returns n.

(** [_ensure_parity_of_gpts(new_gpts, old_gpts, parity)]: the function ends
    without a [return] when [parity] is ["none"], and so returns [None]. *)
Definition _ensure_parity_of_gpts (new_gpts old_gpts : Z * Z)
    (parity : String.string) : outcome (option (Z * Z)) :=
  let both (e0 e1 : bool) :=
    obind (_ensure_parity (fst new_gpts) e0 1) (fun a =>
    obind (_ensure_parity (snd new_gpts) e1 1) (fun b =>
    Returns (Some (a, b)))) in
  if String.eqb parity "same"%string then
    both (fst old_gpts mod 2 =? 0) (snd old_gpts mod 2 =? 0)
  else if String.eqb parity "odd"%string then both false false
  else if String.eqb parity "even"%string then both true true
  else if negb (String.eqb parity "none"%string) then Raises ValueError
  else Returns None.

(** [max(sampling)] of the two samplings. *)
Definition Qcmax (a b : Qc) : Qc := if Qcleb a b then b else a.

Section Antialias.

(** [abtem.core.utils.safe_floor_int] is not part of the sources at hand: it
    is a parameter. *)
Variable safe_floor_int : Qc -> Z.

(** [_antialias_cutoff_gpts(gpts, sampling)]; the division by a zero
    sampling raises for Python floats. *)
Definition _antialias_cutoff_gpts (gpts : Z * Z) (sampling : Qc * Qc)
  : outcome (option (Z * Z)) :=
  let m := Qcmax (fst sampling) (snd sampling) in
  if decide (m = 0%Qc) then Raises ZeroDivisionError
  else
    let kcut := (Q2Qc (2 # 1) / Q2Qc (3 # 1) / m)%Qc in
    let extent := ((QcZ (fst gpts) * fst sampling)%Qc,
                   (QcZ (snd gpts) * snd sampling)%Qc) in
    let new_gpts := (safe_floor_int (kcut * fst extent),
                     safe_floor_int (kcut * snd extent)) in
    _ensure_parity_of_gpts new_gpts gpts "same"%string.

End Antialias.

(** [n % 2 == 0] *)
Definition is_even (n : Z) : bool := n mod 2 =? 0.

(** *** Facts *)

Lemma is_even_step m v : v = 1 \/ v = -1 -> is_even (m + v) = negb (is_even m).
Proof.
  intros Hv. unfold is_even.
  pose proof (Z.mod_pos_bound m 2 ltac:(lia)).
  destruct Hv as [-> | ->].
  - rewrite Z.add_mod by lia.
    destruct (Z.eqb_spec (m mod 2) 0) as [->|]; [done|].
    replace (m mod 2) with 1 by lia. done.
  - replace (m + -1) with (m + 1 + (-1) * 2) by lia.
    rewrite Z.mod_add, Z.add_mod by lia.
    destruct (Z.eqb_spec (m mod 2) 0) as [->|]; [done|].
    replace (m mod 2) with 1 by lia. done.
Qed.

Lemma _ensure_parity_value n even v :
  v = 1 \/ v = -1 ->
  _ensure_parity n even v =
  Returns (if Bool.eqb (is_even n) even then n else n + v).
Proof.
  intros Hv. unfold _ensure_parity. fold (is_even n).
  assert (negb ((v =? 1) || (v =? -1)) = false) as ->
    by (destruct Hv as [-> | ->]; done).
  by destruct (is_even n), even.
Qed.

Lemma _ensure_parity_one n even :
  exists r, _ensure_parity n even 1 = Returns r /\
            is_even r = even /\ n <= r <= n + 1.
Proof.
  rewrite _ensure_parity_value by (by left). eexists. split; [done|].
  destruct (Bool.eqb (is_even n) even) eqn:E.
  - apply Bool.eqb_prop in E. split; [done|lia].
  - rewrite is_even_step by (by left). split; [|lia].
    by destruct (is_even n), even.
Qed.

(** X20 (parity of one number).  [_ensure_parity] returns a number of the
    parity asked for: the number it was given when that has the parity
    already, and the next one in the direction of [v] otherwise; a second
    application changes nothing.  A step other than 1 or -1 fails the
    assertion. *)
Theorem ensure_parity_spec (n : Z) (even : bool) (v : Z) :
  (v = 1 \/ v = -1 ->
   exists r,
     _ensure_parity n even v = Returns r /\
     is_even r = even /\
     (is_even n = even -> r = n) /\
     (is_even n <> even -> r = n + v) /\
     _ensure_parity r even v = Returns r) /\
  (v <> 1 -> v <> -1 -> _ensure_parity n even v = AssertionFails).
Proof.
  split.
  - intros Hv. rewrite _ensure_parity_value by done.
    eexists. split; [done|].
    assert (is_even (if Bool.eqb (is_even n) even then n else n + v) = even)
      as Hr.
    { destruct (Bool.eqb (is_even n) even) eqn:E.
      - by apply Bool.eqb_prop.
      - rewrite is_even_step by done. by destruct (is_even n), even. }
    split; [done|]. split; [|split].
    + intros ->. by rewrite Bool.eqb_reflx.
    + intros Hne. destruct (Bool.eqb (is_even n) even) eqn:E; [|done].
      by apply Bool.eqb_prop in E.
    + rewrite _ensure_parity_value, Hr by done. by rewrite Bool.eqb_reflx.
  - intros H1 H2. unfold _ensure_parity.
    by destruct (Z.eqb_spec v 1), (Z.eqb_spec v (-1)).
Qed.

(** X21 (parity of the grid points).  The parity [_ensure_parity_of_gpts]
    gives both numbers: that of the old grid for ["same"], odd or even as
    asked; each number grows by one at most.  For ["none"] the function
    returns [None], not the grid it was given, and any other word is a
    [ValueError]. *)
Theorem ensure_parity_of_gpts_spec (new_gpts old_gpts : Z * Z) :
  let wanted (parity : string) (old : Z) : bool :=
    if String.eqb parity "same" then is_even old
    else String.eqb parity "even" in
  (forall parity,
      parity = "same"%string \/ parity = "odd"%string \/
      parity = "even"%string ->
      exists a b,
        _ensure_parity_of_gpts new_gpts old_gpts parity
          = Returns (Some (a, b)) /\
        is_even a = wanted parity (fst old_gpts) /\
        is_even b = wanted parity (snd old_gpts) /\
        fst new_gpts <= a <= fst new_gpts + 1 /\
        snd new_gpts <= b <= snd new_gpts + 1) /\
  _ensure_parity_of_gpts new_gpts old_gpts "none" = Returns None /\
  (forall parity,
      parity <> "same"%string -> parity <> "odd"%string ->
      parity <> "even"%string -> parity <> "none"%string ->
      _ensure_parity_of_gpts new_gpts old_gpts parity = Raises ValueError).
Proof.
  intros wanted. pose proof _ensure_parity_one as Hone.
  split; [|split].
  - intros parity Hp. unfold _ensure_parity_of_gpts, wanted.
    destruct Hp as [-> | [-> | ->]]; cbn [String.eqb Ascii.eqb Bool.eqb];
      cbn match.
    + destruct (Hone (fst new_gpts) (fst old_gpts mod 2 =? 0))
        as (a & -> & ? & ?).
      destruct (Hone (snd new_gpts) (snd old_gpts mod 2 =? 0))
        as (b & -> & ? & ?).
      by exists a, b.
    + destruct (Hone (fst new_gpts) false) as (a & -> & ? & ?).
      destruct (Hone (snd new_gpts) false) as (b & -> & ? & ?).
      by exists a, b.
    + destruct (Hone (fst new_gpts) true) as (a & -> & ? & ?).
      destruct (Hone (snd new_gpts) true) as (b & -> & ? & ?).
      by exists a, b.
  - done.
  - intros parity H1 H2 H3 H4. unfold _ensure_parity_of_gpts.
    apply String.eqb_neq in H1, H2, H3, H4. by rewrite H1, H2, H3, H4.
Qed.

Section Antialias_facts.

Context (safe_floor_int : Qc -> Z).

(** X22 (grid points under the antialiasing cutoff).
    [_antialias_cutoff_gpts] never returns [None]: for a sampling that is
    not zero it returns two numbers with the parities of the grid, each the
    number [safe_floor_int] gives for 2/3 of the extent over the larger
    sampling, or one more. *)
Theorem antialias_cutoff_gpts_parity (gpts : Z * Z) (sampling : Qc * Qc) :
  let m := Qcmax (fst sampling) (snd sampling) in
  let kcut := (Q2Qc (2 # 1) / Q2Qc (3 # 1) / m)%Qc in
  let n0 := safe_floor_int (kcut * (QcZ (fst gpts) * fst sampling)) in
  let n1 := safe_floor_int (kcut * (QcZ (snd gpts) * snd sampling)) in
  (m <> 0%Qc ->
   exists a b,
     _antialias_cutoff_gpts safe_floor_int gpts sampling
       = Returns (Some (a, b)) /\
     is_even a = is_even (fst gpts) /\ is_even b = is_even (snd gpts) /\
     n0 <= a <= n0 + 1 /\ n1 <= b <= n1 + 1) /\
  (m = 0%Qc ->
   _antialias_cutoff_gpts safe_floor_int gpts sampling
     = Raises ZeroDivisionError).
Proof.
  intros m kcut n0 n1. unfold _antialias_cutoff_gpts. fold m. split.
  - intros Hm. rewrite decide_False by done. fold kcut. cbn [fst snd].
    fold n0 n1.
    unfold _ensure_parity_of_gpts. cbn [String.eqb Ascii.eqb Bool.eqb].
    cbn match. cbn [fst snd].
    destruct (_ensure_parity_one n0 (fst gpts mod 2 =? 0)) as (a & -> & ? & ?).
    destruct (_ensure_parity_one n1 (snd gpts mod 2 =? 0)) as (b & -> & ? & ?).
    by exists a, b.
  - intros Hm. by rewrite decide_True.
Qed.

End Antialias_facts.

Lemma ensure_parity_spec_witness :
  (exists r,
     _ensure_parity 7 true (-1) = Returns r /\
     is_even r = true /\
     r = 7 + -1 /\
     _ensure_parity r true (-1) = Returns r) /\
  _ensure_parity 7 true 2 = AssertionFails.
Proof.
  split.
  - destruct (ensure_parity_spec 7 true (-1))
      as [(r & Hr & He & _ & Hn & Hi) _]; [by right|].
    exists r. repeat split; try done. by apply Hn.
  - destruct (ensure_parity_spec 7 true 2) as [_ H]. by apply H.
Defined.

Lemma ensure_parity_of_gpts_spec_witness :
  (exists a b,
     _ensure_parity_of_gpts (7, 8) (4, 5) "same" = Returns (Some (a, b)) /\
     is_even a = is_even 4 /\ is_even b = is_even 5 /\
     7 <= a <= 7 + 1 /\ 8 <= b <= 8 + 1) /\
  _ensure_parity_of_gpts (7, 8) (4, 5) "nearest" = Raises ValueError.
Proof.
  destruct (ensure_parity_of_gpts_spec (7, 8) (4, 5)) as (H1 & _ & H2).
  split.
  - apply (H1 "same"%string). by left.
  - by apply H2.
Defined.

Lemma antialias_cutoff_gpts_parity_witness :
  (exists a b,
     _antialias_cutoff_gpts Qcfloor (6, 9) (q 1 2, q 1 4)
       = Returns (Some (a, b)) /\
     is_even a = is_even 6 /\ is_even b = is_even 9) /\
  _antialias_cutoff_gpts Qcfloor (6, 9) (0%Qc, 0%Qc)
    = Raises ZeroDivisionError.
Proof.
  split.
  - destruct (antialias_cutoff_gpts_parity Qcfloor (6, 9) (q 1 2, q 1 4))
      as [(a & b & Hr & Ha & Hb & _) _]; [done|].
    by exists a, b.
  - by apply (antialias_cutoff_gpts_parity Qcfloor (6, 9) (0%Qc, 0%Qc)).
Defined.

End Gpts.
